(** * AudioFX: the look-ahead music scheduler of The Bellmore

    A shallow embedding of the [AudioFX] module (the Web Audio synth with
    its procedural music engine) and the properties of its scheduler.

    Modelling conventions.
    - A JavaScript number holding a time, a frequency or a gain is an exact
      rational ([Q]): binary64 rounding is not modelled in the synth, except
      in [F64], which measures it on the watermark.  A number used as a
      counter or an array index is an integer ([Z]); [>>] and [%] keep their
      JavaScript meaning (32-bit wrap-around, remainder with the sign of the
      dividend), and an index outside an array reads [undefined].
    - The module-level variables of the closure form the record [AudioFX],
      together with the part of the host the code talks to: the
      [AudioContext] (its clock, its state and the sub-graphs scheduled on
      it), the timer table and the promise reactions waiting to run.
    - A function of the module is a state transformer that completes
      normally or throws; a thrown exception does not roll the state back.
    - The Web Audio primitives themselves are total on the times the module
      computes from the clock, which is never negative; the exceptions that
      can arise are the [TypeError] of dereferencing [null] or [undefined],
      and the [RangeError] of a ghost released before time 0 (a negative
      [opts.duration]).  The time constant given to [musicFade] is taken
      non-negative. *)

From Stdlib Require Import QArith Qround Qminmax ZArith List Bool Lia Lqa.
From Stdlib Require Import PrimFloat FloatOps SpecFloat.
Import ListNotations.
Set Warnings "-inexact-float".
Open Scope Q_scope.

(** ** JavaScript numbers and arrays *)

Module JS.

(** [ToInt32]: the operand conversion of the bitwise operators. *)
Definition ToInt32 (n : Z) : Z := ((n + 2 ^ 31) mod 2 ^ 32 - 2 ^ 31)%Z.

(** [n >> k] *)
Definition sar (n k : Z) : Z := Z.shiftr (ToInt32 n) (k mod 32)%Z.

(** [a % b] on integers: the sign follows the dividend. *)
Definition rem (a b : Z) : Z := Z.rem a b.

(** [l[i]]: [None] stands for [undefined]. *)
Definition index {A : Type} (l : list A) (i : Z) : option A :=
  if (i <? 0)%Z then None else nth_error l (Z.to_nat i).

(** [l.length] *)
Definition length {A : Type} (l : list A) : Z := Z.of_nat (List.length l).

(** [x < y] on numbers. *)
Definition lt (x y : Q) : bool := negb (Qle_bool y x).

(** [x || d] for an optional number: [undefined] and [0] are falsy. *)
Definition or_else (x : option Q) (d : Q) : Q :=
  match x with
  | Some v => if Qeq_bool v 0 then d else v
  | None => d
  end.

(** [Math.max(0, Math.min(1, v))] *)
Definition clamp01 (v : Q) : Q := Qmax 0 (Qmin 1 v).

End JS.

(** ** The audio graph *)

Inductive Wave := Sine | Triangle | Sawtooth | Noise.

(** Automation events of an [AudioParam]. *)
Inductive ParamEvent :=
| SetValueAtTime (v t : Q)
| LinearRampToValueAtTime (v t : Q)
| ExponentialRampToValueAtTime (v t : Q)
| SetTargetAtTime (v t tc : Q).

(** A persistent gain node: its [gain.value] and the automation queued on it. *)
Record GainNode := mkGain {
  gain_value : Q;
  gain_events : list ParamEvent
}.

(** The two persistent buses a sub-graph can be connected to. *)
Inductive Bus := MasterBus | MusicBus.

Inductive Shaping :=
| Direct
| SoftClip
| Bandpass (f q : Q)
| Highpass (f : Q)
| Lowpass (f : Q).

(** One fire-and-forget sub-graph: sources (wave, frequency, mix level)
    feeding one envelope gain, optionally shaped, connected to a bus. *)
Record Voice := mkVoice {
  v_sources : list (Wave * Q * Q);
  v_lfo : option (Q * Q);
  v_shaping : Shaping;
  v_env : list ParamEvent;
  v_start : Q;
  v_stop : Q;
  v_dest : Bus
}.

Inductive CtxState := Suspended | Running | Closed.

Record AudioContext := mkCtx {
  currentTime : Q;
  state : CtxState;
  graph : list Voice
}.

(** ** Host: promises and timers *)

(** Optional overrides accepted by the one-shot effects. *)
Record Opts := mkOpts {
  freq : option Q;
  duration : option Q
}.

(** What [ready()] returns. *)
Inductive Promise := Rejected | Fulfilled | Resuming.

(** The [then] callbacks of the module. *)
Inductive Callback :=
| CbBell (opts : Opts)
| CbGhost (opts : Opts)
| CbTick (opts : Opts)
| CbBuzz (opts : Opts)
| CbMusicStart.

(** The functions handed to [setTimeout]. *)
Inductive Task := TaskMusicTick | TaskRestoreMusicGain.

Record Timer := mkTimer {
  timer_id : positive;
  timer_task : Task;
  timer_ms : Q
}.

Record Reaction := mkReaction {
  awaits : Promise;
  handler : Callback
}.

(** ** Module state *)

(** [window_AudioContext] is the host's constructor: the clock and the state
    a new context starts with, or [None] on a host without Web Audio. *)
Record AudioFX := mkFX {
  window_AudioContext : option (Q * CtxState);
  ctx : option AudioContext;
  master : option GainNode;
  _noiseBuffer : bool;
  _vol : Q;
  _musicPlaying : bool;
  _musicScheduled : Q;
  _musicTimer : option positive;
  _musicBus : option GainNode;
  _phraseCount : Z;
  timers : list Timer;
  next_timer : positive;
  reactions : list Reaction
}.

Definition set_ctx (c : option AudioContext) (s : AudioFX) : AudioFX :=
  mkFX (window_AudioContext s) c (master s) (_noiseBuffer s) (_vol s)
       (_musicPlaying s) (_musicScheduled s) (_musicTimer s) (_musicBus s)
       (_phraseCount s) (timers s) (next_timer s) (reactions s).

Definition set_master (g : option GainNode) (s : AudioFX) : AudioFX :=
  mkFX (window_AudioContext s) (ctx s) g (_noiseBuffer s) (_vol s)
       (_musicPlaying s) (_musicScheduled s) (_musicTimer s) (_musicBus s)
       (_phraseCount s) (timers s) (next_timer s) (reactions s).

Definition set_noiseBuffer (b : bool) (s : AudioFX) : AudioFX :=
  mkFX (window_AudioContext s) (ctx s) (master s) b (_vol s)
       (_musicPlaying s) (_musicScheduled s) (_musicTimer s) (_musicBus s)
       (_phraseCount s) (timers s) (next_timer s) (reactions s).

Definition set_vol (v : Q) (s : AudioFX) : AudioFX :=
  mkFX (window_AudioContext s) (ctx s) (master s) (_noiseBuffer s) v
       (_musicPlaying s) (_musicScheduled s) (_musicTimer s) (_musicBus s)
       (_phraseCount s) (timers s) (next_timer s) (reactions s).

Definition set_musicPlaying (b : bool) (s : AudioFX) : AudioFX :=
  mkFX (window_AudioContext s) (ctx s) (master s) (_noiseBuffer s) (_vol s)
       b (_musicScheduled s) (_musicTimer s) (_musicBus s)
       (_phraseCount s) (timers s) (next_timer s) (reactions s).

Definition set_musicScheduled (t : Q) (s : AudioFX) : AudioFX :=
  mkFX (window_AudioContext s) (ctx s) (master s) (_noiseBuffer s) (_vol s)
       (_musicPlaying s) t (_musicTimer s) (_musicBus s)
       (_phraseCount s) (timers s) (next_timer s) (reactions s).

Definition set_musicTimer (h : option positive) (s : AudioFX) : AudioFX :=
  mkFX (window_AudioContext s) (ctx s) (master s) (_noiseBuffer s) (_vol s)
       (_musicPlaying s) (_musicScheduled s) h (_musicBus s)
       (_phraseCount s) (timers s) (next_timer s) (reactions s).

Definition set_musicBus (g : option GainNode) (s : AudioFX) : AudioFX :=
  mkFX (window_AudioContext s) (ctx s) (master s) (_noiseBuffer s) (_vol s)
       (_musicPlaying s) (_musicScheduled s) (_musicTimer s) g
       (_phraseCount s) (timers s) (next_timer s) (reactions s).

Definition set_phraseCount (n : Z) (s : AudioFX) : AudioFX :=
  mkFX (window_AudioContext s) (ctx s) (master s) (_noiseBuffer s) (_vol s)
       (_musicPlaying s) (_musicScheduled s) (_musicTimer s) (_musicBus s)
       n (timers s) (next_timer s) (reactions s).

Definition set_timers (l : list Timer) (n : positive) (s : AudioFX) : AudioFX :=
  mkFX (window_AudioContext s) (ctx s) (master s) (_noiseBuffer s) (_vol s)
       (_musicPlaying s) (_musicScheduled s) (_musicTimer s) (_musicBus s)
       (_phraseCount s) l n (reactions s).

Definition set_reactions (l : list Reaction) (s : AudioFX) : AudioFX :=
  mkFX (window_AudioContext s) (ctx s) (master s) (_noiseBuffer s) (_vol s)
       (_musicPlaying s) (_musicScheduled s) (_musicTimer s) (_musicBus s)
       (_phraseCount s) (timers s) (next_timer s) l.

(** ** Computations: state, exceptions *)

(** How a computation ends: normally with a value, or with an exception.
    [OutOfFuel] is the model's own third case, for a loop cut off by its
    fuel; [musicTick_spec] shows that it never arises. *)
Inductive Completion (A : Type) :=
| Normal (a : A)
| Throw
| OutOfFuel.
Arguments Normal {A} a.
Arguments Throw {A}.
Arguments OutOfFuel {A}.

Definition M (A : Type) : Type := AudioFX -> Completion A * AudioFX.

Definition ret {A : Type} (a : A) : M A := fun s => (Normal a, s).

Definition bind {A B : Type} (m : M A) (k : A -> M B) : M B :=
  fun s =>
    match m s with
    | (Normal a, s') => k a s'
    | (Throw, s') => (Throw, s')
    | (OutOfFuel, s') => (OutOfFuel, s')
    end.

Definition throw {A : Type} : M A := fun s => (Throw, s).

Definition gets {A : Type} (f : AudioFX -> A) : M A := fun s => (Normal (f s), s).

Definition modify (f : AudioFX -> AudioFX) : M unit := fun s => (Normal tt, f s).

(** [.catch(function () {})] around a callback: the exception is swallowed,
    the mutations made before it stay. *)
Definition swallow (m : M unit) : M unit :=
  fun s =>
    match m s with
    | (Throw, s') => (Normal tt, s')
    | r => r
    end.

Definition exec {A : Type} (m : M A) (s : AudioFX) : AudioFX := snd (m s).
Definition completion {A : Type} (m : M A) (s : AudioFX) : Completion A := fst (m s).

Declare Scope fx_scope.
Delimit Scope fx_scope with fx.
Notation "x <- m ;; k" := (bind m (fun x => k))
  (at level 61, m at next level, right associativity) : fx_scope.
Notation "m ;; k" := (bind m (fun _ => k))
  (at level 61, right associativity) : fx_scope.
Open Scope fx_scope.

(** [for (const x of l) body(x)] *)
Fixpoint for_each {A : Type} (l : list A) (body : A -> M unit) : M unit :=
  match l with
  | [] => ret tt
  | x :: l' => body x ;; for_each l' body
  end.

(** ** Context bootstrap *)

(** [getCtx]: the context is built lazily, together with the effects bus. *)
Definition getCtx : M (option AudioContext) :=
  fun s =>
    match ctx s with
    | Some c => (Normal (Some c), s)
    | None =>
        match window_AudioContext s with
        | None => (Normal None, s)
        | Some (t, st) =>
            let c := mkCtx t st [] in
            (Normal (Some c),
             set_master (Some (mkGain (_vol s) [])) (set_ctx (Some c) s))
        end
    end.

(** [now] *)
Definition now : M Q :=
  gets (fun s => match ctx s with Some c => currentTime c | None => 0 end).

(** [ready]: a rejected promise without a context, the promise of
    [resume()] on a suspended one, a fulfilled promise otherwise. *)
Definition ready : M Promise :=
  c <- getCtx ;;
  match c with
  | None => ret Rejected
  | Some c => match state c with Suspended => ret Resuming | _ => ret Fulfilled end
  end.

(** [ctx.currentTime]: a [TypeError] when [ctx] is [null]. *)
Definition ctx_currentTime : M Q :=
  fun s =>
    match ctx s with
    | Some c => (Normal (currentTime c), s)
    | None => (Throw, s)
    end.

(** The node a bus tag stands for. *)
Definition bus_node (b : Bus) (s : AudioFX) : option GainNode :=
  match b with MasterBus => master s | MusicBus => _musicBus s end.

(** Building one sub-graph: the first [ctx.create...] needs the context,
    [connect] needs the bus node, and the sources are started last. *)
Definition attach (v : Voice) : M unit :=
  fun s =>
    match ctx s with
    | None => (Throw, s)
    | Some c =>
        match bus_node (v_dest v) s with
        | None => (Throw, s)
        | Some _ =>
            (Normal tt,
             set_ctx (Some (mkCtx (currentTime c) (state c) (graph c ++ [v]))) s)
        end
    end.

(** [p.then(cb).catch(function () {})]: nothing is left to run after a
    rejected promise. *)
Definition then_catch (p : Promise) (cb : Callback) : M unit :=
  match p with
  | Rejected => ret tt
  | _ => modify (fun s => set_reactions (reactions s ++ [mkReaction p cb]) s)
  end.

(** [setTimeout(task, ms)] and [clearTimeout(id)] *)
Definition setTimeout (task : Task) (ms : Q) : M positive :=
  fun s =>
    let id := next_timer s in
    (Normal id, set_timers (timers s ++ [mkTimer id task ms]) (Pos.succ id) s).

Definition clearTimeout (id : positive) : M unit :=
  modify (fun s =>
    set_timers (filter (fun t => negb (Pos.eqb (timer_id t) id)) (timers s))
               (next_timer s) s).

(** ** One-shot effects *)

Definition _ding (t f : Q) : M unit :=
  let crack := t + 0.001 in
  let settle := t + 0.018 in
  let ring := t + 1.1 in
  let tail := ring + 0.04 in
  attach (mkVoice
    [(Sine, f, 0.60); (Sine, f * 2.756, 0.20);
     (Triangle, f * 5.405, 0.06); (Sine, f * 1.0083, 0.18)]
    None SoftClip
    [SetValueAtTime 0 t; LinearRampToValueAtTime 0.65 crack;
     ExponentialRampToValueAtTime 0.16 settle;
     ExponentialRampToValueAtTime 0.0001 ring;
     LinearRampToValueAtTime 0 tail]
    t (tail + 0.01) MasterBus).

Definition playBell_then (opts : Opts) : M unit :=
  let f := JS.or_else (freq opts) 2637 in
  t <- now ;;
  _ding t f ;;
  _ding (t + 0.18) f.

(** The release time is the one time of the effects that the caller can
    make negative, with [opts.duration]:
    [exponentialRampToValueAtTime] then raises a [RangeError], before any
    source has been started. *)
Definition playGhost_then (opts : Opts) : M unit :=
  t <- now ;;
  let base := JS.or_else (freq opts) 196 in
  let atk := t + 0.18 in
  let peak := t + 0.5 in
  let rel := t + JS.or_else (duration opts) 2.4 in
  let tail := rel + 0.06 in
  if JS.lt rel 0 then throw
  else
    attach (mkVoice
      [(Sine, base, 1); (Sine, base * 1.503, 1)]
      (Some (0.45, 4)) (Bandpass 520 1.2)
      [SetValueAtTime 0 t; LinearRampToValueAtTime 0.45 atk;
       SetValueAtTime 0.45 peak; ExponentialRampToValueAtTime 0.0001 rel;
       LinearRampToValueAtTime 0 tail]
      t (tail + 0.01) MasterBus).

(** [noiseBuffer]: the half second of noise is built once and cached. *)
Definition noiseBuffer : M unit :=
  fun s =>
    if _noiseBuffer s then (Normal tt, s)
    else match ctx s with
         | None => (Throw, s)
         | Some _ => (Normal tt, set_noiseBuffer true s)
         end.

Definition playTick_then (opts : Opts) : M unit :=
  t <- now ;;
  c <- gets ctx ;;
  m <- gets master ;;
  match c, m with
  | Some _, Some _ =>
      noiseBuffer ;;
      let atk := t + 0.001 in
      let rel := t + 0.055 in
      let tail := rel + 0.008 in
      attach (mkVoice
        [(Noise, 0, 1)] None (Highpass (JS.or_else (freq opts) 2400))
        [SetValueAtTime 0 t; LinearRampToValueAtTime 0.52 atk;
         ExponentialRampToValueAtTime 0.0001 rel;
         LinearRampToValueAtTime 0 tail]
        t (tail + 0.005) MasterBus)
  | _, _ => throw
  end.

Definition playBuzz_then (opts : Opts) : M unit :=
  t <- now ;;
  let rel := t + 0.18 in
  let tail := rel + 0.015 in
  attach (mkVoice
    [(Sawtooth, JS.or_else (freq opts) 120, 1)] None (Lowpass 320)
    [SetValueAtTime 0 t; LinearRampToValueAtTime 0.32 (t + 0.01);
     ExponentialRampToValueAtTime 0.0001 rel;
     LinearRampToValueAtTime 0 tail]
    t (tail + 0.005) MasterBus).

(** [opts = opts || {}] *)
Definition opts_or_empty (opts : option Opts) : Opts :=
  match opts with Some o => o | None => mkOpts None None end.

Definition playBell (opts : option Opts) : M unit :=
  p <- ready ;; then_catch p (CbBell (opts_or_empty opts)).

Definition playGhost (opts : option Opts) : M unit :=
  p <- ready ;; then_catch p (CbGhost (opts_or_empty opts)).

Definition playTick (opts : option Opts) : M unit :=
  p <- ready ;; then_catch p (CbTick (opts_or_empty opts)).

Definition playBuzz (opts : option Opts) : M unit :=
  p <- ready ;; then_catch p (CbBuzz (opts_or_empty opts)).

(** ** Music engine *)

(** D pentatonic major. *)
Definition _PENTA : list Q := [147; 294; 330; 370; 440; 494; 587; 659; 740; 880].

(** The harmonic plan: D, A, Bm, G. *)
Definition _CHORDS : list (list Q) :=
  [[294; 370; 440]; [440; 554; 659]; [247; 294; 370]; [392; 494; 587]].

Definition _BAR : Q := 1.92.
Definition _BEAT : Q := _BAR / 4.
Definition _AHEAD : Q := _BAR * 2.

Definition _musicBusEnsure : M unit :=
  b <- gets _musicBus ;;
  match b with
  | Some _ => ret tt
  | None =>
      getCtx ;;
      c <- gets ctx ;;
      match c with
      | None => throw
      | Some _ => modify (set_musicBus (Some (mkGain 0.18 [])))
      end
  end.

(** Smooth sine note. *)
Definition _note (f startT dur peakGain : Q) (busNode : Bus) : M unit :=
  let atk := startT + 0.008 in
  let rel := startT + dur * 0.85 in
  let end_ := startT + dur + 0.04 in
  attach (mkVoice [(Sine, f, 1)] None Direct
    [SetValueAtTime 0 startT; LinearRampToValueAtTime peakGain atk;
     SetValueAtTime peakGain rel; LinearRampToValueAtTime 0 end_]
    startT (end_ + 0.01) busNode).

(** Triangle note behind a gentle lowpass, used for the melody. *)
Definition _melNote (f startT dur peakGain : Q) (busNode : Bus) : M unit :=
  let atk := startT + 0.012 in
  let rel := startT + dur * 0.78 in
  let end_ := startT + dur + 0.06 in
  attach (mkVoice [(Triangle, f, 1)] None (Lowpass 1800)
    [SetValueAtTime 0 startT; LinearRampToValueAtTime peakGain atk;
     SetValueAtTime peakGain rel; LinearRampToValueAtTime 0 end_]
    startT (end_ + 0.01) busNode).

(** Soft bass thump, one octave down. *)
Definition _bassNote (f startT : Q) (busNode : Bus) : M unit :=
  let end_ := startT + 0.45 in
  attach (mkVoice [(Sine, f / 2, 1)] None Direct
    [SetValueAtTime 0 startT; LinearRampToValueAtTime 0.55 (startT + 0.01);
     ExponentialRampToValueAtTime 0.001 end_;
     LinearRampToValueAtTime 0 (end_ + 0.02)]
    startT (end_ + 0.03) busNode).

(** The four melodic shapes of [_phrase]. *)
Definition shapes : list (list Z) :=
  [[4; 5; 6; 7; 6; 5; 4; 3];
   [3; 4; 6; 7; 9; 7; 6; 4];
   [5; 6; 7; 6; 4; 3; 4; 5];
   [7; 6; 5; 4; 5; 6; 7; 9]]%Z.

(** Body of the loop of [_phrase] at index [i]. *)
Definition _phrase_step (shape : list Z) (barStart : Q) (busNode : Bus) (i : Z)
  : M unit :=
  let f := match JS.index shape i with
           | Some d => JS.index _PENTA (JS.rem d (JS.length _PENTA))
           | None => None
           end in
  let t := barStart + inject_Z i * (_BEAT / 2) in
  if ((i =? 3) || (i =? 7))%Z then ret tt
  else match f with
       | Some f => _melNote f t (_BEAT * 0.48) 0.55 busNode
       | None => throw
       end.

(** [_phrase]: the phrase of two bars, one shape per call. *)
Definition _phrase (barStart : Q) (phraseIdx : Z) (busNode : Bus) : M unit :=
  match JS.index shapes (JS.rem phraseIdx (JS.length shapes)) with
  | None => throw
  | Some shape =>
      for_each [0; 1; 2; 3; 4; 5; 6; 7]%Z (_phrase_step shape barStart busNode)
  end.

(** [chord.forEach(function (freq, i) { ... })] *)
Fixpoint _arp_from (i : Z) (chord : list Q) (barStart : Q) (beat : Z)
  (busNode : Bus) : M unit :=
  match chord with
  | [] => ret tt
  | f :: rest =>
      _note f (barStart + inject_Z beat * _BEAT + inject_Z i * 0.055)
            (_BEAT * 1.6) 0.28 busNode ;;
      _arp_from (i + 1) rest barStart beat busNode
  end.

(** Arpeggiated chord: the notes rolled quickly upward. *)
Definition _arp (chord : list Q) (barStart : Q) (beat : Z) (busNode : Bus)
  : M unit :=
  _arp_from 0 chord barStart beat busNode.

(** [(_phraseCount >> 1) % _CHORDS.length] *)
Definition chord_index (phraseCount : Z) : Z :=
  JS.rem (JS.sar phraseCount 1) (JS.length _CHORDS).

(** The notes of one two-bar block: bass and two arpeggios per bar on the
    chord of the block, and the melody (the statements of [_scheduleBars]
    between the bus set-up and the two final assignments). *)
Definition _scheduleBars_notes (fromT : Q) : M unit :=
  let bus := MusicBus in
  n <- gets _phraseCount ;;
  match JS.index _CHORDS (chord_index n) with
  | None => throw
  | Some chord =>
      match JS.index chord 0 with
      | None => throw
      | Some root =>
          _bassNote root fromT bus ;;
          _arp chord fromT 0 bus ;;
          _arp chord fromT 2 bus ;;
          _bassNote root (fromT + _BAR) bus ;;
          _arp chord (fromT + _BAR) 1 bus ;;
          _arp chord (fromT + _BAR) 3 bus ;;
          idx <- gets _phraseCount ;;
          _phrase fromT idx bus
      end
  end.

(** Schedule two bars of material starting at [fromT].  The watermark is
    advanced in exact arithmetic here; [F64.next_watermark] is the same
    assignment in binary64. *)
Definition _scheduleBars (fromT : Q) : M unit :=
  playing <- gets _musicPlaying ;;
  if negb playing then ret tt
  else
    _musicBusEnsure ;;
    _scheduleBars_notes fromT ;;
    modify (fun s => set_phraseCount (_phraseCount s + 1)%Z s) ;;
    modify (set_musicScheduled (fromT + _BAR * 2)).

(** [while (_musicScheduled < ahead) _scheduleBars(_musicScheduled)],
    cut off after [fuel] iterations.  The test compares exact rationals:
    where the watermark and [ahead] differ by less than the rounding of
    binary64, the code may run one block more or less than the model. *)
Fixpoint while_behind (fuel : nat) (ahead : Q) : M unit :=
  fun s =>
    if JS.lt (_musicScheduled s) ahead then
      match fuel with
      | O => (OutOfFuel, s)
      | S fuel' =>
          (_scheduleBars (_musicScheduled s) ;; while_behind fuel' ahead) s
      end
    else (Normal tt, s).

(** Number of two-bar blocks that separate the watermark from [ahead]:
    the fuel [_musicTick] gives to its loop, which is enough
    ([blocks_behind_enough]). *)
Definition blocks_behind (scheduled ahead : Q) : nat :=
  Z.to_nat (Qceiling ((ahead - scheduled) / (_BAR * 2))).

(** [_musicTick]; the watermark is read once more than in the source, to
    size the fuel of the loop. *)
Definition _musicTick : M unit :=
  playing <- gets _musicPlaying ;;
  if negb playing then ret tt
  else
    getCtx ;;
    t <- ctx_currentTime ;;
    let ahead := t + _AHEAD in
    scheduled <- gets _musicScheduled ;;
    while_behind (blocks_behind scheduled ahead) ahead ;;
    id <- setTimeout TaskMusicTick (_BAR * 1000 / 2) ;;
    modify (set_musicTimer (Some id)).

(** The callback of [musicStart], up to the first tick. *)
Definition musicStart_init : M unit :=
  _musicBusEnsure ;;
  modify (set_musicPlaying true) ;;
  t <- ctx_currentTime ;;
  modify (set_musicScheduled (t + 0.1)) ;;
  modify (set_phraseCount 0%Z).

Definition musicStart_then : M unit :=
  musicStart_init ;; _musicTick.

Definition musicStart : M unit :=
  playing <- gets _musicPlaying ;;
  if playing then ret tt
  else p <- ready ;; then_catch p CbMusicStart.

Definition musicStop : M unit :=
  modify (set_musicPlaying false) ;;
  h <- gets _musicTimer ;;
  match h with
  | Some id => clearTimeout id ;; modify (set_musicTimer None)
  | None => ret tt
  end ;;
  b <- gets _musicBus ;;
  c <- gets ctx ;;
  match b, c with
  | Some g, Some c =>
      modify (set_musicBus
        (Some (mkGain (gain_value g)
                      (gain_events g ++ [SetTargetAtTime 0 (currentTime c) 0.4])))) ;;
      _ <- setTimeout TaskRestoreMusicGain 2500 ;;
      ret tt
  | _, _ => ret tt
  end.

(** [musicFade]: the time constant is the caller's, and is taken
    non-negative; the [RangeError] that [setTargetAtTime] raises on a
    negative one is not modelled. *)
Definition musicFade (toVol : Q) (timeConstant : option Q) : M unit :=
  b <- gets _musicBus ;;
  c <- gets ctx ;;
  match b, c with
  | Some g, Some c =>
      modify (set_musicBus
        (Some (mkGain (gain_value g)
                      (gain_events g ++
                       [SetTargetAtTime toVol (currentTime c)
                                        (JS.or_else timeConstant 0.5)]))))
  | _, _ => ret tt
  end.

Definition setVolume (v : Q) : M unit :=
  modify (set_vol (JS.clamp01 v)) ;;
  m <- gets master ;;
  match m with
  | None => ret tt
  | Some g =>
      t <- ctx_currentTime ;;
      vol <- gets _vol ;;
      modify (set_master
        (Some (mkGain (gain_value g)
                      (gain_events g ++ [SetTargetAtTime vol t 0.02]))))
  end.

(** ** Host steps *)

(** Body of a [then] callback. *)
Definition callback (cb : Callback) : M unit :=
  match cb with
  | CbBell o => playBell_then o
  | CbGhost o => playGhost_then o
  | CbTick o => playTick_then o
  | CbBuzz o => playBuzz_then o
  | CbMusicStart => musicStart_then
  end.

(** Body of a timer task. *)
Definition task (t : Task) : M unit :=
  match t with
  | TaskMusicTick => _musicTick
  | TaskRestoreMusicGain =>
      b <- gets _musicBus ;;
      match b with
      | Some g => modify (set_musicBus (Some (mkGain 0.18 (gain_events g))))
      | None => ret tt
      end
  end.

(** A reaction whose promise has settled: the callback runs under the
    empty [catch] when the promise is fulfilled, nothing runs otherwise. *)
Definition settle (fulfilled : bool) (cb : Callback) : M unit :=
  if fulfilled then swallow (callback cb) else ret tt.

(** The context leaves the suspended state when [resume()] succeeds. *)
Definition resumed : M unit :=
  modify (fun s =>
    match ctx s with
    | Some c =>
        match state c with
        | Suspended => set_ctx (Some (mkCtx (currentTime c) Running (graph c))) s
        | _ => s
        end
    | None => s
    end).

Fixpoint deliver (resume : option bool) (rs : list Reaction) : M unit :=
  match rs with
  | [] => ret tt
  | r :: rs' =>
      match awaits r, resume with
      | Rejected, _ => ret tt
      | Fulfilled, _ => settle true (handler r)
      | Resuming, Some ok => settle ok (handler r)
      | Resuming, None =>
          modify (fun s => set_reactions (reactions s ++ [r]) s)
      end ;;
      deliver resume rs'
  end.

(** One microtask checkpoint.  [resume] tells how the pending [resume()]
    has settled, if it has. *)
Definition checkpoint (resume : option bool) : M unit :=
  rs <- gets reactions ;;
  modify (set_reactions []) ;;
  match resume with Some true => resumed | _ => ret tt end ;;
  deliver resume rs.

(** A timer fires: it leaves the table and its task runs. *)
Definition fire (id : positive) : M unit :=
  ts <- gets timers ;;
  match find (fun t => Pos.eqb (timer_id t) id) ts with
  | None => ret tt
  | Some t => clearTimeout id ;; task (timer_task t)
  end.

(** The audio clock moves to [t]. *)
Definition clock_at (t : Q) : M unit :=
  modify (fun s =>
    match ctx s with
    | Some c => set_ctx (Some (mkCtx t (state c) (graph c))) s
    | None => s
    end).

(** The page right after the script has loaded, on a host whose
    [AudioContext] constructor starts a context as [c] says (or has
    none). *)
Definition loaded (c : option (Q * CtxState)) : AudioFX :=
  mkFX c None None false 0.325 false 0 None None 0%Z [] 1%positive [].


(** The sub-graphs scheduled so far. *)
Definition voices (s : AudioFX) : list Voice :=
  match ctx s with Some c => graph c | None => [] end.

(** ** Public interface of the effects *)

(** The four effects of the public interface. *)
Inductive Effect := Bell | Ghost | UiTick | Buzz.

(** [AudioFX.playBell], [AudioFX.playGhost], [AudioFX.playTick] and
    [AudioFX.playBuzz]. *)
Definition play (e : Effect) : option Opts -> M unit :=
  match e with
  | Bell => playBell
  | Ghost => playGhost
  | UiTick => playTick
  | Buzz => playBuzz
  end.

(** The callback an effect hands to [then]. *)
Definition effect_callback (e : Effect) (o : Opts) : Callback :=
  match e with
  | Bell => CbBell o
  | Ghost => CbGhost o
  | UiTick => CbTick o
  | Buzz => CbBuzz o
  end.

(** ** Runs of the page *)

(** What can happen to the page: a call of the public interface, or a move
    of the host (a microtask checkpoint, a timer firing, the audio clock
    advancing). *)
Inductive Step :=
| CallPlay (e : Effect) (opts : option Opts)
| CallSetVolume (v : Q)
| CallMusicStart
| CallMusicStop
| CallMusicFade (toVol : Q) (timeConstant : option Q)
| HostCheckpoint (resume : option bool)
| HostFire (id : positive)
| HostClock (t : Q).

Definition step (a : Step) : M unit :=
  match a with
  | CallPlay e opts => play e opts
  | CallSetVolume v => setVolume v
  | CallMusicStart => musicStart
  | CallMusicStop => musicStop
  | CallMusicFade toVol timeConstant => musicFade toVol timeConstant
  | HostCheckpoint resume => checkpoint resume
  | HostFire id => fire id
  | HostClock t => clock_at t
  end.

(** The states the page goes through, from the loading of the script. *)
Inductive reachable : AudioFX -> Prop :=
| reach_loaded (c : option (Q * CtxState)) : reachable (loaded c)
| reach_step (s : AudioFX) (a : Step) :
    reachable s -> reachable (exec (step a) s).

(** * Specification vocabulary *)

(** What [ctx.currentTime] reads once [getCtx] has run. *)
Definition clock (s : AudioFX) : Q :=
  match ctx s with
  | Some c => currentTime c
  | None =>
      match window_AudioContext s with
      | Some (t, _) => t
      | None => 0
      end
  end.

(** The duration of a two-bar block. *)
Definition two_bars : Q := _BAR * 2.

(** How far past the end of its block a note can ring: the third note of
    the arpeggio on the last beat of the second bar. *)
Definition overhang : Q := 0.448.

(** A sub-graph of the block that starts at [fromT]: it goes to the music
    bus, starts inside the two bars and stops at most [overhang] after
    them. *)
Definition in_block (fromT : Q) (v : Voice) : Prop :=
  fromT <= v_start v /\ v_start v < fromT + _BAR * 2 /\ v_dest v = MusicBus /\
  v_stop v <= fromT + _BAR * 2 + overhang.

(** [s'] is [s] up to the audio nodes: every variable other than [ctx],
    [master] and [_musicBus] is unchanged. *)
Record audio_only (s s' : AudioFX) : Prop := mkAudioOnly {
  ao_window : window_AudioContext s' = window_AudioContext s;
  ao_noise : _noiseBuffer s' = _noiseBuffer s;
  ao_vol : _vol s' = _vol s;
  ao_playing : _musicPlaying s' = _musicPlaying s;
  ao_scheduled : _musicScheduled s' = _musicScheduled s;
  ao_timer : _musicTimer s' = _musicTimer s;
  ao_count : _phraseCount s' = _phraseCount s;
  ao_timers : timers s' = timers s;
  ao_next : next_timer s' = next_timer s;
  ao_reactions : reactions s' = reactions s
}.

(** The nodes hang together: both buses live on the context, the music
    plays only with its bus, and the block counter is never negative. *)
Record wf (s : AudioFX) : Prop := mkWf {
  wf_bus : _musicBus s <> None -> ctx s <> None;
  wf_master : master s <> None -> ctx s <> None;
  wf_playing : _musicPlaying s = true -> _musicBus s <> None;
  wf_count : (0 <= _phraseCount s)%Z
}.

(** [m] keeps the state well-formed, however it completes. *)
Definition keeps {A : Type} (m : M A) : Prop :=
  forall s, wf s -> wf (exec m s).

(** [m] terminates, touches the audio nodes only, and every sub-graph it
    schedules satisfies [P]. *)
Definition builds {A : Type} (P : Voice -> Prop) (m : M A) : Prop :=
  forall s,
    completion m s <> OutOfFuel /\
    audio_only s (exec m s) /\
    exists l, voices (exec m s) = voices s ++ l /\ Forall P l.

(** [s'] is [s] after [k] blocks: the watermark moved by [k] two-bar steps
    and the counter by [k]; the sub-graphs scheduled meanwhile start at or
    after the old watermark; the rest of the scheduler is as it was. *)
Record progress (k : nat) (s s' : AudioFX) : Prop := mkProgress {
  pg_scheduled :
    _musicScheduled s' == _musicScheduled s + inject_Z (Z.of_nat k) * two_bars;
  pg_count : _phraseCount s' = (_phraseCount s + Z.of_nat k)%Z;
  pg_playing : _musicPlaying s' = _musicPlaying s;
  pg_timer : _musicTimer s' = _musicTimer s;
  pg_timers : timers s' = timers s;
  pg_next : next_timer s' = next_timer s;
  pg_reactions : reactions s' = reactions s;
  pg_voices :
    exists l, voices s' = voices s ++ l /\
      Forall (fun v => _musicScheduled s <= v_start v /\ v_dest v = MusicBus) l
}.

(** The timer armed at the end of a tick. *)
Definition rearmed (s : AudioFX) : AudioFX :=
  set_musicTimer (Some (next_timer s))
    (set_timers (timers s ++ [mkTimer (next_timer s) TaskMusicTick (_BAR * 1000 / 2)])
                (Pos.succ (next_timer s)) s).

(** The scheduler can build notes: the context and the music bus exist and
    the block counter is within the range of [>>]. *)
Definition steady (s : AudioFX) : Prop :=
  ctx s <> None /\ _musicBus s <> None /\ (0 <= _phraseCount s < 2 ^ 31)%Z.

(** From a steady state [m] completes normally, in a steady state. *)
Definition sounds (m : M unit) : Prop :=
  forall s, steady s -> exists s', m s = (Normal tt, s') /\ steady s'.

(** [s] with the sub-graphs [l] scheduled on its context. *)
Definition add_voices (l : list Voice) (s : AudioFX) : AudioFX :=
  match ctx s with
  | Some c => set_ctx (Some (mkCtx (currentTime c) (state c) (graph c ++ l))) s
  | None => s
  end.

(** The context exists and so does the node of bus [b]. *)
Definition wired (b : Bus) (s : AudioFX) : Prop :=
  ctx s <> None /\ bus_node b s <> None.

(** On a wired state [m] completes normally and schedules exactly the
    sub-graphs [l], whatever the rest of the state. *)
Definition emits (b : Bus) (m : M unit) (l : list Voice) : Prop :=
  forall s, wired b s -> m s = (Normal tt, add_voices l s).

(** The pipeline can be had: the context exists or can be constructed. *)
Definition available (s : AudioFX) : Prop :=
  ctx s <> None \/ window_AudioContext s <> None.

(** What the call of an effect queues: nothing when [getCtx] finds no
    pipeline, else its callback, behind [resume()] on a suspended
    context. *)
Definition queued (e : Effect) (opts : option Opts) (s : AudioFX)
  : list Reaction :=
  match ctx (exec getCtx s) with
  | None => []
  | Some c =>
      [mkReaction (match state c with Suspended => Resuming | _ => Fulfilled end)
                  (effect_callback e (opts_or_empty opts))]
  end.

(** ** Concrete runs *)

(** A freshly loaded page on a host whose context starts running at
    clock 0. *)
Definition fresh_page : AudioFX := loaded (Some (0, Running)).

(** [musicStart()] on the fresh page, then the microtask checkpoint that
    runs its callback: the music plays and the first tick has run. *)
Definition started_page : AudioFX :=
  exec (checkpoint None) (exec musicStart fresh_page).

(** The clock has moved to 0.96 s and the timer of the first tick fires. *)
Definition second_tick_page : AudioFX :=
  exec (fire 1) (exec (clock_at 0.96) started_page).

(** The fresh page once the callback of [musicStart] has made its
    assignments: context and music bus exist, the flag is set, the watermark
    is at 0.1 and the counter at 0. *)
Definition primed_page : AudioFX := exec (getCtx ;; musicStart_init) fresh_page.

(** One block generated from there. *)
Definition first_block_page : AudioFX := exec (_scheduleBars 0.1) primed_page.

(** A freshly loaded page on a host whose context starts suspended, as
    browsers have it before the first gesture of the user. *)
Definition suspended_page : AudioFX := loaded (Some (0, Suspended)).

(** ** The watermark in binary64

    The times of the model are exact rationals.  [F64] holds the tempo and
    the two assignments to the watermark as the code computes them, in
    binary64, to measure what the exact arithmetic leaves out. *)

Module F64.

Definition _BAR : float := 1.92.
Definition _BEAT : float := _BAR / 4.
Definition _AHEAD : float := _BAR * 2.



(** The rational number a finite double stands for (0 for the others). *)
Definition exact (x : float) : Q :=
  match Prim2SF x with
  | S754_finite neg m e =>
      let v := if (e <? 0)%Z then Z.pos m # (2 ^ Z.to_pos (- e))%positive
               else inject_Z (Z.pos m * 2 ^ e) in
      if neg then - v else v
  | _ => 0
  end.

End F64.

(** ** Envelopes and the growth of the graph *)

(** The time an automation event is scheduled at. *)
Definition event_time (e : ParamEvent) : Q :=
  match e with
  | SetValueAtTime _ t => t
  | LinearRampToValueAtTime _ t => t
  | ExponentialRampToValueAtTime _ t => t
  | SetTargetAtTime _ t _ => t
  end.

(** The events were queued in the order of their times. *)
Fixpoint in_time_order (l : list ParamEvent) : Prop :=
  match l with
  | e1 :: ((e2 :: _) as rest) =>
      event_time e1 <= event_time e2 /\ in_time_order rest
  | _ => True
  end.

(** The envelope of [v] opens with the gain set to 0 at the start of the
    sources. *)
Definition starts_silent (v : Voice) : Prop :=
  match v_env v with
  | SetValueAtTime g t :: _ => g = 0 /\ t = v_start v
  | _ => False
  end.

(** The envelope of [v] closes with a linear ramp to 0 that is over
    strictly before the sources are stopped. *)
Definition ends_silent (v : Voice) : Prop :=
  match last (v_env v) (SetValueAtTime 1 0) with
  | LinearRampToValueAtTime g t => g = 0 /\ t < v_stop v
  | _ => False
  end.

(** No click: the events of the envelope are in time order, so that the
    first and the last queued are the first and the last in time; the gain
    is 0 when the sources start; and it is back at 0 before they stop. *)
Definition click_free (v : Voice) : Prop :=
  in_time_order (v_env v) /\ starts_silent v /\ ends_silent v.




(** The states the page goes through when every step satisfies [P]. *)
Inductive reachable_with (P : Step -> Prop) : AudioFX -> Prop :=
| with_loaded (c : option (Q * CtxState)) : reachable_with P (loaded c)
| with_step (s : AudioFX) (a : Step) :
    reachable_with P s -> P a -> reachable_with P (exec (step a) s).



(** A ghost of 0.1 s on the fresh page, its callback run. *)
Definition short_ghost_page : AudioFX :=
  exec (checkpoint None)
    (exec (play Ghost (Some (mkOpts None (Some 0.1)))) fresh_page).


(** ** Exact output of the note builders *)

(** The started page with its clock at 0.96 s, when the second tick is
    due. *)
Definition next_tick_page : AudioFX := exec (clock_at 0.96) started_page.

(** The started page after a stall: the clock reads 10 s and no tick has
    run since the first. *)
Definition late_page : AudioFX := exec (clock_at 10) started_page.

(** The fresh page with its context built. *)
Definition live_page : AudioFX := exec getCtx fresh_page.

(** The fresh page with its context and its music bus built. *)
Definition wired_page : AudioFX := exec _musicBusEnsure live_page.

(** On a state wired for music whose block counter reads [n], [m]
    completes normally and schedules exactly the sub-graphs [l]. *)
Definition emits_on (n : Z) (m : M unit) (l : list Voice) : Prop :=
  forall s, wired MusicBus s -> _phraseCount s = n ->
            m s = (Normal tt, add_voices l s).

(** * The first version of the synth ([class AudioFX], [tools/audio.js])

    The class plays its effects synchronously: no promise stands between
    the caller and the Web Audio calls.  Its one instance is the record
    [Legacy.AudioFX]: the fields of the object, the host's constructor and
    the timers [AudioFXPreview] has set (each runs [playBell()]). *)

Module Legacy.

Record AudioFX : Type := mkFX {
  window_AudioContext : option (Q * CtxState);
  ctx : option AudioContext;
  master : option GainNode;
  volume : Q;
  _noiseBuffer : bool;
  timeouts : list Q
}.

Definition set_ctx (c : option AudioContext) (s : AudioFX) : AudioFX :=
  mkFX (window_AudioContext s) c (master s) (volume s) (_noiseBuffer s)
       (timeouts s).

Definition set_master (g : option GainNode) (s : AudioFX) : AudioFX :=
  mkFX (window_AudioContext s) (ctx s) g (volume s) (_noiseBuffer s)
       (timeouts s).

Definition set_volume (v : Q) (s : AudioFX) : AudioFX :=
  mkFX (window_AudioContext s) (ctx s) (master s) v (_noiseBuffer s)
       (timeouts s).

Definition set_noiseBuffer (b : bool) (s : AudioFX) : AudioFX :=
  mkFX (window_AudioContext s) (ctx s) (master s) (volume s) b (timeouts s).

Definition set_timeouts (l : list Q) (s : AudioFX) : AudioFX :=
  mkFX (window_AudioContext s) (ctx s) (master s) (volume s) (_noiseBuffer s)
       l.

Definition M (A : Type) : Type := AudioFX -> Completion A * AudioFX.

Definition ret {A : Type} (a : A) : M A := fun s => (Normal a, s).

Definition bind {A B : Type} (m : M A) (k : A -> M B) : M B :=
  fun s =>
    match m s with
    | (Normal a, s') => k a s'
    | (Throw, s') => (Throw, s')
    | (OutOfFuel, s') => (OutOfFuel, s')
    end.

Definition throw {A : Type} : M A := fun s => (Throw, s).

Definition gets {A : Type} (f : AudioFX -> A) : M A :=
  fun s => (Normal (f s), s).

Definition modify (f : AudioFX -> AudioFX) : M unit :=
  fun s => (Normal tt, f s).

Definition exec {A : Type} (m : M A) (s : AudioFX) : AudioFX := snd (m s).
Definition completion {A : Type} (m : M A) (s : AudioFX) : Completion A :=
  fst (m s).

Declare Scope legacy_scope.
Delimit Scope legacy_scope with legacy.
Notation "x <- m ;; k" := (bind m (fun x => k))
  (at level 61, m at next level, right associativity) : legacy_scope.
Notation "m ;; k" := (bind m (fun _ => k))
  (at level 61, right associativity) : legacy_scope.
Local Open Scope legacy_scope.

(** [new AudioFX()], on a host whose constructor is [w]. *)
Definition constructor (w : option (Q * CtxState)) : AudioFX :=
  mkFX w None None 0.45 false [].

(** [_init]: [new Ctx()] is a [TypeError] when the host has no
    constructor. *)
Definition _init : M unit :=
  c <- gets ctx ;;
  match c with
  | Some _ => ret tt
  | None =>
      w <- gets window_AudioContext ;;
      match w with
      | None => throw
      | Some (t, st) =>
          modify (set_ctx (Some (mkCtx t st []))) ;;
          v <- gets volume ;;
          modify (set_master (Some (mkGain v [])))
      end
  end.

(** [_now]: a clock at [0] is falsy and reads [0] all the same. *)
Definition _now : M Q :=
  gets (fun s =>
          match ctx s with
          | Some c => if Qeq_bool (currentTime c) 0 then 0 else currentTime c
          | None => 0
          end).

Definition setVolume (v : Q) : M unit :=
  modify (set_volume (JS.clamp01 v)) ;;
  m <- gets master ;;
  match m with
  | Some g =>
      vol <- gets volume ;;
      t <- _now ;;
      modify (set_master
                (Some (mkGain (gain_value g)
                         (gain_events g ++ [SetTargetAtTime vol t 0.01]))))
  | None => ret tt
  end.

(** [_makeGain()] followed by [gain.connect(this.master)]: both the
    context and the master gain are dereferenced. *)
Definition connected_gain : M unit :=
  c <- gets ctx ;;
  m <- gets master ;;
  match c, m with
  | Some _, Some _ => ret tt
  | _, _ => throw
  end.

(** The sub-graph is complete: its sources start. *)
Definition start (v : Voice) : M unit :=
  c <- gets ctx ;;
  match c with
  | Some c =>
      modify (set_ctx
                (Some (mkCtx (currentTime c) (state c) (graph c ++ [v]))))
  | None => throw
  end.

(** [_noiseBufferCreate]: one second of noise, built once. *)
Definition _noiseBufferCreate : M unit :=
  b <- gets _noiseBuffer ;;
  if b then ret tt
  else
    c <- gets ctx ;;
    match c with
    | None => throw
    | Some _ => modify (set_noiseBuffer true)
    end.

Definition playBell (opts : option Opts) : M unit :=
  let opts := opts_or_empty opts in
  _init ;;
  now <- _now ;;
  let freq := JS.or_else (freq opts) 880 in
  connected_gain ;;
  let attack := 0.002 in
  let decay := 1.4 in
  let stopTime := now + decay + 0.1 in
  start (mkVoice
    [(Sine, freq, 1); (Triangle, freq * 1.997, 1); (Sine, freq * 0.501, 1)]
    None Direct
    [SetValueAtTime 0.0001 now; LinearRampToValueAtTime 0.9 (now + attack);
     ExponentialRampToValueAtTime 0.0002 (now + decay)]
    now stopTime MasterBus).

Definition playGhost (opts : option Opts) : M unit :=
  let opts := opts_or_empty opts in
  _init ;;
  now <- _now ;;
  let base := JS.or_else (freq opts) 160 in
  connected_gain ;;
  let attack := 0.12 in
  let release := 1.8 in
  start (mkVoice
    [(Sine, base * 1.0, 1); (Sine, base * 1.001, 1)]
    (Some (0.6, 6)) (Bandpass 420 0.7)
    [SetValueAtTime 0.0001 now; LinearRampToValueAtTime 0.35 (now + attack);
     ExponentialRampToValueAtTime 0.0003 (now + attack + release)]
    now (now + attack + release + 0.1) MasterBus).

Definition playTick (opts : option Opts) : M unit :=
  _init ;;
  now <- _now ;;
  connected_gain ;;
  _noiseBufferCreate ;;
  let attack := 0.001 in
  let decay := 0.06 in
  start (mkVoice
    [(Noise, 0, 1)] None (Highpass 1200)
    [SetValueAtTime 0.0001 now; LinearRampToValueAtTime 0.9 (now + attack);
     ExponentialRampToValueAtTime 0.0001 (now + attack + decay)]
    now (now + attack + decay + 0.02) MasterBus).

(** [setTimeout(() => window.AudioFX.playBell(), ms)] *)
Definition setTimeout (ms : Q) : M unit :=
  modify (fun s => set_timeouts (timeouts s ++ [ms]) s).

(** [try { ... } catch (e) {}] *)
Definition try_catch (m : M unit) : M unit :=
  fun s =>
    match m s with
    | (Throw, s') => (Normal tt, s')
    | r => r
    end.

Definition AudioFXPreview : M unit :=
  try_catch (playTick None ;; setTimeout 120).

(** The oldest timer fires: it runs [playBell()], outside any [try]. *)
Definition timeout : M unit :=
  ts <- gets timeouts ;;
  match ts with
  | [] => ret tt
  | _ :: rest => modify (set_timeouts rest) ;; playBell None
  end.

(** The audio clock moves to [t]. *)
Definition clock_at (t : Q) : M unit :=
  modify (fun s =>
    match ctx s with
    | Some c => set_ctx (Some (mkCtx t (state c) (graph c))) s
    | None => s
    end).

(** What can happen to the object: a call from the page, or a move of the
    host. *)
Inductive Step : Type :=
| PlayBell (opts : option Opts)
| PlayGhost (opts : option Opts)
| PlayTick (opts : option Opts)
| SetVolume (v : Q)
| Preview
| Timeout
| Clock (t : Q).

Definition step (a : Step) : M unit :=
  match a with
  | PlayBell opts => playBell opts
  | PlayGhost opts => playGhost opts
  | PlayTick opts => playTick opts
  | SetVolume v => setVolume v
  | Preview => AudioFXPreview
  | Timeout => timeout
  | Clock t => clock_at t
  end.

(** The states the object goes through on a host whose constructor is
    [w]. *)
Inductive reachable (w : option (Q * CtxState)) : AudioFX -> Prop :=
| reach_new : reachable w (constructor w)
| reach_step (s : AudioFX) (a : Step) :
    reachable w s -> reachable w (exec (step a) s).

(** The sub-graphs scheduled so far. *)
Definition voices (s : AudioFX) : list Voice :=
  match ctx s with Some c => graph c | None => [] end.

(** The context and the master gain come together, from the host's
    constructor. *)
Definition paired (w : option (Q * CtxState)) (s : AudioFX) : Prop :=
  window_AudioContext s = w /\
  (ctx s = None <-> master s = None) /\
  (w = None -> ctx s = None /\ timeouts s = []).

End Legacy.

(** * The shift-balance simulation ([simulate_balance.js])

    The script estimates how many time units a shift consumes.  Units,
    costs and counters are integers ([Z]); weights and random draws are
    binary64 numbers ([float]), with the arithmetic and the comparisons
    of the code.  [Math.random] reads a stream of draws, threaded through
    the functions that call it; nothing is assumed of the values drawn.
    The [while (true)] loop of [simulateOneShift] takes fuel. *)

Module Balance.

(** The keys of [ACTION_BASE_UNITS], in insertion order. *)
Inductive Action : Type :=
  carry | checkin | stopby | task | ghost | request.

Definition Action_eqb (a b : Action) : bool :=
  match a, b with
  | carry, carry | checkin, checkin | stopby, stopby
  | task, task | ghost, ghost | request, request => true
  | _, _ => false
  end.

Definition TIME_UNIT_MIN : Z := 30.

(** [60 / 30] is exact. *)
Definition UNITS_PER_HOUR : Z := 60 / TIME_UNIT_MIN.
Definition SHIFT_HOURS : Z := 8.
Definition SHIFT_UNITS : Z := SHIFT_HOURS * UNITS_PER_HOUR.

(** [Math.round] is applied to integers, which it leaves alone. *)
Definition ACTION_BASE_UNITS (a : Action) : Z :=
  match a with
  | carry => 1 * UNITS_PER_HOUR
  | checkin => 2 * UNITS_PER_HOUR
  | stopby => 2 * UNITS_PER_HOUR
  | task => 2 * UNITS_PER_HOUR
  | ghost => 2 * UNITS_PER_HOUR
  | request => 3 * UNITS_PER_HOUR
  end%Z.

Definition OVERHEAD_MAX_UNITS : Z := 1.
Definition OVERHEAD_PROB : float := 0.5.

Definition ACTIONS : list Action :=
  [carry; checkin; stopby; task; ghost; request].

Definition WEIGHTS (a : Action) : float :=
  match a with
  | carry => 0.12
  | checkin => 0.18
  | stopby => 0.18
  | task => 0.22
  | ghost => 0.15
  | request => 0.15
  end%float.

(** The draws [Math.random] will return, the next one first. *)
Definition Random : Type := nat -> float.

Definition Math_random (g : Random) : float * Random :=
  (g 0%nat, fun n => g (S n)).

Definition randOverhead (g : Random) : Z * Random :=
  let (x, g) := Math_random g in
  (if (x <? OVERHEAD_PROB)%float then OVERHEAD_MAX_UNITS else 0%Z, g).

(** The [for (const k of choices)] loop of [weightedChoice]; [None] when
    the loop ends without returning. *)
Fixpoint weightedChoice_scan (weights : Action -> float) (r : float)
    (choices : list Action) : option Action :=
  match choices with
  | [] => None
  | k :: rest =>
      let r := (r - weights k)%float in
      if (r <=? 0)%float then Some k
      else weightedChoice_scan weights r rest
  end.

(** [None] is [undefined], the last element of an empty array. *)
Definition weightedChoice (choices : list Action)
    (weights : Action -> float) (g : Random) : option Action * Random :=
  let total := fold_left (fun s k => (s + weights k)%float) choices 0%float in
  let (x, g) := Math_random g in
  let r := (x * total)%float in
  (match weightedChoice_scan weights r choices with
   | Some k => Some k
   | None => JS.index choices (JS.length choices - 1)
   end, g).

(** The record [simulateOneShift] returns; its fields are the local
    variables of the function. *)
Record Shift : Type := mkShift {
  unitsLeft : Z;
  counts : Action -> Z;
  actionsTaken : Z
}.

(** [counts[pick]++] *)
Definition increment (c : Action -> Z) (pick : Action) : Action -> Z :=
  fun a => if Action_eqb a pick then (c a + 1)%Z else c a.

(** How one round of the [while (true)] loop ends. *)
Inductive Round : Type :=
| Break
| Continue (g : Random)
| Next (st : Shift) (g : Random)
| NotANumber.

(** One round.  Were [pick] [undefined], its cost would be [NaN] and
    [unitsLeft] with it: [NotANumber]. *)
Definition round (st : Shift) (g : Random) : Round :=
  let affordable :=
    filter (fun a =>
              (unitsLeft st >=? ACTION_BASE_UNITS a + OVERHEAD_MAX_UNITS)%Z)
           ACTIONS in
  if (JS.length affordable =? 0)%Z then Break
  else
    let (pick, g) := weightedChoice affordable WEIGHTS g in
    let (overhead, g) := randOverhead g in
    match pick with
    | None => NotANumber
    | Some pick =>
        let cost := (ACTION_BASE_UNITS pick + overhead)%Z in
        if (cost >? unitsLeft st)%Z then Continue g
        else Next (mkShift (unitsLeft st - cost)
                           (increment (counts st) pick)
                           (actionsTaken st + 1)) g
    end.

Inductive Outcome (A : Type) : Type :=
| Returned (r : A) (g : Random)
| Poisoned
| Diverged.
Arguments Returned {A} r g.
Arguments Poisoned {A}.
Arguments Diverged {A}.

Fixpoint rounds (fuel : nat) (st : Shift) (g : Random) : Outcome Shift :=
  match fuel with
  | O => Diverged
  | S fuel =>
      match round st g with
      | Break => Returned st g
      | Continue g => rounds fuel st g
      | Next st g => rounds fuel st g
      | NotANumber => Poisoned
      end
  end.

Definition simulateOneShift (fuel : nat) (g : Random) : Outcome Shift :=
  rounds fuel (mkShift SHIFT_UNITS (fun _ => 0%Z) 0) g.

(** The accumulators of [runSim] when its loop ends. *)
Record Totals : Type := mkTotals {
  totalUnitsConsumed : Z;
  totalActions : Z;
  aggCounts : Action -> Z;
  zeroLeft : Z
}.

(** [for (const a of ACTIONS) aggCounts[a] += res.counts[a]] *)
Definition accumulate (agg c : Action -> Z) : Action -> Z :=
  fold_left (fun agg a =>
               fun b => if Action_eqb b a then (agg b + c a)%Z else agg b)
            ACTIONS agg.

(** The [for] loop of [runSim], with [todo] rounds left to run. *)
Fixpoint runSim_loop (fuel : nat) (todo : nat) (t : Totals) (g : Random)
    : Outcome Totals :=
  match todo with
  | O => Returned t g
  | S todo =>
      match simulateOneShift fuel g with
      | Returned res g =>
          let consumed := (SHIFT_UNITS - unitsLeft res)%Z in
          runSim_loop fuel todo
            (mkTotals (totalUnitsConsumed t + consumed)
                      (totalActions t + actionsTaken res)
                      (accumulate (aggCounts t) (counts res))
                      (if (unitsLeft res =? 0)%Z then (zeroLeft t + 1)%Z
                       else zeroLeft t)) g
      | Poisoned => Poisoned
      | Diverged => Diverged
      end
  end.

(** [runSim(n)] up to its first [console.log]: [i < n] holds for
    [Z.to_nat n] values of [i]. *)
Definition runSim (fuel : nat) (n : Z) (g : Random) : Outcome Totals :=
  runSim_loop fuel (Z.to_nat n) (mkTotals 0 0 (fun _ => 0%Z) 0) g.

(** The sum of a table over the actions. *)
Definition over_actions (f : Action -> Z) : Z :=
  fold_right (fun a s => (f a + s)%Z) 0%Z ACTIONS.

(** The stream [g] after [k] draws. *)
Definition after (k : nat) (g : Random) : Random := fun n => g (k + n)%nat.

(** The bookkeeping a shift keeps from round to round. *)
Definition balanced (st : Shift) : Prop :=
  (0 <= unitsLeft st)%Z /\
  (forall a, 0 <= counts st a)%Z /\
  actionsTaken st = over_actions (counts st) /\
  (over_actions (fun a => counts st a * ACTION_BASE_UNITS a)
   <= SHIFT_UNITS - unitsLeft st
   <= over_actions (fun a => counts st a * ACTION_BASE_UNITS a)
      + actionsTaken st)%Z /\
  (2 * actionsTaken st <= SHIFT_UNITS - unitsLeft st)%Z /\
  (SHIFT_UNITS - unitsLeft st <= 7 * actionsTaken st)%Z /\
  (actionsTaken st <= 7)%Z.

End Balance.

(** * Properties *)

(** ** JavaScript arithmetic *)

Lemma lt_true (x y : Q) : JS.lt x y = true <-> x < y.
Proof.
  unfold JS.lt. rewrite negb_true_iff, <- not_true_iff_false, Qle_bool_iff.
  split; [apply Qnot_le_lt | apply Qlt_not_le].
Qed.

Lemma lt_false (x y : Q) : JS.lt x y = false <-> y <= x.
Proof.
  unfold JS.lt. rewrite negb_false_iff. apply Qle_bool_iff.
Qed.

Lemma rem_period (n k m : Z) :
  (0 <= n)%Z -> (0 <= k)%Z -> (0 < m)%Z -> JS.rem (n + k * m) m = JS.rem n m.
Proof.
  intros Hn Hk Hm. unfold JS.rem.
  rewrite !Z.rem_mod_nonneg by nia.
  apply Z_mod_plus_full.
Qed.

Lemma rem_range (n m : Z) :
  (0 <= n)%Z -> (0 < m)%Z -> (0 <= JS.rem n m < m)%Z.
Proof.
  intros Hn Hm. unfold JS.rem. rewrite Z.rem_mod_nonneg by lia.
  apply Z.mod_pos_bound; lia.
Qed.

Lemma index_In {A : Type} (l : list A) (i : Z) (x : A) :
  JS.index l i = Some x -> In x l.
Proof.
  unfold JS.index. destruct (i <? 0)%Z; [discriminate|].
  apply nth_error_In.
Qed.

Lemma index_in_range {A : Type} (l : list A) (i : Z) :
  (0 <= i < JS.length l)%Z -> exists x, JS.index l i = Some x.
Proof.
  unfold JS.index, JS.length. intros H.
  destruct (Z.ltb_spec i 0); [lia|].
  destruct (nth_error l (Z.to_nat i)) eqn:E; [eauto|].
  apply nth_error_None in E. lia.
Qed.

(** Below [2^31] the chord index is the block counter halved, modulo the
    length of the plan. *)
Lemma chord_index_small (n : Z) :
  (0 <= n < 2 ^ 31)%Z -> chord_index n = ((n / 2) mod 4)%Z.
Proof.
  intros H. unfold chord_index, JS.sar, JS.ToInt32, JS.rem.
  replace ((n + 2 ^ 31) mod 2 ^ 32 - 2 ^ 31)%Z with n
    by (rewrite Z.mod_small; lia).
  change (1 mod 32)%Z with 1%Z. rewrite Z.shiftr_div_pow2 by lia.
  change (2 ^ 1)%Z with 2%Z. change (JS.length _CHORDS) with 4%Z.
  apply Z.rem_mod_nonneg; [apply Z.div_pos; lia | lia].
Qed.

(** ** Footprint of the note builders *)

Lemma audio_only_refl (s : AudioFX) : audio_only s s.
Proof. constructor; reflexivity. Qed.

Lemma audio_only_trans (s1 s2 s3 : AudioFX) :
  audio_only s1 s2 -> audio_only s2 s3 -> audio_only s1 s3.
Proof. intros [] []; constructor; congruence. Qed.

Section Builds.

Context (P : Voice -> Prop).

Lemma builds_ret {A : Type} (a : A) : builds P (ret a).
Proof.
  intros s; cbn. split; [discriminate|]. split; [apply audio_only_refl|].
  exists []. rewrite app_nil_r. auto.
Qed.

Lemma builds_throw {A : Type} : builds P (@throw A).
Proof.
  intros s; cbn. split; [discriminate|]. split; [apply audio_only_refl|].
  exists []. rewrite app_nil_r. auto.
Qed.

Lemma builds_gets {A : Type} (f : AudioFX -> A) : builds P (gets f).
Proof.
  intros s; cbn. split; [discriminate|]. split; [apply audio_only_refl|].
  exists []. rewrite app_nil_r. auto.
Qed.

Lemma builds_bind {A B : Type} (m : M A) (k : A -> M B) :
  builds P m -> (forall a, builds P (k a)) -> builds P (bind m k).
Proof.
  intros Hm Hk s. specialize (Hm s).
  unfold completion, exec, bind in *.
  destruct (m s) as [[a | | ] s1]; cbn in *.
  - destruct Hm as (_ & Ha & l1 & Hv & Hl).
    destruct (Hk a s1) as (Hf & Ha' & l2 & Hv' & Hl').
    unfold completion, exec in Hf, Ha', Hv'.
    split; [exact Hf|]. split; [eapply audio_only_trans; eauto|].
    exists (l1 ++ l2). rewrite Hv', Hv, app_assoc. split; [reflexivity|].
    apply Forall_app; auto.
  - split; [discriminate | apply Hm].
  - exfalso. apply (proj1 Hm). reflexivity.
Qed.

Lemma builds_attach (v : Voice) : P v -> builds P (attach v).
Proof.
  intros Hv s. unfold completion, exec, attach, voices.
  destruct (ctx s) as [c|] eqn:Ec; cbn.
  - destruct (bus_node (v_dest v) s); cbn.
    + split; [discriminate|]. split; [constructor; reflexivity|].
      exists [v]. auto.
    + rewrite Ec. split; [discriminate|]. split; [apply audio_only_refl|].
      exists []. rewrite app_nil_r. auto.
  - rewrite Ec. split; [discriminate|]. split; [apply audio_only_refl|].
    exists []. auto.
Qed.

Lemma builds_getCtx : builds P getCtx.
Proof.
  intros s. unfold completion, exec, getCtx, voices.
  destruct (ctx s) as [c|] eqn:Ec; cbn.
  - rewrite Ec. split; [discriminate|]. split; [apply audio_only_refl|].
    exists []. rewrite app_nil_r. auto.
  - destruct (window_AudioContext s) as [[t st]|]; cbn.
    + split; [discriminate|]. split; [constructor; reflexivity|].
      exists []. auto.
    + rewrite Ec. split; [discriminate|]. split; [apply audio_only_refl|].
      exists []. auto.
Qed.

Lemma builds_set_musicBus (g : option GainNode) :
  builds P (modify (set_musicBus g)).
Proof.
  intros s; cbn. split; [discriminate|]. split; [constructor; reflexivity|].
  exists []. unfold voices; cbn. rewrite app_nil_r. auto.
Qed.

Lemma builds_for_each {A : Type} (l : list A) (body : A -> M unit) :
  (forall x, In x l -> builds P (body x)) -> builds P (for_each l body).
Proof.
  induction l as [|x l IH]; intros H; cbn.
  - apply builds_ret.
  - apply builds_bind; [apply H; left; reflexivity|].
    intros _. apply IH. intros y Hy. apply H. right. exact Hy.
Qed.

Lemma builds_musicBusEnsure : builds P _musicBusEnsure.
Proof.
  unfold _musicBusEnsure.
  apply builds_bind; [apply builds_gets|]. intros [g|]; [apply builds_ret|].
  apply builds_bind; [apply builds_getCtx|]. intros _.
  apply builds_bind; [apply builds_gets|].
  intros [c|]; [apply builds_set_musicBus | apply builds_throw].
Qed.

End Builds.

(** ** The notes of a block *)

(** The constants of the engine, evaluated so that linear arithmetic sees
    plain fractions. *)
Ltac constants :=
  unfold _AHEAD, _BEAT, _BAR, inject_Z in *;
  repeat match goal with
         | |- context [Qdiv ?a ?b] =>
             let v := eval vm_compute in (Qdiv a b) in
             change (Qdiv a b) with v
         | H : context [Qdiv ?a ?b] |- _ =>
             let v := eval vm_compute in (Qdiv a b) in
             change (Qdiv a b) with v in H
         end.

Ltac solve_in_block :=
  unfold in_block, overhang; cbn [v_start v_dest v_stop]; constants;
  repeat split; try lra.

Ltac builds_step :=
  first
    [ apply builds_ret | apply builds_throw | apply builds_gets
    | apply builds_getCtx | apply builds_musicBusEnsure
    | apply builds_bind; [|intros ?] ].

Lemma builds_arp (fromT barStart : Q) (beat : Z) (chord : list Q) :
  In chord _CHORDS ->
  fromT <= barStart + inject_Z beat * _BEAT ->
  barStart + inject_Z beat * _BEAT + _BEAT <= fromT + _BAR * 2 ->
  builds (in_block fromT) (_arp chord barStart beat MusicBus).
Proof.
  intros Hc Hlo Hhi.
  remember (barStart + inject_Z beat * _BEAT) as t0 eqn:Et0.
  assert (Hnote : forall i, i = 0%Z \/ i = 1%Z \/ i = 2%Z ->
            forall f, builds (in_block fromT)
              (_note f (t0 + inject_Z i * 0.055) (_BEAT * 1.6) 0.28 MusicBus)).
  { intros i Hi f. unfold _note. apply builds_attach.
    destruct Hi as [-> | [-> | ->]]; solve_in_block. }
  cbn in Hc.
  destruct Hc as [<- | [<- | [<- | [<- | []]]]];
    unfold _arp; cbn [_arp_from Z.add Pos.add]; rewrite <- Et0;
    repeat builds_step; apply Hnote; auto.
Qed.

Lemma builds_phrase (fromT : Q) (idx : Z) :
  builds (in_block fromT) (_phrase fromT idx MusicBus).
Proof.
  unfold _phrase.
  destruct (JS.index shapes (JS.rem idx (JS.length shapes))) as [shape|] eqn:E;
    [|apply builds_throw].
  apply builds_for_each. intros i Hi.
  unfold _phrase_step.
  destruct ((i =? 3) || (i =? 7))%Z; [apply builds_ret|].
  match goal with |- builds _ (match ?f with _ => _ end) => destruct f end;
    [|apply builds_throw].
  unfold _melNote. apply builds_attach.
  cbn in Hi.
  destruct Hi as [<- | [<- | [<- | [<- | [<- | [<- | [<- | [<- | []]]]]]]]];
    solve_in_block.
Qed.

Lemma builds_scheduleBars_notes (fromT : Q) :
  builds (in_block fromT) (_scheduleBars_notes fromT).
Proof.
  unfold _scheduleBars_notes.
  apply builds_bind; [apply builds_gets|]. intros n.
  destruct (JS.index _CHORDS (chord_index n)) as [chord|] eqn:Ec;
    [|apply builds_throw].
  apply index_In in Ec.
  destruct (JS.index chord 0) as [root|]; [|apply builds_throw].
  assert (Hbass : forall t, fromT <= t -> t <= fromT + _BAR ->
            builds (in_block fromT) (_bassNote root t MusicBus)).
  { intros t H1 H2. unfold _bassNote. apply builds_attach. solve_in_block. }
  repeat (apply builds_bind; [|intros ?]);
    try apply builds_gets; try apply builds_phrase;
    try (apply Hbass; unfold _BAR; lra);
    apply builds_arp; auto; constants; lra.
Qed.

(** ** One block *)

(** What [_scheduleBars] does while the music plays: the notes of the block
    are built, then the counter and the watermark advance together; an
    exception raised while building leaves both untouched. *)
Lemma scheduleBars_step (fromT : Q) (s : AudioFX) :
  _musicPlaying s = true ->
  exists s1 l,
    audio_only s s1 /\ voices s1 = voices s ++ l /\ Forall (in_block fromT) l /\
    (_scheduleBars fromT s = (Throw, s1) \/
     _scheduleBars fromT s =
       (Normal tt,
        set_musicScheduled (fromT + two_bars)
          (set_phraseCount (_phraseCount s + 1)%Z s1))).
Proof.
  intros Hp.
  destruct (builds_musicBusEnsure (in_block fromT) s) as (He1 & He2 & le & He3 & He4).
  unfold completion, exec in He1, He2, He3.
  unfold _scheduleBars, bind, gets. rewrite Hp. cbn [negb].
  destruct (_musicBusEnsure s) as [[[] | | ] se]; cbn [fst snd] in *.
  - destruct (builds_scheduleBars_notes fromT se) as (Hn1 & Hn2 & ln & Hn3 & Hn4).
    unfold completion, exec in Hn1, Hn2, Hn3.
    destruct (_scheduleBars_notes fromT se) as [[[] | | ] s1]; cbn [fst snd] in *.
    + exists s1, (le ++ ln). split; [eapply audio_only_trans; eauto|].
      split; [rewrite Hn3, He3, app_assoc; reflexivity|].
      split; [apply Forall_app; auto|].
      right. unfold modify. cbn.
      replace (_phraseCount s1) with (_phraseCount s); [reflexivity|].
      rewrite (ao_count _ _ Hn2), (ao_count _ _ He2). reflexivity.
    + exists s1, (le ++ ln). split; [eapply audio_only_trans; eauto|].
      split; [rewrite Hn3, He3, app_assoc; reflexivity|].
      split; [apply Forall_app; auto|]. left. reflexivity.
    + exfalso. apply Hn1. reflexivity.
  - exists se, le. auto.
  - exfalso. apply He1. reflexivity.
Qed.

(** ** The scheduling loop *)

Lemma progress_audio_only (s s1 : AudioFX) (l : list Voice) :
  audio_only s s1 -> voices s1 = voices s ++ l ->
  Forall (in_block (_musicScheduled s)) l -> progress 0 s s1.
Proof.
  intros Ha Hv Hl. constructor; try apply Ha.
  - rewrite (ao_scheduled _ _ Ha).
    change (inject_Z (Z.of_nat 0)) with 0. ring.
  - rewrite (ao_count _ _ Ha). lia.
  - exists l. split; [exact Hv|].
    eapply Forall_impl; [|exact Hl]. intros v (H1 & _ & H2 & _). auto.
Qed.

Lemma progress_block (s s1 : AudioFX) (l : list Voice) :
  audio_only s s1 -> voices s1 = voices s ++ l ->
  Forall (in_block (_musicScheduled s)) l ->
  progress 1 s
    (set_musicScheduled (_musicScheduled s + two_bars)
       (set_phraseCount (_phraseCount s + 1)%Z s1)).
Proof.
  intros Ha Hv Hl. constructor; cbn -[Qplus Qmult two_bars]; try apply Ha.
  - change (inject_Z 1) with 1. ring.
  - reflexivity.
  - exists l. split; [exact Hv|].
    eapply Forall_impl; [|exact Hl]. intros v (H1 & _ & H2 & _). auto.
Qed.

Lemma progress_trans (j k : nat) (s1 s2 s3 : AudioFX) :
  progress j s1 s2 -> progress k s2 s3 -> progress (j + k) s1 s3.
Proof.
  intros H12 H23. constructor.
  - rewrite (pg_scheduled _ _ _ H23), (pg_scheduled _ _ _ H12).
    rewrite Nat2Z.inj_add, inject_Z_plus. ring.
  - rewrite (pg_count _ _ _ H23), (pg_count _ _ _ H12). lia.
  - rewrite (pg_playing _ _ _ H23). apply H12.
  - rewrite (pg_timer _ _ _ H23). apply H12.
  - rewrite (pg_timers _ _ _ H23). apply H12.
  - rewrite (pg_next _ _ _ H23). apply H12.
  - rewrite (pg_reactions _ _ _ H23). apply H12.
  - destruct (pg_voices _ _ _ H12) as (l1 & Hv1 & Hl1).
    destruct (pg_voices _ _ _ H23) as (l2 & Hv2 & Hl2).
    exists (l1 ++ l2). split; [rewrite Hv2, Hv1, app_assoc; reflexivity|].
    apply Forall_app. split; [exact Hl1|].
    eapply Forall_impl; [|exact Hl2]. intros v [H1 H2]. split; [|exact H2].
    pose proof (pg_scheduled _ _ _ H12) as Hs.
    assert (0 <= inject_Z (Z.of_nat j) * two_bars).
    { apply Qmult_le_0_compat; [|unfold two_bars, _BAR; lra].
      change 0 with (inject_Z 0). rewrite <- Zle_Qle. lia. }
    lra.
Qed.

(** The loop of [_musicTick], for any fuel: it stops after at most [fuel]
    blocks; on a normal exit the watermark has reached [ahead], and the fuel
    only runs out with the watermark still short of it. *)
Lemma while_behind_spec (fuel : nat) (ahead : Q) :
  forall s, _musicPlaying s = true ->
  exists k,
    (k <= fuel)%nat /\ progress k s (exec (while_behind fuel ahead) s) /\
    match completion (while_behind fuel ahead) s with
    | Normal _ => ahead <= _musicScheduled (exec (while_behind fuel ahead) s)
    | Throw => True
    | OutOfFuel =>
        k = fuel /\ _musicScheduled (exec (while_behind fuel ahead) s) < ahead
    end.
Proof.
  induction fuel as [|fuel IH]; intros s Hp; unfold completion, exec; cbn.
  - destruct (JS.lt (_musicScheduled s) ahead) eqn:E; cbn.
    + exists 0%nat. split; [lia|].
      split; [apply (progress_audio_only s s []); auto using audio_only_refl, app_nil_r|].
      split; [reflexivity | apply lt_true; exact E].
    + exists 0%nat. split; [lia|].
      split; [apply (progress_audio_only s s []); auto using audio_only_refl, app_nil_r|].
      apply lt_false; exact E.
  - destruct (JS.lt (_musicScheduled s) ahead) eqn:E; cbn.
    + destruct (scheduleBars_step (_musicScheduled s) s Hp)
        as (s1 & l & Ha & Hv & Hl & [Hr | Hr]);
        unfold bind; rewrite Hr.
      * exists 0%nat. split; [lia|]. cbn.
        split; [eapply progress_audio_only; eauto | exact I].
      * pose proof (progress_block s s1 l Ha Hv Hl) as H1.
        set (s2 := set_musicScheduled _ _) in *.
        assert (Hp2 : _musicPlaying s2 = true).
        { rewrite (pg_playing _ _ _ H1). exact Hp. }
        destruct (IH s2 Hp2) as (k & Hk & Hpg & Hout).
        exists (1 + k)%nat. split; [lia|].
        unfold completion, exec in Hpg, Hout.
        split; [eapply progress_trans; eauto|].
        destruct (while_behind fuel ahead s2) as [[[] | | ] s3]; cbn in *; auto.
        destruct Hout. split; [lia | assumption].
    + exists 0%nat. split; [lia|].
      split; [apply (progress_audio_only s s []); auto using audio_only_refl, app_nil_r|].
      apply lt_false; exact E.
Qed.

(** ** One tick *)

Lemma two_bars_pos : 0 < two_bars.
Proof. unfold two_bars, _BAR. lra. Qed.

(** The fuel given to the loop covers the distance to [ahead]. *)
Lemma blocks_behind_enough (scheduled ahead : Q) :
  ahead <= scheduled + inject_Z (Z.of_nat (blocks_behind scheduled ahead)) * two_bars.
Proof.
  unfold blocks_behind. fold two_bars.
  set (x := (ahead - scheduled) / two_bars).
  assert (Hx : x <= inject_Z (Z.of_nat (Z.to_nat (Qceiling x)))).
  { eapply Qle_trans; [apply Qle_ceiling|]. rewrite <- Zle_Qle. lia. }
  assert (Hm : x * two_bars == ahead - scheduled).
  { unfold x. field. pose proof two_bars_pos. lra. }
  pose proof two_bars_pos as Hpos.
  assert (x * two_bars <=
          inject_Z (Z.of_nat (Z.to_nat (Qceiling x))) * two_bars).
  { apply Qmult_le_compat_r; [exact Hx | lra]. }
  lra.
Qed.

Lemma getCtx_clock (s : AudioFX) (c : AudioContext) :
  ctx (exec getCtx s) = Some c -> currentTime c = clock s.
Proof.
  unfold exec, getCtx, clock.
  destruct (ctx s) as [c0|] eqn:E; cbn.
  - rewrite E. intros [= ->]. reflexivity.
  - destruct (window_AudioContext s) as [[t st]|]; cbn.
    + intros [= <-]. reflexivity.
    + rewrite E. discriminate.
Qed.

Lemma getCtx_progress (s : AudioFX) : progress 0 s (exec getCtx s).
Proof.
  destruct (builds_getCtx (fun _ => False) s) as (_ & Ha & l & Hv & Hl).
  destruct l as [|v l]; [|inversion Hl; contradiction].
  apply (progress_audio_only s _ []); auto.
Qed.

Lemma getCtx_normal (s : AudioFX) :
  getCtx s = (Normal (ctx (exec getCtx s)), exec getCtx s).
Proof.
  unfold exec, getCtx.
  destruct (ctx s) eqn:E; cbn; [rewrite E; reflexivity|].
  destruct (window_AudioContext s) as [[t st]|]; cbn; [reflexivity|].
  rewrite E; reflexivity.
Qed.

(** A tick while the music plays: some number [k] of blocks is generated;
    either an exception ends the tick there, or the watermark has reached
    the horizon and the timer is armed again.  The loop never runs out of
    fuel. *)
Lemma musicTick_spec (s : AudioFX) :
  _musicPlaying s = true ->
  exists k s1,
    progress k s s1 /\
    (k <= blocks_behind (_musicScheduled s) (clock s + _AHEAD))%nat /\
    (_musicTick s = (Throw, s1) \/
     (clock s + _AHEAD <= _musicScheduled s1 /\
      _musicTick s = (Normal tt, rearmed s1))).
Proof.
  intros Hp.
  pose proof (getCtx_progress s) as Hg.
  pose proof (getCtx_clock s) as Hc.
  remember (_musicTick s) as r eqn:Er.
  unfold _musicTick, bind at 1, gets in Er. rewrite Hp in Er. cbn [negb] in Er.
  unfold bind at 1 in Er. rewrite getCtx_normal in Er.
  set (sg := exec getCtx s) in *.
  unfold bind at 1, ctx_currentTime in Er.
  destruct (ctx sg) as [c|] eqn:Ec.
  - rewrite (Hc c eq_refl) in Er.
    unfold bind at 1, gets in Er.
    replace (_musicScheduled sg) with (_musicScheduled s) in Er
      by (symmetry; apply (builds_getCtx (fun _ => True) s)).
    set (ahead := clock s + _AHEAD) in *.
    set (fuel := blocks_behind (_musicScheduled s) ahead) in *.
    assert (Hpg : _musicPlaying sg = true)
      by (rewrite (pg_playing _ _ _ Hg); exact Hp).
    destruct (while_behind_spec fuel ahead sg Hpg) as (k & Hk & Hw & Hout).
    unfold completion, exec in Hw, Hout. unfold bind at 1 in Er.
    pose proof (progress_trans _ _ _ _ _ Hg Hw) as Hsw. cbn [Nat.add] in Hsw.
    destruct (while_behind fuel ahead sg) as [[[] | | ] sw]; cbn [fst snd] in *.
    + exists k, sw. split; [exact Hsw|]. split; [exact Hk|].
      right. split; [exact Hout|]. exact Er.
    + exists k, sw. split; [exact Hsw|]. split; [exact Hk|]. left. exact Er.
    + exfalso. destruct Hout as [-> Hlt].
      pose proof (blocks_behind_enough (_musicScheduled s) ahead) as He.
      fold fuel in He. pose proof (pg_scheduled _ _ _ Hsw) as Hs.
      lra.
  - exists 0%nat, sg. split; [exact Hg|]. split; [lia|]. left. exact Er.
Qed.

(** ** Normal completion *)

Lemma sounds_ret : sounds (ret tt).
Proof. intros s Hs. exists s. split; [reflexivity | exact Hs]. Qed.

Lemma sounds_bind (m k : M unit) :
  sounds m -> sounds k -> sounds (m ;; k).
Proof.
  intros Hm Hk s Hs. destruct (Hm s Hs) as (s1 & E1 & H1).
  destruct (Hk s1 H1) as (s2 & E2 & H2).
  exists s2. unfold bind. rewrite E1. auto.
Qed.

Lemma sounds_attach (v : Voice) : v_dest v = MusicBus -> sounds (attach v).
Proof.
  intros Hd s (Hc & Hb & Hn). unfold attach. rewrite Hd. cbn [bus_node].
  destruct (ctx s) as [c|]; [|contradiction].
  destruct (_musicBus s) as [g|] eqn:Eg; [|contradiction].
  eexists. split; [reflexivity|].
  repeat split; cbn; try discriminate; try rewrite Eg; try discriminate; lia.
Qed.

Lemma sounds_for_each {A : Type} (l : list A) (body : A -> M unit) :
  (forall x, In x l -> sounds (body x)) -> sounds (for_each l body).
Proof.
  induction l as [|x l IH]; intros H; cbn.
  - apply sounds_ret.
  - apply sounds_bind; [apply H; left; reflexivity|].
    apply IH. intros y Hy. apply H. right. exact Hy.
Qed.

Lemma sounds_note (f t d p : Q) : sounds (_note f t d p MusicBus).
Proof. apply sounds_attach. reflexivity. Qed.

Lemma sounds_bassNote (f t : Q) : sounds (_bassNote f t MusicBus).
Proof. apply sounds_attach. reflexivity. Qed.

Lemma sounds_melNote (f t d p : Q) : sounds (_melNote f t d p MusicBus).
Proof. apply sounds_attach. reflexivity. Qed.

Lemma sounds_arp (chord : list Q) (barStart : Q) (beat : Z) :
  sounds (_arp chord barStart beat MusicBus).
Proof.
  unfold _arp. generalize 0%Z.
  induction chord as [|f chord IH]; intros i; cbn [_arp_from].
  - apply sounds_ret.
  - apply sounds_bind; [apply sounds_note | apply IH].
Qed.

Lemma sounds_phrase (fromT : Q) :
  sounds (idx <- gets _phraseCount ;; _phrase fromT idx MusicBus).
Proof.
  intros s Hs. unfold bind at 1, gets.
  pose proof Hs as (_ & _ & Hn).
  destruct (index_in_range shapes (JS.rem (_phraseCount s) (JS.length shapes)))
    as (shape & E).
  { apply rem_range; [lia | reflexivity]. }
  unfold _phrase. rewrite E. apply index_In in E.
  clear Hn. revert s Hs. apply sounds_for_each. intros i Hi.
  cbn in E, Hi.
  destruct E as [<- | [<- | [<- | [<- | []]]]];
    destruct Hi as [<- | [<- | [<- | [<- | [<- | [<- | [<- | [<- | []]]]]]]]];
    first [apply sounds_ret | apply sounds_melNote].
Qed.

Lemma sounds_scheduleBars_notes (fromT : Q) :
  sounds (_scheduleBars_notes fromT).
Proof.
  intros s Hs. unfold _scheduleBars_notes, bind at 1, gets.
  pose proof Hs as (_ & _ & Hn).
  destruct (index_in_range _CHORDS (chord_index (_phraseCount s)))
    as (chord & E).
  { rewrite chord_index_small by exact Hn.
    change (JS.length _CHORDS) with 4%Z. apply Z.mod_pos_bound. lia. }
  rewrite E. apply index_In in E. clear Hn. revert s Hs.
  assert (Hr : exists root, JS.index chord 0 = Some root).
  { cbn in E. destruct E as [<- | [<- | [<- | [<- | []]]]]; eexists; reflexivity. }
  destruct Hr as (root & ->).
  change (sounds
    (_bassNote root fromT MusicBus ;;
     _arp chord fromT 0 MusicBus ;;
     _arp chord fromT 2 MusicBus ;;
     _bassNote root (fromT + _BAR) MusicBus ;;
     _arp chord (fromT + _BAR) 1 MusicBus ;;
     _arp chord (fromT + _BAR) 3 MusicBus ;;
     idx <- gets _phraseCount ;; _phrase fromT idx MusicBus)).
  repeat (apply sounds_bind;
          [first [apply sounds_bassNote | apply sounds_arp]|]).
  apply sounds_phrase.
Qed.

(** With a context at hand the music bus can always be set up. *)
Lemma musicBusEnsure_normal (s : AudioFX) :
  ctx s <> None ->
  exists se,
    _musicBusEnsure s = (Normal tt, se) /\ audio_only s se /\
    ctx se = ctx s /\ _musicBus se <> None.
Proof.
  intros Hc. unfold _musicBusEnsure, bind at 1, gets.
  destruct (_musicBus s) as [g|] eqn:Eg.
  - exists s. cbn. rewrite Eg.
    repeat split; try reflexivity; discriminate.
  - unfold bind at 1. rewrite getCtx_normal.
    assert (Hg : exec getCtx s = s).
    { unfold exec, getCtx. destruct (ctx s); [reflexivity | contradiction]. }
    rewrite Hg. unfold bind, gets.
    destruct (ctx s) as [c|] eqn:Ec; [|contradiction].
    eexists. split; [reflexivity|]. cbn.
    repeat split; try reflexivity; try assumption; discriminate.
Qed.

(** A block built from a well-formed running state: [_scheduleBars]
    completes normally. *)
Lemma scheduleBars_normal (fromT : Q) (s : AudioFX) :
  _musicPlaying s = true -> ctx s <> None ->
  (0 <= _phraseCount s < 2 ^ 31)%Z ->
  exists s1 l,
    audio_only s s1 /\ voices s1 = voices s ++ l /\
    Forall (in_block fromT) l /\ steady s1 /\
    _scheduleBars fromT s =
      (Normal tt,
       set_musicScheduled (fromT + two_bars)
         (set_phraseCount (_phraseCount s + 1)%Z s1)).
Proof.
  intros Hp Hc Hn.
  destruct (musicBusEnsure_normal s Hc) as (se & Ee & Hae & Hce & Hbe).
  assert (Hse : steady se).
  { repeat split; try assumption; try (rewrite Hce; assumption);
      rewrite (ao_count _ _ Hae); lia. }
  destruct (sounds_scheduleBars_notes fromT se Hse) as (s1 & En & Hs1).
  destruct (builds_scheduleBars_notes fromT se) as (_ & Han & l & Hv & Hl).
  unfold exec in Han, Hv. rewrite En in Han, Hv. cbn [snd] in Han, Hv.
  exists s1, l. split; [eapply audio_only_trans; eauto|].
  split; [rewrite Hv; unfold voices; rewrite Hce; reflexivity|].
  split; [exact Hl|]. split; [exact Hs1|].
  unfold _scheduleBars, bind at 1, gets. rewrite Hp. cbn [negb].
  unfold bind at 1. rewrite Ee. unfold bind at 1. rewrite En.
  unfold bind, modify.
  rewrite (ao_count _ _ Han), (ao_count _ _ Hae). reflexivity.
Qed.

(** ** The first tick of a start *)

(** A watermark less than one block short of the horizon asks for exactly
    one block. *)
Lemma blocks_behind_one (scheduled t : Q) :
  t <= scheduled -> scheduled < t + _AHEAD ->
  blocks_behind scheduled (t + _AHEAD) = 1%nat.
Proof.
  intros Hlo Hhi. unfold blocks_behind. fold two_bars.
  set (x := (t + _AHEAD - scheduled) / two_bars).
  pose proof two_bars_pos as Hpos.
  assert (Hm : x * two_bars == t + _AHEAD - scheduled).
  { unfold x. field. lra. }
  clearbody x.
  assert (Hx : 0 < x /\ x <= 1).
  { change _AHEAD with two_bars in *. split.
    - apply Qnot_le_lt. intros Hle.
      assert (x * two_bars <= 0 * two_bars)
        by (apply Qmult_le_compat_r; [exact Hle | lra]).
      lra.
    - apply Qnot_lt_le. intros Hlt.
      assert (1 * two_bars < x * two_bars)
        by (apply Qmult_lt_compat_r; [lra | exact Hlt]).
      lra. }
  pose proof (Qle_ceiling x) as H1. pose proof (Qceiling_lt x) as H2.
  assert (Hc : Qceiling x = 1%Z).
  { assert (0 < Qceiling x)%Z.
    { rewrite Zlt_Qlt. change (inject_Z 0) with 0. lra. }
    assert (Qceiling x - 1 < 1)%Z.
    { rewrite Zlt_Qlt. change (inject_Z 1) with 1. lra. }
    lia. }
  rewrite Hc. reflexivity.
Qed.

(** A tick that finds the watermark at or after the clock and short of the
    horizon generates exactly one block and arms the timer again. *)
Lemma musicTick_one_block (s : AudioFX) :
  _musicPlaying s = true -> ctx s <> None ->
  (0 <= _phraseCount s < 2 ^ 31)%Z ->
  clock s <= _musicScheduled s -> _musicScheduled s < clock s + _AHEAD ->
  exists s1 l,
    audio_only s s1 /\ voices s1 = voices s ++ l /\
    Forall (in_block (_musicScheduled s)) l /\ steady s1 /\
    _musicTick s =
      (Normal tt,
       rearmed (set_musicScheduled (_musicScheduled s + two_bars)
                  (set_phraseCount (_phraseCount s + 1)%Z s1))).
Proof.
  intros Hp Hc Hn Hlo Hhi.
  destruct (scheduleBars_normal (_musicScheduled s) s Hp Hc Hn)
    as (s1 & l & Ha & Hv & Hl & Hs1 & Eb).
  exists s1, l. repeat (split; [assumption|]).
  unfold _musicTick, bind at 1, gets. rewrite Hp. cbn [negb].
  unfold bind at 1. rewrite getCtx_normal.
  assert (Hg : exec getCtx s = s).
  { unfold exec, getCtx. destruct (ctx s); [reflexivity | contradiction]. }
  rewrite Hg. unfold bind at 1, ctx_currentTime.
  assert (Hclk : clock s = match ctx s with Some c => currentTime c | None => 0 end).
  { unfold clock. destruct (ctx s); [reflexivity | contradiction]. }
  destruct (ctx s) as [c|] eqn:Ec; [|contradiction].
  rewrite <- Hclk. unfold bind at 1, gets.
  rewrite (blocks_behind_one _ _ Hlo Hhi).
  unfold bind at 1. cbn [while_behind].
  assert (E1 : JS.lt (_musicScheduled s) (clock s + _AHEAD) = true)
    by (apply lt_true; exact Hhi).
  rewrite E1. unfold bind at 1. rewrite Eb.
  assert (E2 : JS.lt (_musicScheduled s + two_bars) (clock s + _AHEAD) = false).
  { apply lt_false. change _AHEAD with two_bars. lra. }
  cbn [_musicScheduled set_musicScheduled]. rewrite E2.
  reflexivity.
Qed.

(** The assignments of the callback of [musicStart], with a context at
    hand: the bus exists, the flag is set, the watermark is a tenth of a
    second after the clock and the counter is zero. *)
Lemma musicStart_init_spec (s : AudioFX) :
  ctx s <> None ->
  exists se,
    audio_only s se /\ ctx se = ctx s /\ _musicBus se <> None /\
    musicStart_init s =
      (Normal tt,
       set_phraseCount 0
         (set_musicScheduled (clock s + 0.1) (set_musicPlaying true se))).
Proof.
  intros Hc.
  destruct (musicBusEnsure_normal s Hc) as (se & Ee & Hae & Hce & Hbe).
  exists se. repeat (split; [assumption|]).
  unfold musicStart_init, bind at 1. rewrite Ee.
  unfold bind, modify, ctx_currentTime, clock. cbn [ctx set_musicPlaying].
  rewrite Hce. destruct (ctx s); [reflexivity | contradiction].
Qed.

(** The whole callback of [musicStart]: after the assignments the first
    tick generates one block, the one of counter [0], starting a tenth of a
    second after the clock. *)
Lemma musicStart_then_spec (s : AudioFX) :
  ctx s <> None ->
  exists s1 l,
    voices s1 = voices s ++ l /\
    Forall (in_block (clock s + 0.1)) l /\
    _musicPlaying s1 = true /\
    musicStart_then s =
      (Normal tt,
       rearmed (set_musicScheduled (clock s + 0.1 + two_bars)
                  (set_phraseCount 1 s1))).
Proof.
  intros Hc.
  destruct (musicStart_init_spec s Hc) as (se & Hae & Hce & Hbe & Ei).
  set (si := set_phraseCount 0 _) in Ei.
  assert (Hclk : clock si = clock s).
  { unfold clock, si. cbn. rewrite Hce, (ao_window _ _ Hae). reflexivity. }
  destruct (musicTick_one_block si) as (s1 & l & Ha & Hv & Hl & Hs1 & Et).
  - reflexivity.
  - unfold si. cbn. rewrite Hce. exact Hc.
  - unfold si. cbn. lia.
  - rewrite Hclk. unfold si. cbn -[Qplus Qle]. lra.
  - rewrite Hclk. unfold si. cbn -[Qplus Qlt _AHEAD]. unfold _AHEAD, _BAR. lra.
  - exists s1, l. split.
    { rewrite Hv. unfold voices, si. cbn. rewrite Hce. reflexivity. }
    split; [exact Hl|].
    split; [rewrite (ao_playing _ _ Ha); reflexivity|].
    unfold musicStart_then, bind. rewrite Ei, Et. reflexivity.
Qed.

(** ** Well-formedness is invariant *)

Lemma keeps_ret {A : Type} (a : A) : keeps (ret a).
Proof. intros s H. exact H. Qed.

Lemma keeps_throw {A : Type} : keeps (@throw A).
Proof. intros s H. exact H. Qed.

Lemma keeps_gets {A : Type} (f : AudioFX -> A) : keeps (gets f).
Proof. intros s H. exact H. Qed.

Lemma keeps_bind {A B : Type} (m : M A) (k : A -> M B) :
  keeps m -> (forall a, keeps (k a)) -> keeps (bind m k).
Proof.
  intros Hm Hk s H. specialize (Hm s H). unfold exec, bind in *.
  destruct (m s) as [[a | | ] s1]; cbn in *; [apply (Hk a s1 Hm) | exact Hm | exact Hm].
Qed.

Lemma keeps_swallow (m : M unit) : keeps m -> keeps (swallow m).
Proof.
  intros Hm s H. specialize (Hm s H). unfold exec, swallow in *.
  destruct (m s) as [[a | | ] s1]; exact Hm.
Qed.

(** A write that leaves the nodes, the flag and the counter alone. *)
Lemma keeps_modify (f : AudioFX -> AudioFX) :
  (forall s, ctx (f s) = ctx s /\ master (f s) = master s /\
             _musicBus (f s) = _musicBus s /\
             _musicPlaying (f s) = _musicPlaying s /\
             _phraseCount (f s) = _phraseCount s) ->
  keeps (modify f).
Proof.
  intros Hf s [H1 H2 H3 H4]. destruct (Hf s) as (E1 & E2 & E3 & E4 & E5).
  unfold exec, modify; cbn. constructor; rewrite ?E1, ?E2, ?E3, ?E4, ?E5; assumption.
Qed.

Lemma keeps_for_each {A : Type} (l : list A) (body : A -> M unit) :
  (forall x, keeps (body x)) -> keeps (for_each l body).
Proof.
  intros H. induction l as [|x l IH]; cbn; [apply keeps_ret|].
  apply keeps_bind; [apply H | intros _; exact IH].
Qed.

Lemma keeps_attach (v : Voice) : keeps (attach v).
Proof.
  intros s [H1 H2 H3 H4]. unfold exec, attach.
  destruct (ctx s) as [c|] eqn:E; cbn; [|constructor; rewrite ?E; assumption].
  destruct (bus_node (v_dest v) s); cbn; constructor; cbn; rewrite ?E;
    auto; discriminate.
Qed.

Lemma keeps_getCtx : keeps getCtx.
Proof.
  intros s [H1 H2 H3 H4]. unfold exec, getCtx.
  destruct (ctx s) as [c|] eqn:E; cbn; [constructor; rewrite ?E; assumption|].
  destruct (window_AudioContext s) as [[t st]|]; cbn;
    constructor; cbn; rewrite ?E; auto; discriminate.
Qed.

Lemma keeps_musicBusEnsure : keeps _musicBusEnsure.
Proof.
  intros s H. unfold exec, _musicBusEnsure, bind at 1, gets.
  destruct (_musicBus s) as [g|] eqn:Eg; [exact H|].
  pose proof (keeps_getCtx s H) as Hg. unfold exec in Hg.
  unfold bind at 1. destruct (getCtx s) as [[a | | ] sg]; cbn in *; try exact Hg.
  unfold bind, gets, modify. destruct (ctx sg) eqn:Ec; cbn; [|exact Hg].
  destruct Hg as [H1 H2 H3 H4]. constructor; cbn; rewrite ?Ec; auto; discriminate.
Qed.

Ltac frame := intros ?; repeat split; reflexivity.

Ltac solve_keeps :=
  repeat first
    [ apply keeps_ret | apply keeps_throw | apply keeps_gets
    | apply keeps_attach | apply keeps_getCtx | apply keeps_musicBusEnsure
    | apply keeps_swallow
    | apply keeps_modify; frame
    | apply keeps_bind; [|intros ?]
    | apply keeps_for_each; intros ?
    | match goal with
      | |- keeps (match ?x with _ => _ end) => destruct x
      | |- keeps (if ?b then _ else _) => destruct b
      end ].

Lemma keeps_arp (chord : list Q) (barStart : Q) (beat : Z) (b : Bus) :
  keeps (_arp chord barStart beat b).
Proof.
  unfold _arp. generalize 0%Z. induction chord as [|f chord IH]; intros i;
    cbn [_arp_from]; [apply keeps_ret|].
  apply keeps_bind; [apply keeps_attach | intros _; apply IH].
Qed.

Lemma keeps_phrase (barStart : Q) (idx : Z) (b : Bus) :
  keeps (_phrase barStart idx b).
Proof. unfold _phrase, _phrase_step, _melNote. solve_keeps. Qed.

Lemma keeps_scheduleBars (fromT : Q) : keeps (_scheduleBars fromT).
Proof.
  unfold _scheduleBars. apply keeps_bind; [apply keeps_gets|]. intros playing.
  destruct (negb playing); [apply keeps_ret|].
  apply keeps_bind; [apply keeps_musicBusEnsure|]. intros _.
  apply keeps_bind.
  { unfold _scheduleBars_notes, _bassNote.
    repeat first [apply keeps_arp | apply keeps_phrase | progress solve_keeps]. }
  intros _. apply keeps_bind; [|intros _; apply keeps_modify; frame].
  intros s [H1 H2 H3 H4]. unfold exec, modify; cbn. constructor; cbn; auto. lia.
Qed.

Lemma keeps_while_behind (fuel : nat) (ahead : Q) : keeps (while_behind fuel ahead).
Proof.
  induction fuel as [|fuel IH]; intros s H; unfold exec; cbn;
    destruct (JS.lt (_musicScheduled s) ahead); cbn; try exact H.
  apply (keeps_bind (_scheduleBars (_musicScheduled s))
           (fun _ => while_behind fuel ahead)); auto using keeps_scheduleBars.
Qed.

Lemma keeps_musicTick : keeps _musicTick.
Proof.
  unfold _musicTick, ctx_currentTime, setTimeout.
  apply keeps_bind; [apply keeps_gets|]. intros playing.
  destruct (negb playing); [apply keeps_ret|].
  apply keeps_bind; [apply keeps_getCtx|]. intros _.
  apply keeps_bind.
  { intros s H. unfold exec. destruct (ctx s); exact H. }
  intros t. apply keeps_bind; [apply keeps_gets|]. intros sc.
  apply keeps_bind; [apply keeps_while_behind|]. intros _.
  apply keeps_bind; [|intros id; apply keeps_modify; frame].
  intros s [H1 H2 H3 H4]. unfold exec; cbn. constructor; cbn; auto.
Qed.

Lemma musicBusEnsure_bus (s se : AudioFX) :
  _musicBusEnsure s = (Normal tt, se) -> _musicBus se <> None.
Proof.
  unfold _musicBusEnsure, bind at 1, gets.
  destruct (_musicBus s) as [g|] eqn:Eg; [intros [= <-]; congruence|].
  unfold bind at 1. rewrite getCtx_normal. unfold bind, gets, modify.
  destruct (ctx (exec getCtx s)); [|discriminate].
  intros [= <-]. discriminate.
Qed.

Lemma keeps_musicStart_then : keeps musicStart_then.
Proof.
  unfold musicStart_then. apply keeps_bind; [|intros _; apply keeps_musicTick].
  intros s H. pose proof (keeps_musicBusEnsure s H) as He.
  pose proof (musicBusEnsure_bus s) as Hb.
  unfold exec, musicStart_init in *. unfold bind at 1.
  destruct (_musicBusEnsure s) as [[[] | | ] se]; cbn in *; try exact He.
  specialize (Hb se eq_refl). destruct He as [H1 H2 H3 H4].
  unfold bind, modify, ctx_currentTime. cbn.
  destruct (ctx se) as [c|] eqn:Ec; cbn; [|exfalso; apply (H1 Hb); reflexivity].
  constructor; cbn; rewrite ?Ec; auto; try discriminate; lia.
Qed.

Lemma keeps_callback (cb : Callback) : keeps (callback cb).
Proof.
  destruct cb; cbn [callback]; try apply keeps_musicStart_then;
    unfold playBell_then, playGhost_then, playTick_then, playBuzz_then,
      _ding, now; solve_keeps.
  intros s H. unfold exec, noiseBuffer.
  destruct (_noiseBuffer s); [exact H|].
  destruct (ctx s) eqn:E; [|exact H].
  destruct H as [H1 H2 H3 H4]. constructor; cbn; auto.
Qed.

Lemma keeps_task (t : Task) : keeps (task t).
Proof.
  destruct t; cbn [task]; [apply keeps_musicTick|].
  intros s H. unfold exec, bind, gets, modify.
  destruct (_musicBus s) as [g|] eqn:E; cbn; [|exact H].
  destruct H as [H1 H2 H3 H4].
  constructor; cbn; auto; intros; try discriminate.
  apply H1. rewrite E. discriminate.
Qed.

Lemma keeps_then_catch (p : Promise) (cb : Callback) : keeps (then_catch p cb).
Proof. destruct p; cbn; solve_keeps. Qed.

Lemma keeps_play (e : Effect) (opts : option Opts) : keeps (play e opts).
Proof.
  destruct e; unfold play, playBell, playGhost, playTick, playBuzz, ready;
    repeat first [apply keeps_then_catch | progress solve_keeps].
Qed.

Lemma keeps_musicStart : keeps musicStart.
Proof.
  unfold musicStart, ready;
    repeat first [apply keeps_then_catch | progress solve_keeps].
Qed.

Lemma keeps_musicStop : keeps musicStop.
Proof.
  intros s [H1 H2 H3 H4].
  unfold exec, musicStop, bind, modify, gets, clearTimeout, setTimeout.
  cbn [_musicTimer set_musicPlaying].
  destruct (_musicTimer s); cbn;
    destruct (_musicBus s) eqn:Eb; cbn; try destruct (ctx s) eqn:Ec; cbn;
    constructor; cbn; rewrite ?Eb, ?Ec; auto; discriminate.
Qed.

Lemma keeps_musicFade (toVol : Q) (tc : option Q) : keeps (musicFade toVol tc).
Proof.
  intros s [H1 H2 H3 H4]. unfold exec, musicFade, bind, modify, gets.
  destruct (_musicBus s) eqn:Eb; cbn; try destruct (ctx s) eqn:Ec; cbn;
    constructor; cbn; rewrite ?Eb, ?Ec; auto; discriminate.
Qed.

Lemma keeps_setVolume (v : Q) : keeps (setVolume v).
Proof.
  intros s [H1 H2 H3 H4].
  unfold exec, setVolume, bind, modify, gets, ctx_currentTime. cbn.
  destruct (master s) eqn:Em; cbn; try destruct (ctx s) eqn:Ec; cbn;
    constructor; cbn; rewrite ?Em, ?Ec; auto; discriminate.
Qed.

Lemma keeps_deliver (resume : option bool) (rs : list Reaction) :
  keeps (deliver resume rs).
Proof.
  induction rs as [|r rs IH]; cbn [deliver]; [apply keeps_ret|].
  apply keeps_bind; [|intros _; exact IH].
  destruct (awaits r); [apply keeps_ret | |];
    try destruct resume as [[]|]; unfold settle;
    repeat first [apply keeps_callback | progress solve_keeps].
Qed.

Lemma keeps_checkpoint (resume : option bool) : keeps (checkpoint resume).
Proof.
  unfold checkpoint. apply keeps_bind; [apply keeps_gets|]. intros rs.
  apply keeps_bind; [apply keeps_modify; frame|]. intros _.
  apply keeps_bind; [|intros _; apply keeps_deliver].
  destruct resume as [[]|]; try apply keeps_ret.
  intros s [H1 H2 H3 H4]. unfold exec, resumed, modify; cbn.
  destruct (ctx s) as [c|] eqn:Ec; [|constructor; rewrite ?Ec; assumption].
  destruct (state c); constructor; cbn; rewrite ?Ec; auto; discriminate.
Qed.

Lemma keeps_fire (id : positive) : keeps (fire id).
Proof.
  unfold fire, clearTimeout.
  repeat first [apply keeps_task | progress solve_keeps].
Qed.

Lemma keeps_clock_at (t : Q) : keeps (clock_at t).
Proof.
  intros s [H1 H2 H3 H4]. unfold exec, clock_at, modify; cbn.
  destruct (ctx s) as [c|] eqn:Ec; constructor; cbn; rewrite ?Ec; auto;
    discriminate.
Qed.

Lemma keeps_step (a : Step) : keeps (step a).
Proof.
  destruct a; cbn [step];
    auto using keeps_play, keeps_setVolume, keeps_musicStart, keeps_musicStop,
      keeps_musicFade, keeps_checkpoint, keeps_fire, keeps_clock_at.
Qed.

(** Every state of a run is well-formed. *)
Lemma reachable_wf (s : AudioFX) : reachable s -> wf s.
Proof.
  induction 1 as [c | s a _ IH].
  - constructor; cbn; try discriminate; try contradiction; lia.
  - apply keeps_step. exact IH.
Qed.

(** While the music plays the context and the music bus exist. *)
Lemma playing_has_context (s : AudioFX) :
  wf s -> _musicPlaying s = true -> ctx s <> None /\ _musicBus s <> None.
Proof. intros [H1 H2 H3 H4] Hp. auto. Qed.

(** ** Concrete runs *)

Example started_page_runs :
  _musicPlaying started_page = true /\
  completion (musicStart ;; checkpoint None) fresh_page = Normal tt /\
  reactions started_page = [] /\
  List.length (voices started_page) = 20%nat.
Proof. vm_compute. auto. Qed.

Example second_tick_page_runs :
  _phraseCount second_tick_page = 2%Z /\
  _musicScheduled second_tick_page == 7.78 /\
  List.length (voices second_tick_page) = 40%nat.
Proof. vm_compute. auto. Qed.

Lemma second_tick_page_reachable : reachable second_tick_page.
Proof.
  unfold second_tick_page, started_page, fresh_page.
  apply (reach_step _ (HostFire 1)), (reach_step _ (HostClock 0.96)),
    (reach_step _ (HostCheckpoint None)), (reach_step _ CallMusicStart),
    reach_loaded.
Qed.

(** * Properties of the specification *)

(** ** Harmonic plan *)

(** What the code does: two consecutive blocks share a chord, so the chord
    changes every two blocks (four bars). *)
Lemma chord_changes_every_two_blocks (i : Z) :
  (0 <= i)%Z -> (2 * i + 1 < 2 ^ 31)%Z ->
  chord_index (2 * i) = (i mod 4)%Z /\ chord_index (2 * i + 1) = (i mod 4)%Z.
Proof.
  intros H0 H1. rewrite !chord_index_small by lia.
  replace (2 * i / 2)%Z with i by (apply Z.div_unique with 0%Z; lia).
  replace ((2 * i + 1) / 2)%Z with i by (apply Z.div_unique with 1%Z; lia).
  auto.
Qed.

(** C2. The block of index 1 (the second two-bar block after a start) is
    built on plan entry 0 again, D major, where position 1 mod 4 of the plan
    is A major: in the run of [second_tick_page] its bass note sounds D3
    (294 / 2 Hz) like the one of block 0, not A3 (440 / 2 Hz).  Nor does
    the chord come back after [len(HarmonicPlan)] blocks: block 4 is on
    plan entry 2. *)
Theorem second_block_repeats_first_chord :
  chord_index 1 = 0%Z /\
  JS.index _CHORDS (chord_index 1) = Some [294; 370; 440] /\
  JS.index _CHORDS (JS.rem 1 (JS.length _CHORDS)) = Some [440; 554; 659] /\
  chord_index 0 = 0%Z /\ chord_index (0 + JS.length _CHORDS) = 2%Z /\
  option_map v_sources (nth_error (voices second_tick_page) 0)
    = Some [(Sine, 294 / 2, 1)] /\
  option_map v_sources (nth_error (voices second_tick_page) 20)
    = Some [(Sine, 294 / 2, 1)].
Proof. vm_compute. auto 8. Qed.

(** ** The watermark *)







(** ** Start and stop *)

(** C7. [musicStart()] while the music plays is a no-op: the whole state is
    left as it is (watermark, counter, timer handle and running flag, and
    also the timer table and the pending callbacks, so that no second tick
    loop is started). *)
Theorem musicStart_idempotent (s : AudioFX) :
  _musicPlaying s = true -> musicStart s = (Normal tt, s).
Proof.
  intros Hp. unfold musicStart, bind, gets. rewrite Hp. reflexivity.
Qed.

Lemma musicStart_idempotent_witness :
  musicStart started_page = (Normal tt, started_page).
Proof. apply (musicStart_idempotent started_page). reflexivity. Defined.

(** C10. [musicStop()] clears the running flag (and the timer handle); with
    the flag cleared, the tick function, run directly or as the task of a
    timer that still fires, and the block generator return at once and
    leave the whole state as it is: no watermark advance, no counter
    increment, no note, no timer armed. *)
Theorem stopped_callbacks_are_noops (s0 s : AudioFX) (fromT : Q) :
  (_musicPlaying (exec musicStop s0) = false /\
   _musicTimer (exec musicStop s0) = None /\
   completion musicStop s0 = Normal tt) /\
  (_musicPlaying s = false ->
   _musicTick s = (Normal tt, s) /\
   task TaskMusicTick s = (Normal tt, s) /\
   _scheduleBars fromT s = (Normal tt, s)).
Proof.
  split.
  - unfold exec, completion, musicStop, bind, modify, gets, clearTimeout.
    cbn [snd fst _musicTimer set_musicPlaying].
    destruct (_musicTimer s0) eqn:Et; cbn;
      destruct (_musicBus s0); cbn; try destruct (ctx s0); cbn;
      rewrite ?Et; auto.
  - intros Hp. unfold task, _musicTick, _scheduleBars, bind, gets.
    rewrite Hp. cbn. auto.
Qed.

Lemma stopped_callbacks_are_noops_witness :
  _musicPlaying (exec musicStop started_page) = false /\
  _musicTick (exec musicStop started_page)
    = (Normal tt, exec musicStop started_page) /\
  task TaskMusicTick (exec musicStop started_page)
    = (Normal tt, exec musicStop started_page) /\
  _scheduleBars 3.94 (exec musicStop started_page)
    = (Normal tt, exec musicStop started_page).
Proof.
  split; [reflexivity|].
  apply (stopped_callbacks_are_noops started_page
           (exec musicStop started_page) 3.94).
  reflexivity.
Defined.

(** ** Volume and fade *)

(** C9. [setVolume] and [musicFade] act on disjoint state.  [setVolume(v)]
    changes the stored effects volume and the gain automation of the
    effects bus ([master]) and nothing else: the music bus is untouched.
    [musicFade(toVol, timeConstant)] changes the gain automation of the
    music bus and nothing else: the effects bus and its stored volume are
    untouched. *)
Theorem setVolume_musicFade_disjoint (v toVol : Q) (timeConstant : option Q)
  (s : AudioFX) :
  (_musicBus (exec (setVolume v) s) = _musicBus s /\
   exec (setVolume v) s
     = set_master (master (exec (setVolume v) s)) (set_vol (JS.clamp01 v) s) /\
   master (exec (setVolume v) s)
     = match master s, ctx s with
       | Some g, Some c =>
           Some (mkGain (gain_value g)
                   (gain_events g ++
                    [SetTargetAtTime (JS.clamp01 v) (currentTime c) 0.02]))
       | m, _ => m
       end) /\
  (master (exec (musicFade toVol timeConstant) s) = master s /\
   _vol (exec (musicFade toVol timeConstant) s) = _vol s /\
   exec (musicFade toVol timeConstant) s
     = set_musicBus (_musicBus (exec (musicFade toVol timeConstant) s)) s /\
   _musicBus (exec (musicFade toVol timeConstant) s)
     = match _musicBus s, ctx s with
       | Some g, Some c =>
           Some (mkGain (gain_value g)
                   (gain_events g ++
                    [SetTargetAtTime toVol (currentTime c)
                                     (JS.or_else timeConstant 0.5)]))
       | b, _ => b
       end /\
   completion (musicFade toVol timeConstant) s = Normal tt).
Proof.
  destruct s as [w c m nb vol pl sc tm mb pc ts nt rs].
  unfold exec, completion, setVolume, musicFade, bind, modify, gets,
    ctx_currentTime.
  split.
  - destruct m as [g|], c as [c|]; cbn; auto.
  - destruct mb as [g|], c as [c|]; cbn; auto 6.
Qed.

(** ** Melody *)

Lemma add_voices_nil (s : AudioFX) : add_voices [] s = s.
Proof.
  unfold add_voices. destruct s as [w [[t st g]|] m nb vol pl sc tm mb pc ts nt rs];
    cbn; [rewrite app_nil_r|]; reflexivity.
Qed.

Lemma add_voices_app (l1 l2 : list Voice) (s : AudioFX) :
  add_voices l2 (add_voices l1 s) = add_voices (l1 ++ l2) s.
Proof.
  unfold add_voices. destruct (ctx s) as [c|] eqn:E; cbn; [|rewrite E; reflexivity].
  rewrite app_assoc. reflexivity.
Qed.

Lemma wired_add_voices (b : Bus) (l : list Voice) (s : AudioFX) :
  wired b s -> wired b (add_voices l s).
Proof.
  unfold wired, add_voices. intros [Hc Hb].
  destruct (ctx s); [|contradiction]. destruct b; cbn in *; split;
    try discriminate; assumption.
Qed.

Lemma emits_ret (b : Bus) : emits b (ret tt) [].
Proof. intros s _. rewrite add_voices_nil. reflexivity. Qed.

Lemma emits_bind (b : Bus) (m k : M unit) (l1 l2 : list Voice) :
  emits b m l1 -> emits b k l2 -> emits b (m ;; k) (l1 ++ l2).
Proof.
  intros Hm Hk s Hs. unfold bind. rewrite (Hm s Hs).
  rewrite (Hk _ (wired_add_voices b l1 s Hs)), add_voices_app. reflexivity.
Qed.

Lemma emits_attach (b : Bus) (v : Voice) :
  v_dest v = b -> emits b (attach v) [v].
Proof.
  intros <- s [Hc Hb]. unfold attach, add_voices.
  destruct (ctx s); [|contradiction].
  destruct (bus_node (v_dest v) s); [reflexivity | contradiction].
Qed.

(** A phrase on a counter that is not negative: six melody notes that depend
    on the start of the block, the counter and the bus only. *)
Lemma phrase_emits (barStart : Q) (n : Z) (b : Bus) :
  (0 <= n)%Z ->
  exists notes,
    List.length notes = 6%nat /\ emits b (_phrase barStart n b) notes.
Proof.
  intros Hn.
  destruct (index_in_range shapes (JS.rem n (JS.length shapes))) as (shape & E).
  { apply rem_range; [lia | reflexivity]. }
  unfold _phrase. rewrite E. apply index_In in E. cbn in E.
  assert (Hmel : forall f t, emits b (_melNote f t (_BEAT * 0.48) 0.55 b)
            [mkVoice [(Triangle, f, 1)] None (Lowpass 1800)
               [SetValueAtTime 0 t; LinearRampToValueAtTime 0.55 (t + 0.012);
                SetValueAtTime 0.55 (t + _BEAT * 0.48 * 0.78);
                LinearRampToValueAtTime 0 (t + _BEAT * 0.48 + 0.06)]
               t (t + _BEAT * 0.48 + 0.06 + 0.01) b]).
  { intros f t. apply emits_attach. reflexivity. }
  destruct E as [<- | [<- | [<- | [<- | []]]]];
    eexists; (split; [|
      cbn [for_each];
      repeat (eapply emits_bind;
              [first [apply emits_ret | apply Hmel]|]);
      apply emits_ret]);
    reflexivity.
Qed.

(** C5. For every phrase counter [n >= 0] and every [k >= 0], the phrase
    generated for [n] is a function of the start of the block, of [n] and of
    the bus alone (the same six notes on every state it can run on), and the
    phrase generated for [n + k * numShapes] is the same phrase. *)
Theorem phrase_determined_by_counter (barStart : Q) (b : Bus) (n k : Z) :
  (0 <= n)%Z -> (0 <= k)%Z ->
  _phrase barStart (n + k * JS.length shapes) b = _phrase barStart n b /\
  exists notes,
    List.length notes = 6%nat /\
    emits b (_phrase barStart n b) notes /\
    emits b (_phrase barStart (n + k * JS.length shapes) b) notes.
Proof.
  intros Hn Hk.
  assert (E : _phrase barStart (n + k * JS.length shapes) b = _phrase barStart n b).
  { unfold _phrase. rewrite rem_period by (try reflexivity; assumption).
    reflexivity. }
  split; [exact E|].
  destruct (phrase_emits barStart n b Hn) as (notes & Hl & He).
  exists notes. rewrite E. auto.
Qed.

Lemma phrase_determined_by_counter_witness :
  _phrase 0.1 (1 + 2 * JS.length shapes) MusicBus = _phrase 0.1 1 MusicBus /\
  exists notes,
    List.length notes = 6%nat /\
    emits MusicBus (_phrase 0.1 1 MusicBus) notes /\
    emits MusicBus (_phrase 0.1 (1 + 2 * JS.length shapes) MusicBus) notes.
Proof. apply (phrase_determined_by_counter 0.1 MusicBus 1 2); lia. Defined.

(** ** Notes and the watermark *)

Example first_block_page_watermark :
  completion (_scheduleBars 0.1) primed_page = Normal tt /\
  voices primed_page = [] /\
  _musicScheduled first_block_page == 3.94 /\
  option_map (fun v => (Qred (v_start v), Qred (v_stop v)))
             (nth_error (voices first_block_page) 13)
    = Some (3.57, Qred 4.388) /\
  option_map v_env (nth_error (voices first_block_page) 13)
    = Some [SetValueAtTime 0 (0.1 + _BAR + inject_Z 3 * _BEAT + inject_Z 2 * 0.055);
            LinearRampToValueAtTime 0.28
              (0.1 + _BAR + inject_Z 3 * _BEAT + inject_Z 2 * 0.055 + 0.008);
            SetValueAtTime 0.28
              (0.1 + _BAR + inject_Z 3 * _BEAT + inject_Z 2 * 0.055
               + _BEAT * 1.6 * 0.85);
            LinearRampToValueAtTime 0
              (0.1 + _BAR + inject_Z 3 * _BEAT + inject_Z 2 * 0.055
               + _BEAT * 1.6 + 0.04)] /\
  3.94 < 0.1 + _BAR + inject_Z 3 * _BEAT + inject_Z 2 * 0.055 + _BEAT * 1.6 * 0.85.
Proof. vm_compute. auto 6. Qed.

(** C4, as stated, fails on the first block of a run: its watermark is
    3.94, and the third note of its last arpeggio starts at 3.57, is held
    at full gain until 4.2228, is silent at 4.378 and is stopped at
    4.388. *)
Lemma last_arpeggio_outlasts_watermark :
  ~ (forall v, In v (voices first_block_page) ->
               v_stop v <= _musicScheduled first_block_page).
Proof.
  intros H.
  destruct (nth_error (voices first_block_page) 13) as [v|] eqn:E;
    [|vm_compute in E; discriminate].
  specialize (H v (nth_error_In _ _ E)).
  vm_compute in E. injection E as <-.
  vm_compute in H. apply H. reflexivity.
Qed.

(** C4, amended.  After a two-bar block has been generated, the watermark
    is strictly after the scheduled start of every note of the block (and
    the block starts at the old watermark at the earliest); a note may ring
    past the watermark, by at most [overhang] = 0.448 s.  From a running
    state with a context and a counter below [2^31] the block is always
    generated. *)
Theorem watermark_covers_note_starts (fromT : Q) (s : AudioFX) :
  _musicPlaying s = true -> ctx s <> None ->
  (0 <= _phraseCount s < 2 ^ 31)%Z ->
  completion (_scheduleBars fromT) s = Normal tt /\
  _musicScheduled (exec (_scheduleBars fromT) s) = fromT + _BAR * 2 /\
  exists l,
    voices (exec (_scheduleBars fromT) s) = voices s ++ l /\
    Forall (fun v =>
              fromT <= v_start v /\
              v_start v < _musicScheduled (exec (_scheduleBars fromT) s) /\
              v_stop v <= _musicScheduled (exec (_scheduleBars fromT) s) + overhang)
           l.
Proof.
  intros Hp Hc Hn.
  destruct (scheduleBars_normal fromT s Hp Hc Hn)
    as (s1 & l & Ha & Hv & Hl & _ & E).
  unfold completion, exec. rewrite E. cbn [fst snd].
  split; [reflexivity|]. split; [reflexivity|].
  exists l. split; [exact Hv|].
  eapply Forall_impl; [|exact Hl].
  intros v (H1 & H2 & _ & H3). cbn. auto.
Qed.

Lemma watermark_covers_note_starts_witness :
  completion (_scheduleBars 0.1) primed_page = Normal tt /\
  _musicScheduled (exec (_scheduleBars 0.1) primed_page) = 0.1 + _BAR * 2 /\
  exists l,
    voices (exec (_scheduleBars 0.1) primed_page) = voices primed_page ++ l /\
    Forall (fun v =>
              0.1 <= v_start v /\
              v_start v < _musicScheduled (exec (_scheduleBars 0.1) primed_page) /\
              v_stop v <= _musicScheduled (exec (_scheduleBars 0.1) primed_page) + overhang)
           l.
Proof.
  apply (watermark_covers_note_starts 0.1 primed_page).
  - reflexivity.
  - vm_compute. discriminate.
  - vm_compute. split; [discriminate | reflexivity].
Defined.

(** ** From [musicStart] to its callback *)

(** [musicStart()] on an idle scheduler with the pipeline available: the
    context is there afterwards and the callback waits on a promise that
    is not rejected; nothing else changes. *)
Lemma musicStart_queues (s : AudioFX) :
  _musicPlaying s = false -> available s ->
  exists p,
    p <> Rejected /\
    ctx (exec getCtx s) <> None /\
    musicStart s =
      (Normal tt,
       set_reactions (reactions s ++ [mkReaction p CbMusicStart]) (exec getCtx s)).
Proof.
  intros Hp Hav. unfold musicStart, bind at 1, gets. rewrite Hp.
  unfold ready, bind. rewrite getCtx_normal.
  assert (Hr : reactions (exec getCtx s) = reactions s)
    by apply (builds_getCtx (fun _ => True) s).
  assert (Hc : ctx (exec getCtx s) <> None).
  { unfold exec, getCtx. destruct (ctx s) eqn:E; cbn; [rewrite E; discriminate|].
    destruct Hav as [Hav | Hav]; [contradiction|].
    destruct (window_AudioContext s) as [[t st]|]; [cbn; discriminate | contradiction]. }
  destruct (ctx (exec getCtx s)) as [c|]; [|contradiction].
  destruct (state c); cbn; unfold modify; rewrite Hr;
    eexists; (split; [|split; [exact Hc | reflexivity]]); discriminate.
Qed.

Lemma bind_ret_tt (m : M unit) (s : AudioFX) : (m ;; ret tt) s = m s.
Proof. unfold bind, ret. destruct (m s) as [[[] | | ] s']; reflexivity. Qed.

Lemma resumed_spec (s : AudioFX) :
  exists s0,
    resumed s = (Normal tt, s0) /\ (ctx s <> None -> ctx s0 <> None) /\
    clock s0 = clock s /\ voices s0 = voices s.
Proof.
  unfold resumed, modify, clock, voices. eexists. split; [reflexivity|].
  destruct (ctx s) as [c|] eqn:E; [|rewrite E; auto].
  destruct (state c); cbn; rewrite ?E; repeat split; auto; discriminate.
Qed.

(** With nothing else pending, the checkpoint that follows [musicStart()]
    (the pending [resume()], if any, having succeeded) runs the callback of
    [musicStart], from a state [s0] that has a context, the clock and the
    sub-graphs of [s]. *)
Lemma musicStart_delivered (s : AudioFX) :
  _musicPlaying s = false -> available s -> reactions s = [] ->
  exists s0,
    ctx s0 <> None /\ clock s0 = clock s /\ voices s0 = voices s /\
    (musicStart ;; checkpoint (Some true)) s = swallow musicStart_then s0.
Proof.
  intros Hp Hav Hr.
  destruct (musicStart_queues s Hp Hav) as (p & Hrej & Hc & E).
  unfold bind at 1. rewrite E, Hr. clear E.
  pose proof (getCtx_clock s) as Hclk.
  assert (Hv : voices (exec getCtx s) = voices s).
  { destruct (builds_getCtx (fun _ => False) s) as (_ & _ & l & Hv & Hl).
    destruct l; [rewrite app_nil_r in Hv; exact Hv | inversion Hl; contradiction]. }
  set (sg := exec getCtx s) in *.
  set (s1 := set_reactions ([] ++ [mkReaction p CbMusicStart]) sg).
  change (checkpoint (Some true) s1)
    with ((resumed ;; deliver (Some true) [mkReaction p CbMusicStart])
            (set_reactions [] s1)).
  destruct (resumed_spec (set_reactions [] s1)) as (s0 & Er & H1 & H2 & H3).
  exists s0. split; [apply H1; exact Hc|].
  split.
  { rewrite H2. unfold clock at 1. cbn [ctx set_reactions s1 window_AudioContext].
    destruct (ctx sg) as [c|]; [apply Hclk; reflexivity | contradiction]. }
  split; [rewrite H3; exact Hv|].
  unfold bind at 1. rewrite Er.
  destruct p; [contradiction | |]; cbn [deliver awaits handler];
    rewrite bind_ret_tt; reflexivity.
Qed.

(** ** The first tick after [musicStart] *)

(** C1, as stated, fails in its own scenario: on the fresh page, started at
    clock 0.0, the first tick leaves the counter at 1, not 2. *)
Lemma first_tick_counter_is_not_two :
  ~ (3.84 <= _musicScheduled started_page /\ _phraseCount started_page = 2%Z).
Proof. intros [_ H]. vm_compute in H. discriminate. Qed.

(** C1, amended.  [musicStart()] on an idle scheduler, with the pipeline
    available, nothing else pending and the clock reading 0.0, the
    look-ahead window being 3.84 s and the tick interval 960 ms: once the
    callback has run, that is after the first tick, the music plays, the
    watermark is 3.94 (so at least 3.84) and the phrase counter is 1: one
    two-bar block has been generated; the next tick is armed. *)
Theorem first_tick_generates_one_block (s : AudioFX) :
  _musicPlaying s = false -> available s -> reactions s = [] ->
  clock s == 0 ->
  _AHEAD == 3.84 /\
  completion (musicStart ;; checkpoint (Some true)) s = Normal tt /\
  _musicPlaying (exec (musicStart ;; checkpoint (Some true)) s) = true /\
  _musicScheduled (exec (musicStart ;; checkpoint (Some true)) s) == 3.94 /\
  3.84 <= _musicScheduled (exec (musicStart ;; checkpoint (Some true)) s) /\
  _phraseCount (exec (musicStart ;; checkpoint (Some true)) s) = 1%Z /\
  exists tm,
    In tm (timers (exec (musicStart ;; checkpoint (Some true)) s)) /\
    _musicTimer (exec (musicStart ;; checkpoint (Some true)) s)
      = Some (timer_id tm) /\
    timer_task tm = TaskMusicTick /\ timer_ms tm == 960.
Proof.
  intros Hp Hav Hr Hclk.
  destruct (musicStart_delivered s Hp Hav Hr) as (s0 & Hc0 & Hclk0 & _ & E).
  destruct (musicStart_then_spec s0 Hc0) as (s1 & l & _ & _ & Hp1 & Et).
  unfold completion, exec. rewrite E. unfold swallow. rewrite Et.
  cbn [fst snd]. rewrite Hclk0.
  split; [reflexivity|]. split; [reflexivity|].
  split; [exact Hp1|].
  assert (Hw : clock s + 0.1 + two_bars == 3.94)
    by (unfold two_bars, _BAR; lra).
  split; [exact Hw|].
  split; [cbn -[Qplus Qle two_bars]; lra|].
  split; [reflexivity|].
  eexists. split; [cbn; apply in_or_app; right; left; reflexivity|].
  cbn. split; [reflexivity|]. split; reflexivity.
Qed.

Lemma first_tick_generates_one_block_witness :
  _AHEAD == 3.84 /\
  completion (musicStart ;; checkpoint (Some true)) fresh_page = Normal tt /\
  _musicPlaying (exec (musicStart ;; checkpoint (Some true)) fresh_page) = true /\
  _musicScheduled (exec (musicStart ;; checkpoint (Some true)) fresh_page) == 3.94 /\
  3.84 <= _musicScheduled (exec (musicStart ;; checkpoint (Some true)) fresh_page) /\
  _phraseCount (exec (musicStart ;; checkpoint (Some true)) fresh_page) = 1%Z /\
  exists tm,
    In tm (timers (exec (musicStart ;; checkpoint (Some true)) fresh_page)) /\
    _musicTimer (exec (musicStart ;; checkpoint (Some true)) fresh_page)
      = Some (timer_id tm) /\
    timer_task tm = TaskMusicTick /\ timer_ms tm == 960.
Proof.
  apply (first_tick_generates_one_block fresh_page).
  - reflexivity.
  - right. vm_compute. discriminate.
  - reflexivity.
  - reflexivity.
Defined.

(** ** Restart *)

Lemma musicStop_spec (s : AudioFX) :
  exists s',
    musicStop s = (Normal tt, s') /\ _musicPlaying s' = false /\
    ctx s' = ctx s /\ window_AudioContext s' = window_AudioContext s /\
    reactions s' = reactions s.
Proof.
  unfold musicStop, bind, modify, gets, clearTimeout, setTimeout.
  cbn [_musicTimer set_musicPlaying].
  destruct (_musicTimer s); cbn;
    destruct (_musicBus s); cbn; try destruct (ctx s) eqn:E; cbn;
    eexists; (split; [reflexivity|]); cbn; rewrite ?E; auto.
Qed.

(** C6.  From every state of a run in which the music plays, nothing else
    pending, [musicStop()] followed at once by [musicStart()]
    restarts the loop from a state [si] in which the phrase counter is 0
    and the watermark is the clock plus 0.1 s, strictly after the clock:
    the restart is the first tick run from [si].  That tick, run in the
    same callback, generates the block of counter 0; no sub-graph scheduled
    by the restart starts at or before the clock, and the watermark stays
    strictly after it. *)
Theorem restart_resets_counter_and_watermark (s : AudioFX) :
  reachable s -> _musicPlaying s = true -> reactions s = [] ->
  exists si,
    (musicStop ;; musicStart ;; checkpoint (Some true)) s = _musicTick si /\
    _musicPlaying si = true /\
    _phraseCount si = 0%Z /\
    _musicScheduled si = clock s + 0.1 /\
    clock s < _musicScheduled si /\
    completion _musicTick si = Normal tt /\
    clock s < _musicScheduled (exec _musicTick si) /\
    exists l,
      voices (exec _musicTick si) = voices s ++ l /\
      Forall (fun v => clock s < v_start v) l.
Proof.
  intros Hreach Hp Hr.
  destruct (playing_has_context s (reachable_wf s Hreach) Hp) as [Hc _].
  destruct (musicStop_spec s) as (ss & Es & Hps & Hcs & Hws & Hrs).
  assert (Hclks : clock ss = clock s) by (unfold clock; rewrite Hcs, Hws; reflexivity).
  assert (Hvs : voices ss = voices s) by (unfold voices; rewrite Hcs; reflexivity).
  destruct (musicStart_delivered ss Hps) as (s0 & Hc0 & Hclk0 & Hv0 & E).
  { left. rewrite Hcs. exact Hc. }
  { rewrite Hrs. exact Hr. }
  destruct (musicStart_init_spec s0 Hc0) as (se & Hae & Hce & Hbe & Ei).
  destruct (musicStart_then_spec s0 Hc0) as (s1 & l & Hv1 & Hl & _ & Et).
  set (si := set_phraseCount 0 _) in Ei.
  assert (Etick : _musicTick si = musicStart_then s0).
  { unfold musicStart_then, bind. rewrite Ei. reflexivity. }
  exists si. split.
  { unfold bind at 1. rewrite Es.
    change ((musicStart ;; checkpoint (Some true)) ss = _musicTick si).
    rewrite E, Etick. unfold swallow. rewrite Et. reflexivity. }
  split; [reflexivity|]. split; [reflexivity|].
  assert (Hclk : clock s0 = clock s) by congruence.
  split; [unfold si; cbn -[Qplus]; rewrite Hclk; reflexivity|].
  split; [unfold si; cbn -[Qplus Qlt]; rewrite Hclk; lra|].
  unfold completion, exec. rewrite Etick, Et. cbn [fst snd].
  split; [reflexivity|].
  split.
  { cbn -[Qplus Qlt two_bars]. rewrite Hclk. pose proof two_bars_pos. lra. }
  exists l. split.
  { change (voices s1 = voices s ++ l). rewrite Hv1, Hv0, Hvs. reflexivity. }
  eapply Forall_impl; [|exact Hl].
  intros v (H1 & _). rewrite Hclk in H1. lra.
Qed.

Lemma restart_resets_counter_and_watermark_witness :
  exists si,
    (musicStop ;; musicStart ;; checkpoint (Some true)) second_tick_page
      = _musicTick si /\
    _musicPlaying si = true /\
    _phraseCount si = 0%Z /\
    _musicScheduled si = clock second_tick_page + 0.1 /\
    clock second_tick_page < _musicScheduled si /\
    completion _musicTick si = Normal tt /\
    clock second_tick_page < _musicScheduled (exec _musicTick si) /\
    exists l,
      voices (exec _musicTick si) = voices second_tick_page ++ l /\
      Forall (fun v => clock second_tick_page < v_start v) l.
Proof.
  apply (restart_resets_counter_and_watermark second_tick_page).
  - exact second_tick_page_reachable.
  - reflexivity.
  - reflexivity.
Defined.

(** ** One-shot effects never fail their caller *)

Lemma play_spec (e : Effect) (opts : option Opts) (s : AudioFX) :
  play e opts s =
    (Normal tt, set_reactions (reactions s ++ queued e opts s) (exec getCtx s)).
Proof.
  assert (Hr : reactions (exec getCtx s) = reactions s)
    by apply (builds_getCtx (fun _ => True) s).
  assert (Hid : set_reactions (reactions s ++ []) (exec getCtx s) = exec getCtx s).
  { rewrite app_nil_r, <- Hr. destruct (exec getCtx s); reflexivity. }
  destruct e; unfold play, playBell, playGhost, playTick, playBuzz, queued;
    unfold bind at 1, ready, bind; rewrite getCtx_normal;
    destruct (ctx (exec getCtx s)) as [c|]; cbn [then_catch ret];
    rewrite ?Hid; try reflexivity;
    destruct (state c); cbn; unfold modify; rewrite Hr; reflexivity.
Qed.

Lemma effect_callback_terminates (e : Effect) (o : Opts) (s : AudioFX) :
  completion (callback (effect_callback e o)) s <> OutOfFuel.
Proof.
  destruct s as [w c m nb vol pl sc tm mb pc ts nt rs].
  destruct e;
    try solve [destruct c as [c|], m as [g|], nb; cbv; discriminate].
  unfold completion, effect_callback, callback, playGhost_then, bind, now, gets.
  cbn [ctx fst snd].
  match goal with |- context [JS.lt ?x 0] => destruct (JS.lt x 0) end;
    [discriminate|].
  unfold attach. destruct c as [c|], m as [g|]; cbn; discriminate.
Qed.

(** C8, as stated, fails where the pipeline is not yet activated: on a
    page whose context starts suspended, [playBell()] is no no-op.  It
    builds the context and queues its callback behind [resume()]; once that
    has succeeded, the two strikes of the bell are scheduled. *)
Lemma suspended_effect_is_deferred :
  exec (play Bell None) suspended_page <> suspended_page /\
  reactions (exec (play Bell None) suspended_page)
    = [mkReaction Resuming (CbBell (mkOpts None None))] /\
  List.length
    (voices (exec (checkpoint (Some true))
               (exec (play Bell None) suspended_page))) = 2%nat.
Proof.
  split; [intros H; apply (f_equal ctx) in H; vm_compute in H; discriminate H|].
  split; vm_compute; reflexivity.
Qed.

(** C8, amended.  For every effect, every argument and every state:
    - the call returns normally, at once: it runs [getCtx], queues at most
      its callback and schedules no sound itself;
    - when the pipeline is unavailable (no context, no constructor) the
      call changes nothing at all;
    - when the pipeline is not yet activated (the context is suspended)
      the sound is deferred: the callback is queued behind [resume()],
      stays queued while that is pending, is dropped with the state left
      as it is when that is rejected, and runs when that succeeds;
    - the callback runs under the empty [catch], so that it completes
      normally from every state [s']. *)
Theorem play_never_throws (e : Effect) (opts : option Opts) (s s' : AudioFX)
  (fulfilled : bool) :
  play e opts s =
    (Normal tt, set_reactions (reactions s ++ queued e opts s) (exec getCtx s)) /\
  voices (exec (play e opts) s) = voices s /\
  match ctx s, window_AudioContext s with
  | None, None => play e opts s = (Normal tt, s)
  | _, _ => True
  end /\
  (forall c, ctx (exec getCtx s) = Some c -> state c = Suspended ->
     queued e opts s
       = [mkReaction Resuming (effect_callback e (opts_or_empty opts))]) /\
  deliver None
      [mkReaction Resuming (effect_callback e (opts_or_empty opts))] s'
    = (Normal tt,
       set_reactions
         (reactions s'
          ++ [mkReaction Resuming (effect_callback e (opts_or_empty opts))])
         s') /\
  deliver (Some false)
      [mkReaction Resuming (effect_callback e (opts_or_empty opts))] s'
    = (Normal tt, s') /\
  deliver (Some true)
      [mkReaction Resuming (effect_callback e (opts_or_empty opts))] s'
    = swallow (callback (effect_callback e (opts_or_empty opts))) s' /\
  settle false (effect_callback e (opts_or_empty opts)) s' = (Normal tt, s') /\
  completion (settle fulfilled (effect_callback e (opts_or_empty opts))) s'
    = Normal tt.
Proof.
  split; [apply play_spec|].
  split.
  { unfold exec at 1. rewrite play_spec. cbn [snd].
    destruct (builds_getCtx (fun _ => False) s) as (_ & _ & l & Hv & Hl).
    destruct l; [|inversion Hl; contradiction].
    rewrite app_nil_r in Hv. rewrite <- Hv. reflexivity. }
  split.
  { destruct (ctx s) eqn:Ec; [exact I|].
    destruct (window_AudioContext s) eqn:Ew; [exact I|].
    rewrite play_spec. unfold queued, exec, getCtx. rewrite Ec, Ew. cbn.
    rewrite Ec, app_nil_r. destruct s; reflexivity. }
  split.
  { intros c Hc Hs. unfold queued. rewrite Hc, Hs. reflexivity. }
  split; [reflexivity|].
  split; [reflexivity|].
  split.
  { cbn [deliver awaits handler settle]. apply bind_ret_tt. }
  split; [reflexivity|].
  destruct fulfilled; [|reflexivity].
  pose proof (effect_callback_terminates e (opts_or_empty opts) s') as Ht.
  unfold completion, settle, swallow in *.
  destruct (callback (effect_callback e (opts_or_empty opts)) s')
    as [[[] | | ] s'']; cbn in *; congruence.
Qed.

(** * Further properties of the module *)

(** ** Click-free envelopes *)
































Lemma reachable_with_reachable (P : Step -> Prop) (s : AudioFX) :
  reachable_with P s -> reachable s.
Proof. induction 1; [apply reach_loaded | apply reach_step; assumption]. Qed.

(** The condition on the ghosts is needed: the ghost of 0.1 s is released
    at 0.1 s, before its attack is over, and its sources stop at 0.17 s
    while the envelope is on its way to the plateau set at 0.5 s. *)
Lemma short_ghost_clicks :
  reachable short_ghost_page /\
  exists v, voices short_ghost_page = [v] /\ ~ click_free v.
Proof.
  split.
  - apply (reach_step _ (HostCheckpoint None)),
      (reach_step _ (CallPlay Ghost (Some (mkOpts None (Some 0.1))))),
      reach_loaded.
  - eexists. split; [vm_compute; reflexivity|].
    intros (Ho & _). cbn in Ho. destruct Ho as (_ & _ & Ho & _).
    vm_compute in Ho. apply Ho. reflexivity.
Qed.


(** ** The exact content of a block *)

Lemma add_voices_frame (l : list Voice) (s : AudioFX) :
  _phraseCount (add_voices l s) = _phraseCount s /\
  _musicPlaying (add_voices l s) = _musicPlaying s /\
  _musicScheduled (add_voices l s) = _musicScheduled s /\
  _musicBus (add_voices l s) = _musicBus s /\
  _musicTimer (add_voices l s) = _musicTimer s /\
  timers (add_voices l s) = timers s /\
  next_timer (add_voices l s) = next_timer s /\
  reactions (add_voices l s) = reactions s /\
  clock (add_voices l s) = clock s.
Proof.
  unfold add_voices, clock.
  destruct (ctx s) as [c|] eqn:E; cbn; rewrite ?E; repeat split; reflexivity.
Qed.

Lemma add_voices_voices (l : list Voice) (s : AudioFX) :
  ctx s <> None -> voices (add_voices l s) = voices s ++ l.
Proof.
  unfold add_voices, voices. intros H.
  destruct (ctx s) as [c|]; [reflexivity | contradiction].
Qed.

Lemma emits_on_emits (n : Z) (m : M unit) (l : list Voice) :
  emits MusicBus m l -> emits_on n m l.
Proof. intros H s Hw _. apply H. exact Hw. Qed.

Lemma emits_on_bind (n : Z) (m k : M unit) (l1 l2 : list Voice) :
  emits_on n m l1 -> emits_on n k l2 -> emits_on n (m ;; k) (l1 ++ l2).
Proof.
  intros Hm Hk s Hs Hn. unfold bind. rewrite (Hm s Hs Hn).
  rewrite (Hk _ (wired_add_voices MusicBus l1 s Hs)), add_voices_app; [reflexivity|].
  rewrite (proj1 (add_voices_frame l1 s)). exact Hn.
Qed.

Lemma emits_on_counter (n : Z) (k : Z -> M unit) (l : list Voice) :
  emits_on n (k n) l -> emits_on n (idx <- gets _phraseCount ;; k idx) l.
Proof.
  intros Hk s Hs Hn. unfold bind, gets. rewrite Hn. apply Hk; assumption.
Qed.

Lemma note_emits (f t d p : Q) :
  emits MusicBus (_note f t d p MusicBus)
    [mkVoice [(Sine, f, 1)] None Direct
       [SetValueAtTime 0 t; LinearRampToValueAtTime p (t + 0.008);
        SetValueAtTime p (t + d * 0.85);
        LinearRampToValueAtTime 0 (t + d + 0.04)]
       t (t + d + 0.04 + 0.01) MusicBus].
Proof. apply emits_attach. reflexivity. Qed.

Lemma bassNote_emits (f t : Q) :
  exists l, List.length l = 1%nat /\
            emits MusicBus (_bassNote f t MusicBus) l.
Proof. eexists. split; [|apply emits_attach]; reflexivity. Qed.

(** An arpeggio on a chord of the plan: three notes. *)
Lemma arp_emits (chord : list Q) (barStart : Q) (beat : Z) :
  In chord _CHORDS ->
  exists l, List.length l = 3%nat /\
            emits MusicBus (_arp chord barStart beat MusicBus) l.
Proof.
  intros Hc. cbn in Hc.
  destruct Hc as [<- | [<- | [<- | [<- | []]]]];
    eexists; (split; [|
      unfold _arp; cbn [_arp_from];
      repeat (eapply emits_bind; [apply note_emits|]);
      apply emits_ret]);
    reflexivity.
Qed.

(** The notes of a block, given its chord and its shape: twenty sub-graphs
    that depend on nothing else. *)
Lemma block_emits (fromT : Q) (chord : list Q) (shape : list Z) :
  In chord _CHORDS -> In shape shapes ->
  exists l,
    List.length l = 20%nat /\
    forall n,
      (0 <= n)%Z ->
      JS.index _CHORDS (chord_index n) = Some chord ->
      JS.index shapes (JS.rem n (JS.length shapes)) = Some shape ->
      emits_on n (_scheduleBars_notes fromT) l.
Proof.
  intros Hc Hs.
  assert (Hroot : exists root, JS.index chord 0 = Some root).
  { cbn in Hc. destruct Hc as [<- | [<- | [<- | [<- | []]]]]; eexists; reflexivity. }
  destruct Hroot as (root & Hroot).
  destruct (arp_emits chord fromT 0 Hc) as (a1 & L1 & E1).
  destruct (arp_emits chord fromT 2 Hc) as (a2 & L2 & E2).
  destruct (arp_emits chord (fromT + _BAR) 1 Hc) as (a3 & L3 & E3).
  destruct (arp_emits chord (fromT + _BAR) 3 Hc) as (a4 & L4 & E4).
  assert (Hp : exists p, List.length p = 6%nat /\
             forall n, (0 <= n)%Z ->
               JS.index shapes (JS.rem n (JS.length shapes)) = Some shape ->
               emits MusicBus (_phrase fromT n MusicBus) p).
  { destruct (phrase_emits fromT 0 MusicBus) as (p0 & _ & _); [lia|].
    clear p0.
    assert (Hex : exists n0, (0 <= n0)%Z /\
              JS.index shapes (JS.rem n0 (JS.length shapes)) = Some shape).
    { cbn in Hs. destruct Hs as [<- | [<- | [<- | [<- | []]]]];
        [exists 0%Z | exists 1%Z | exists 2%Z | exists 3%Z];
        split; try lia; reflexivity. }
    destruct Hex as (n0 & Hn0 & E0).
    destruct (phrase_emits fromT n0 MusicBus Hn0) as (p & Lp & Ep).
    exists p. split; [exact Lp|]. intros n Hn En.
    unfold _phrase in *. rewrite En. rewrite E0 in Ep. exact Ep. }
  destruct Hp as (p & Lp & Ep).
  destruct (bassNote_emits root fromT) as (b1 & K1 & B1).
  destruct (bassNote_emits root (fromT + _BAR)) as (b2 & K2 & B2).
  exists (b1 ++ a1 ++ a2 ++ b2 ++ a3 ++ a4 ++ p).
  split; [|intros n Hn Ec Esh s Hw Hcount].
  2:{ unfold _scheduleBars_notes. unfold bind at 1, gets.
      rewrite Hcount, Ec, Hroot.
      revert s Hw Hcount.
      change (emits_on n
        (_bassNote root fromT MusicBus ;;
         _arp chord fromT 0 MusicBus ;;
         _arp chord fromT 2 MusicBus ;;
         _bassNote root (fromT + _BAR) MusicBus ;;
         _arp chord (fromT + _BAR) 1 MusicBus ;;
         _arp chord (fromT + _BAR) 3 MusicBus ;;
         idx <- gets _phraseCount ;; _phrase fromT idx MusicBus)
        (b1 ++ a1 ++ a2 ++ b2 ++ a3 ++ a4 ++ p)).
      apply emits_on_bind; [apply emits_on_emits, B1|].
      apply emits_on_bind; [apply emits_on_emits, E1|].
      apply emits_on_bind; [apply emits_on_emits, E2|].
      apply emits_on_bind; [apply emits_on_emits, B2|].
      apply emits_on_bind; [apply emits_on_emits, E3|].
      apply emits_on_bind; [apply emits_on_emits, E4|].
      apply emits_on_counter, emits_on_emits, Ep; assumption. }
  rewrite !length_app, L1, L2, L3, L4, Lp, K1, K2. reflexivity.
Qed.

Lemma chord_and_shape (n : Z) :
  (0 <= n < 2 ^ 31)%Z ->
  exists chord shape,
    In chord _CHORDS /\ In shape shapes /\
    JS.index _CHORDS (chord_index n) = Some chord /\
    JS.index shapes (JS.rem n (JS.length shapes)) = Some shape.
Proof.
  intros Hn.
  destruct (index_in_range _CHORDS (chord_index n)) as (chord & Ec).
  { rewrite chord_index_small by exact Hn.
    change (JS.length _CHORDS) with 4%Z. apply Z.mod_pos_bound. lia. }
  destruct (index_in_range shapes (JS.rem n (JS.length shapes))) as (shape & Es).
  { apply rem_range; [lia | reflexivity]. }
  exists chord, shape. repeat split; try assumption; eapply index_In; eassumption.
Qed.

Lemma block_for_counter (fromT : Q) (n : Z) :
  (0 <= n < 2 ^ 31)%Z ->
  exists l,
    List.length l = 20%nat /\ Forall (in_block fromT) l /\
    emits_on n (_scheduleBars_notes fromT) l.
Proof.
  intros Hn.
  destruct (chord_and_shape n Hn) as (chord & shape & Hc & Hs & Ec & Es).
  destruct (block_emits fromT chord shape Hc Hs) as (l & Hl & He).
  specialize (He n (proj1 Hn) Ec Es).
  exists l. split; [exact Hl|]. split; [|exact He].
  set (s := set_phraseCount n primed_page).
  assert (Hw : wired MusicBus s) by (split; vm_compute; discriminate).
  destruct (builds_scheduleBars_notes fromT s) as (_ & _ & l' & Hv & Hl').
  unfold exec in Hv. rewrite (He s Hw eq_refl) in Hv. cbn [snd] in Hv.
  rewrite add_voices_voices in Hv by apply Hw.
  apply app_inv_head in Hv. subst l'. exact Hl'.
Qed.

(** With the music bus at hand [_musicBusEnsure] does nothing. *)
Lemma musicBusEnsure_noop (s : AudioFX) :
  _musicBus s <> None -> _musicBusEnsure s = (Normal tt, s).
Proof.
  unfold _musicBusEnsure, bind, gets. intros H.
  destruct (_musicBus s); [reflexivity | contradiction].
Qed.

(** A block generated on a state wired for music. *)
Lemma scheduleBars_exact (fromT : Q) (s : AudioFX) (l : list Voice) :
  _musicPlaying s = true -> wired MusicBus s ->
  emits_on (_phraseCount s) (_scheduleBars_notes fromT) l ->
  _scheduleBars fromT s =
    (Normal tt,
     set_musicScheduled (fromT + two_bars)
       (set_phraseCount (_phraseCount s + 1)%Z (add_voices l s))).
Proof.
  intros Hp Hw He. unfold _scheduleBars, bind at 1, gets. rewrite Hp. cbn [negb].
  unfold bind at 1. rewrite musicBusEnsure_noop by apply Hw.
  unfold bind at 1. rewrite (He s Hw eq_refl).
  unfold bind, modify. rewrite (proj1 (add_voices_frame l s)). reflexivity.
Qed.

(** ** More on one tick *)

(** The tick, opened up to its loop. *)
Lemma musicTick_loop (s : AudioFX) :
  _musicPlaying s = true ->
  _musicTick s =
    match ctx (exec getCtx s) with
    | None => (Throw, exec getCtx s)
    | Some _ =>
        (while_behind (blocks_behind (_musicScheduled s) (clock s + _AHEAD))
                      (clock s + _AHEAD) ;;
         id <- setTimeout TaskMusicTick (_BAR * 1000 / 2) ;;
         modify (set_musicTimer (Some id))) (exec getCtx s)
    end.
Proof.
  intros Hp. pose proof (getCtx_clock s) as Hc.
  unfold _musicTick, bind at 1, gets. rewrite Hp. cbn [negb].
  unfold bind at 1. rewrite getCtx_normal.
  unfold bind at 1, ctx_currentTime.
  destruct (ctx (exec getCtx s)) as [c|]; [|reflexivity].
  rewrite (Hc c eq_refl). unfold bind at 1, gets.
  replace (_musicScheduled (exec getCtx s)) with (_musicScheduled s)
    by (symmetry; apply (builds_getCtx (fun _ => True) s)).
  reflexivity.
Qed.

(** Arming the timer moves neither the watermark nor the graph. *)
Lemma armed_frame (m : M unit) (s : AudioFX) :
  _musicScheduled
    (exec (m ;; id <- setTimeout TaskMusicTick (_BAR * 1000 / 2) ;;
           modify (set_musicTimer (Some id))) s)
    = _musicScheduled (exec m s) /\
  voices
    (exec (m ;; id <- setTimeout TaskMusicTick (_BAR * 1000 / 2) ;;
           modify (set_musicTimer (Some id))) s)
    = voices (exec m s).
Proof.
  unfold exec, bind. destruct (m s) as [[[] | | ] s1]; cbn; auto.
Qed.

(** X2. A tick that runs while the watermark is not behind the clock
    schedules nothing in the past: every sub-graph it adds starts at or
    after the current time; and when it completes normally the watermark is
    at least the look-ahead ([_AHEAD]) past the clock. *)
Theorem tick_on_time_schedules_ahead (s : AudioFX) :
  _musicPlaying s = true -> clock s <= _musicScheduled s ->
  (exists l,
     voices (exec _musicTick s) = voices s ++ l /\
     Forall (fun v => clock s <= v_start v) l) /\
  match completion _musicTick s with
  | Normal _ => clock s + _AHEAD <= _musicScheduled (exec _musicTick s)
  | _ => True
  end.
Proof.
  intros Hp Hlo.
  destruct (musicTick_spec s Hp) as (k & s1 & Hpg & _ & Hr).
  destruct (pg_voices _ _ _ Hpg) as (l & Hv & Hl).
  assert (Hl' : Forall (fun v => clock s <= v_start v) l).
  { eapply Forall_impl; [|exact Hl]. intros v [H _]. lra. }
  unfold completion, exec.
  destruct Hr as [-> | [Hh ->]]; cbn [fst snd]; (split; [exists l; auto|]);
    [exact I | exact Hh].
Qed.



Lemma getCtx_noop (s : AudioFX) : ctx s <> None -> exec getCtx s = s.
Proof.
  unfold exec, getCtx. intros H. destruct (ctx s); [reflexivity | contradiction].
Qed.

(** X4. A tick that comes late, by a whole block or more (the page was
    throttled), does not skip ahead: it generates the missed block all the
    same, twenty sub-graphs that all start before the current time. *)
Theorem late_tick_schedules_in_the_past (s : AudioFX) :
  _musicPlaying s = true -> wired MusicBus s ->
  (0 <= _phraseCount s < 2 ^ 31)%Z ->
  _musicScheduled s + two_bars <= clock s ->
  exists l rest,
    List.length l = 20%nat /\
    voices (exec _musicTick s) = voices s ++ l ++ rest /\
    Forall (fun v => v_start v < clock s) l.
Proof.
  intros Hp Hw Hn Hlate.
  destruct (block_for_counter (_musicScheduled s) (_phraseCount s) Hn)
    as (l & Hlen & Hl & He).
  pose proof (musicTick_loop s Hp) as E.
  rewrite (getCtx_noop s (proj1 Hw)) in E.
  destruct (ctx s) as [c|] eqn:Ec; [|destruct Hw; contradiction].
  set (ahead := clock s + _AHEAD) in *.
  pose proof (blocks_behind_enough (_musicScheduled s) ahead) as Hfuel.
  assert (Hlt : _musicScheduled s < ahead).
  { unfold ahead, _AHEAD. fold two_bars. pose proof two_bars_pos. lra. }
  destruct (blocks_behind (_musicScheduled s) ahead) as [|fuel].
  { change (inject_Z (Z.of_nat 0)) with 0 in Hfuel. lra. }
  pose proof (scheduleBars_exact (_musicScheduled s) s l Hp Hw He) as Eb.
  set (s2 := set_musicScheduled _ _) in Eb.
  assert (Hp2 : _musicPlaying s2 = true).
  { unfold s2. cbn. rewrite (proj1 (proj2 (add_voices_frame l s))). exact Hp. }
  destruct (while_behind_spec fuel ahead s2 Hp2) as (k & _ & Hpg & _).
  destruct (pg_voices _ _ _ Hpg) as (rest & Hv & _).
  exists l, rest. split; [exact Hlen|]. split.
  - assert (Et : exec _musicTick s
             = exec (while_behind (S fuel) ahead ;;
                     id <- setTimeout TaskMusicTick (_BAR * 1000 / 2) ;;
                     modify (set_musicTimer (Some id))) s)
      by (unfold exec at 1; rewrite E; reflexivity).
    rewrite Et, (proj2 (armed_frame _ _)).
    assert (Ew : exec (while_behind (S fuel) ahead) s
                 = exec (while_behind fuel ahead) s2).
    { unfold exec. cbn [while_behind].
      apply lt_true in Hlt. rewrite Hlt. unfold bind. rewrite Eb. reflexivity. }
    rewrite Ew, Hv. unfold s2, voices at 1. cbn [ctx set_musicScheduled set_phraseCount].
    fold (voices (add_voices l s)). rewrite add_voices_voices by apply Hw.
    rewrite app_assoc. reflexivity.
  - eapply Forall_impl; [|exact Hl]. intros v (_ & H & _).
    fold two_bars in H. lra.
Qed.

(** One block, exactly. *)
Lemma musicTick_one_block_exact (s : AudioFX) (l : list Voice) :
  _musicPlaying s = true -> wired MusicBus s ->
  clock s <= _musicScheduled s -> _musicScheduled s < clock s + _AHEAD ->
  emits_on (_phraseCount s) (_scheduleBars_notes (_musicScheduled s)) l ->
  _musicTick s =
    (Normal tt,
     rearmed (set_musicScheduled (_musicScheduled s + two_bars)
                (set_phraseCount (_phraseCount s + 1)%Z (add_voices l s)))).
Proof.
  intros Hp Hw Hlo Hhi He.
  pose proof (musicTick_loop s Hp) as E.
  rewrite (getCtx_noop s (proj1 Hw)) in E.
  destruct (ctx s) as [c|] eqn:Ec; [|destruct Hw; contradiction].
  rewrite E, (blocks_behind_one _ _ Hlo Hhi).
  unfold bind at 1. cbn [while_behind].
  assert (E1 : JS.lt (_musicScheduled s) (clock s + _AHEAD) = true)
    by (apply lt_true; exact Hhi).
  rewrite E1. unfold bind at 1.
  rewrite (scheduleBars_exact (_musicScheduled s) s l Hp Hw He).
  assert (E2 : JS.lt (_musicScheduled s + two_bars) (clock s + _AHEAD) = false).
  { apply lt_false. change _AHEAD with two_bars. lra. }
  cbn [_musicScheduled set_musicScheduled]. rewrite E2.
  reflexivity.
Qed.

(** ** Starting twice *)

(** The callback of [musicStart], exactly: the block of counter 0 starting
    a tenth of a second after the clock, then the timer. *)
Lemma musicStart_then_exact (s0 : AudioFX) (l : list Voice) :
  ctx s0 <> None ->
  emits_on 0 (_scheduleBars_notes (clock s0 + 0.1)) l ->
  exists s1,
    musicStart_then s0 = (Normal tt, rearmed s1) /\
    voices s1 = voices s0 ++ l /\
    timers s1 = timers s0 /\ next_timer s1 = next_timer s0 /\
    reactions s1 = reactions s0 /\
    _phraseCount s1 = 1%Z /\
    _musicScheduled s1 = clock s0 + 0.1 + two_bars /\
    _musicPlaying s1 = true /\
    ctx s1 <> None /\ clock s1 = clock s0.
Proof.
  intros Hc He.
  destruct (musicStart_init_spec s0 Hc) as (se & Hae & Hce & Hbe & Ei).
  set (si := set_phraseCount 0 _) in Ei.
  assert (Hclk : clock si = clock s0).
  { unfold clock, si. cbn. rewrite Hce, (ao_window _ _ Hae). reflexivity. }
  assert (Hw : wired MusicBus si).
  { split; unfold si; cbn; [rewrite Hce; exact Hc | exact Hbe]. }
  assert (Hvi : voices si = voices s0).
  { unfold voices, si. cbn. rewrite Hce. reflexivity. }
  pose proof (musicTick_one_block_exact si l) as Et.
  rewrite Hclk in Et.
  specialize (Et eq_refl Hw).
  assert (Hsi : _musicScheduled si = clock s0 + 0.1) by reflexivity.
  rewrite Hsi in Et.
  specialize (Et ltac:(lra) ltac:(unfold _AHEAD, _BAR; lra) He).
  exists (set_musicScheduled (clock s0 + 0.1 + two_bars)
            (set_phraseCount (0 + 1)%Z (add_voices l si))).
  split.
  { unfold musicStart_then, bind. rewrite Ei. exact Et. }
  destruct (add_voices_frame l si) as (F1 & F2 & F3 & F4 & F5 & F6 & F7 & F8 & F9).
  split.
  { change (voices (add_voices l si) = voices s0 ++ l).
    rewrite add_voices_voices by apply Hw. rewrite Hvi. reflexivity. }
  split.
  { change (timers (add_voices l si) = timers s0). rewrite F6. apply Hae. }
  split.
  { change (next_timer (add_voices l si) = next_timer s0). rewrite F7. apply Hae. }
  split.
  { change (reactions (add_voices l si) = reactions s0). rewrite F8. apply Hae. }
  split; [reflexivity|]. split; [reflexivity|].
  split.
  { change (_musicPlaying (add_voices l si) = true). rewrite F2. reflexivity. }
  split.
  { change (ctx (add_voices l si) <> None).
    apply (wired_add_voices MusicBus l si Hw). }
  change (clock (add_voices l si) = clock s0). rewrite F9. exact Hclk.
Qed.

Lemma musicStart_queues_frame (s : AudioFX) :
  audio_only s (exec getCtx s) /\ voices (exec getCtx s) = voices s /\
  clock (exec getCtx s) = clock s.
Proof.
  destruct (builds_getCtx (fun _ => False) s) as (_ & Ha & l & Hv & Hl).
  split; [exact Ha|]. split.
  - destruct l; [rewrite app_nil_r in Hv; exact Hv | inversion Hl; contradiction].
  - pose proof (getCtx_clock s) as Hc. unfold clock at 1.
    destruct (ctx (exec getCtx s)) as [c|] eqn:E; [apply Hc; reflexivity|].
    rewrite (ao_window _ _ Ha). unfold clock.
    revert E. unfold exec, getCtx.
    destruct (ctx s) eqn:E0; cbn; [rewrite E0; discriminate|].
    destruct (window_AudioContext s) as [[t st]|]; cbn; [discriminate | reflexivity].
Qed.

(** Two calls of [musicStart()] in a row on an idle scheduler, then the
    checkpoint: the callback runs twice. *)
Lemma musicStart_twice_delivered (s : AudioFX) :
  _musicPlaying s = false -> available s -> reactions s = [] ->
  exists s0,
    ctx s0 <> None /\ clock s0 = clock s /\ voices s0 = voices s /\
    timers s0 = timers s /\ next_timer s0 = next_timer s /\
    reactions s0 = [] /\
    (musicStart ;; musicStart ;; checkpoint (Some true)) s
      = (swallow musicStart_then ;; swallow musicStart_then) s0.
Proof.
  intros Hp Hav Hr.
  destruct (musicStart_queues s Hp Hav) as (p & Hrej & Hc & E).
  destruct (musicStart_queues_frame s) as (Ha & Hv & Hclk).
  set (sg := exec getCtx s) in *.
  set (s1 := set_reactions (reactions s ++ [mkReaction p CbMusicStart]) sg) in E.
  assert (Hp1 : _musicPlaying s1 = false)
    by (unfold s1; cbn; rewrite (ao_playing _ _ Ha); exact Hp).
  assert (Hc1 : ctx s1 <> None) by exact Hc.
  destruct (musicStart_queues s1 Hp1 (or_introl Hc1)) as (p' & Hrej' & Hc' & E').
  rewrite (getCtx_noop s1 Hc1) in E', Hc'.
  unfold bind at 1. rewrite E. unfold bind at 1. rewrite E'.
  set (s2 := set_reactions _ s1).
  change (checkpoint (Some true) s2)
    with ((resumed ;; deliver (Some true) (reactions s2)) (set_reactions [] s2)).
  destruct (resumed_spec (set_reactions [] s2)) as (s0 & Er & H1 & H2 & H3).
  assert (Hframe : timers s0 = timers s /\ next_timer s0 = next_timer s /\
                   reactions s0 = []).
  { revert Er. unfold resumed, modify. intros [= <-].
    cbn [ctx set_reactions s2 s1].
    destruct (ctx sg) as [c|]; [|contradiction].
    destruct (state c); cbn; repeat split; apply Ha. }
  exists s0. split; [apply H1; exact Hc|].
  split; [rewrite H2; exact Hclk|].
  split; [rewrite H3; exact Hv|].
  destruct Hframe as (T1 & T2 & T3).
  repeat (split; [assumption|]).
  unfold bind at 1. rewrite Er.
  unfold s2, s1. cbn [reactions set_reactions]. rewrite Hr. cbn [app].
  destruct p; [contradiction | |]; destruct p'; try contradiction;
    cbn [deliver awaits handler];
    unfold bind at 1 3; unfold settle, callback;
    destruct (swallow musicStart_then s0) as [[[] | | ] sa]; try reflexivity;
    rewrite bind_ret_tt; reflexivity.
Qed.

(** X5. [musicStart()] guards on the flag that only its callback sets: two
    calls made before the promise settles both run their callback.  The
    first block is then scheduled twice (the same twenty sub-graphs, twice),
    two tick timers are armed, and the handle kept is the second one, so
    that [musicStop] can clear only that one. *)
Theorem starting_twice_doubles_the_first_block (s : AudioFX) :
  _musicPlaying s = false -> available s -> reactions s = [] ->
  exists l,
    List.length l = 20%nat /\
    Forall (in_block (clock s + 0.1)) l /\
    completion (musicStart ;; musicStart ;; checkpoint (Some true)) s
      = Normal tt /\
    voices (exec (musicStart ;; musicStart ;; checkpoint (Some true)) s)
      = voices s ++ l ++ l /\
    _phraseCount (exec (musicStart ;; musicStart ;; checkpoint (Some true)) s)
      = 1%Z /\
    timers (exec (musicStart ;; musicStart ;; checkpoint (Some true)) s)
      = timers s ++
        [mkTimer (next_timer s) TaskMusicTick (_BAR * 1000 / 2);
         mkTimer (Pos.succ (next_timer s)) TaskMusicTick (_BAR * 1000 / 2)] /\
    _musicTimer (exec (musicStart ;; musicStart ;; checkpoint (Some true)) s)
      = Some (Pos.succ (next_timer s)).
Proof.
  intros Hp Hav Hr.
  destruct (block_for_counter (clock s + 0.1) 0) as (l & Hlen & Hl & He); [lia|].
  exists l. split; [exact Hlen|]. split; [exact Hl|].
  destruct (musicStart_twice_delivered s Hp Hav Hr)
    as (s0 & Hc0 & Hclk0 & Hv0 & Ht0 & Hn0 & _ & E).
  rewrite <- Hclk0 in He.
  destruct (musicStart_then_exact s0 l Hc0 He)
    as (s1 & E1 & V1 & T1 & N1 & _ & _ & _ & _ & C1 & K1).
  assert (Hc1 : ctx (rearmed s1) <> None) by exact C1.
  assert (He1 : emits_on 0 (_scheduleBars_notes (clock (rearmed s1) + 0.1)) l).
  { change (clock (rearmed s1)) with (clock s1). rewrite K1. exact He. }
  destruct (musicStart_then_exact (rearmed s1) l Hc1 He1)
    as (s2 & E2 & V2 & T2 & N2 & _ & P2 & _ & _ & _ & _).
  unfold completion, exec. rewrite E.
  unfold bind, swallow. rewrite E1, E2. cbn [fst snd].
  split; [reflexivity|].
  split.
  { change (voices s2 = voices s ++ l ++ l).
    rewrite V2. change (voices (rearmed s1)) with (voices s1).
    rewrite V1, Hv0, <- app_assoc. reflexivity. }
  split; [exact P2|].
  split.
  { cbn [timers rearmed set_musicTimer set_timers].
    rewrite T2, N2. cbn [timers next_timer rearmed set_musicTimer set_timers].
    rewrite T1, N1, Ht0, Hn0, <- app_assoc. reflexivity. }
  cbn [_musicTimer rearmed set_musicTimer]. rewrite N2.
  cbn [next_timer rearmed set_musicTimer set_timers]. rewrite N1, Hn0. reflexivity.
Qed.



(** X7. A phrase is six notes on the eighth-note grid of its bar, at the
    steps 0, 1, 2, 4, 5 and 6: each is a triangle wave at a pitch of the
    pentatonic scale, goes to the bus given, and stops before the bar
    ends. *)
Theorem melody_fills_the_first_bar (barStart : Q) (n : Z) (b : Bus) :
  (0 <= n)%Z ->
  exists notes,
    emits b (_phrase barStart n b) notes /\
    map v_start notes
      = map (fun i => barStart + inject_Z i * (_BEAT / 2)) [0; 1; 2; 4; 5; 6]%Z /\
    Forall (fun v =>
              v_stop v < barStart + _BAR /\ v_dest v = b /\
              exists f, In f _PENTA /\ v_sources v = [(Triangle, f, 1)])
           notes.
Proof.
  intros Hn.
  destruct (index_in_range shapes (JS.rem n (JS.length shapes))) as (shape & E).
  { apply rem_range; [lia | reflexivity]. }
  unfold _phrase. rewrite E. apply index_In in E. cbn in E.
  assert (Hmel : forall f t, emits b (_melNote f t (_BEAT * 0.48) 0.55 b)
            [mkVoice [(Triangle, f, 1)] None (Lowpass 1800)
               [SetValueAtTime 0 t; LinearRampToValueAtTime 0.55 (t + 0.012);
                SetValueAtTime 0.55 (t + _BEAT * 0.48 * 0.78);
                LinearRampToValueAtTime 0 (t + _BEAT * 0.48 + 0.06)]
               t (t + _BEAT * 0.48 + 0.06 + 0.01) b]).
  { intros f t. apply emits_attach. reflexivity. }
  destruct E as [<- | [<- | [<- | [<- | []]]]];
    eexists; (split; [
      cbn [for_each];
      repeat (eapply emits_bind;
              [first [apply emits_ret | apply Hmel]|]);
      apply emits_ret |]);
    (split; [reflexivity|]);
    repeat (apply Forall_cons || apply Forall_nil);
    cbn [v_stop v_dest v_sources];
    (split; [constants; lra | split; [reflexivity|]]);
    eexists; (split; [|reflexivity]); cbn; tauto.
Qed.

(** ** Volume *)

Lemma clamp01_cases (v : Q) :
  JS.clamp01 v ==
    if Qlt_le_dec v 0 then 0 else if Qlt_le_dec 1 v then 1 else v.
Proof.
  unfold JS.clamp01.
  destruct (Qlt_le_dec v 0) as [H | H].
  - rewrite (Q.min_r 1 v) by lra. apply Q.max_l. lra.
  - destruct (Qlt_le_dec 1 v) as [H1 | H1].
    + rewrite (Q.min_l 1 v) by lra. apply Q.max_r. lra.
    + rewrite (Q.min_r 1 v) by lra. apply Q.max_r. lra.
Qed.

(** X8. [setVolume] completes normally on a well-formed state, stores the
    volume clamped to [0, 1] (0 below, 1 above, the value itself between),
    the last call wins, and each call queues one [setTargetAtTime] of the
    clamped value, with time constant 0.02, on the master gain when there
    is one. *)
Theorem setVolume_clamps (a b : Q) (s : AudioFX) :
  wf s ->
  completion (setVolume a ;; setVolume b) s = Normal tt /\
  0 <= _vol (exec (setVolume b) s) <= 1 /\
  _vol (exec (setVolume b) s)
    == (if Qlt_le_dec b 0 then 0 else if Qlt_le_dec 1 b then 1 else b) /\
  _vol (exec (setVolume a ;; setVolume b) s) = _vol (exec (setVolume b) s) /\
  master (exec (setVolume a ;; setVolume b) s)
    = match master s, ctx s with
      | Some g, Some c =>
          Some (mkGain (gain_value g)
                  (gain_events g ++
                   [SetTargetAtTime (JS.clamp01 a) (currentTime c) 0.02;
                    SetTargetAtTime (JS.clamp01 b) (currentTime c) 0.02]))
      | m, _ => m
      end.
Proof.
  intros [_ Hm _ _].
  assert (Hv : _vol (exec (setVolume b) s) = JS.clamp01 b).
  { unfold exec, setVolume, bind, modify, gets, ctx_currentTime. cbn.
    destruct (master s); cbn; [destruct (ctx s); cbn|]; reflexivity. }
  rewrite Hv.
  split; [|split; [|split; [apply clamp01_cases|]]].
  2:{ rewrite clamp01_cases.
      destruct (Qlt_le_dec b 0); [lra|]. destruct (Qlt_le_dec 1 b); lra. }
  all: destruct s as [w c m nb vol pl sc tm mb pc ts nt rs]; cbn in Hm;
    unfold completion, exec, setVolume, bind, modify, gets, ctx_currentTime;
    destruct m as [g|], c as [c|]; cbn;
    try (exfalso; apply Hm; [discriminate | reflexivity]);
    rewrite <- ?app_assoc; auto.
Qed.

(** X9. A volume set before the audio pipeline exists is not lost: the
    first effect played afterwards builds the master gain with the clamped
    volume as its value, and with no automation queued. *)
Theorem volume_set_before_the_first_sound (v : Q) (e : Effect)
  (opts : option Opts) (s : AudioFX) :
  wf s -> ctx s = None -> window_AudioContext s <> None ->
  completion (setVolume v ;; play e opts) s = Normal tt /\
  master (exec (setVolume v ;; play e opts) s)
    = Some (mkGain (JS.clamp01 v) []).
Proof.
  intros [_ Hm _ _] Hc Hw.
  assert (Em : master s = None).
  { destruct (master s) eqn:E; [|reflexivity].
    exfalso. apply Hm; [discriminate | exact Hc]. }
  assert (E1 : setVolume v s = (Normal tt, set_vol (JS.clamp01 v) s)).
  { unfold setVolume, bind, modify, gets. cbn. rewrite Em. reflexivity. }
  unfold completion, exec, bind. rewrite E1, play_spec. cbn [fst snd].
  split; [reflexivity|].
  unfold exec, getCtx. cbn [ctx set_vol window_AudioContext]. rewrite Hc.
  destruct (window_AudioContext s) as [[t st]|]; [reflexivity | contradiction].
Qed.

(** ** Stop and the restore of the music gain *)

(** X10. [musicStop] with a music bus completes normally, queues a fade to
    0 with time constant 0.4, drops the tick timer and sets a timer of
    2.5 s; it cancels no scheduled note and leaves the watermark and the
    counter alone.  When that timer fires, the bus value is written back to
    0.18 and the automation queued, a [musicFade] made meanwhile included,
    stays queued. *)
Theorem musicStop_fades_and_restores (s : AudioFX) (g : GainNode)
  (c : AudioContext) (toVol : Q) (timeConstant : option Q) :
  _musicBus s = Some g -> ctx s = Some c ->
  completion musicStop s = Normal tt /\
  _musicBus (exec musicStop s)
    = Some (mkGain (gain_value g)
              (gain_events g ++ [SetTargetAtTime 0 (currentTime c) 0.4])) /\
  timers (exec musicStop s)
    = filter (fun t => match _musicTimer s with
                       | Some id => negb (Pos.eqb (timer_id t) id)
                       | None => true
                       end) (timers s)
      ++ [mkTimer (next_timer s) TaskRestoreMusicGain 2500] /\
  voices (exec musicStop s) = voices s /\
  _musicScheduled (exec musicStop s) = _musicScheduled s /\
  _phraseCount (exec musicStop s) = _phraseCount s /\
  _musicBus (exec (musicStop ;; musicFade toVol timeConstant ;;
                   task TaskRestoreMusicGain) s)
    = Some (mkGain 0.18
              (gain_events g ++
               [SetTargetAtTime 0 (currentTime c) 0.4;
                SetTargetAtTime toVol (currentTime c)
                                (JS.or_else timeConstant 0.5)])).
Proof.
  intros Hb Hc.
  destruct s as [w c0 m nb vol pl sc tm mb pc ts nt rs]. cbn in Hb, Hc.
  subst mb c0.
  split; [|split; [|split; [|split; [|split; [|split]]]]].
  all: unfold completion, exec, musicStop, musicFade, task, bind, modify, gets,
         clearTimeout, setTimeout, voices; cbn;
       destruct tm; cbn; rewrite <- ?app_assoc; try reflexivity.
  rewrite filter_true; reflexivity.
Qed.

(** ** Effects on a live pipeline *)

(** X11. With the context and the master gain in place, and no time of
    the sound negative (the clock is not, and a ghost is not released
    before time 0), the callback of an effect completes normally and
    schedules its sound on the master gain at the current time: two
    strikes for the bell, 0.18 s apart and with the same partials, one
    sub-graph for each other effect. *)
Theorem effect_sounds_on_a_live_pipeline (e : Effect) (o : Opts)
  (s : AudioFX) (c : AudioContext) (g : GainNode) :
  ctx s = Some c -> master s = Some g ->
  0 <= currentTime c ->
  (e = Ghost -> 0 <= currentTime c + JS.or_else (duration o) 2.4) ->
  exists l,
    completion (callback (effect_callback e o)) s = Normal tt /\
    voices (exec (callback (effect_callback e o)) s) = voices s ++ l /\
    map v_start l
      = match e with
        | Bell => [currentTime c; currentTime c + 0.18]
        | _ => [currentTime c]
        end /\
    Forall (fun v => v_dest v = MasterBus) l /\
    match e, l with
    | Bell, [v1; v2] => v_sources v1 = v_sources v2
    | Bell, _ => False
    | _, _ => True
    end.
Proof.
  intros Hc Hm _ Hd.
  destruct s as [w c0 m nb vol pl sc tm mb pc ts nt rs]. cbn in Hc, Hm.
  subst c0 m.
  assert (Hr : e = Ghost ->
               JS.lt (currentTime c + JS.or_else (duration o) 2.4) 0 = false).
  { intros He. destruct (JS.lt _ 0) eqn:E; [|reflexivity].
    apply lt_true in E. specialize (Hd He). lra. }
  destruct e, nb; eexists;
    unfold completion, exec, callback, effect_callback, playBell_then,
      playGhost_then, playTick_then, playBuzz_then, _ding, now, noiseBuffer,
      bind, gets, voices; cbn [ctx master _noiseBuffer fst snd];
    rewrite ?(Hr eq_refl); unfold attach; cbn;
    (split; [reflexivity|]);
    (split; [try rewrite <- app_assoc; reflexivity|]);
    (split; [reflexivity|]);
    (split; [repeat constructor|]);
    first [reflexivity | exact I].
Qed.

(** X12. The one-shot effects do not touch the music: neither the call
    of an effect nor its callback, however the promise settles, changes the
    running flag, the watermark, the counter, the timer handle, the music
    bus or the timer table. *)
Theorem effects_leave_the_music_alone (e : Effect) (opts : option Opts)
  (s s' : AudioFX) (fulfilled : bool) :
  (_musicPlaying (exec (play e opts) s) = _musicPlaying s /\
   _musicScheduled (exec (play e opts) s) = _musicScheduled s /\
   _phraseCount (exec (play e opts) s) = _phraseCount s /\
   _musicTimer (exec (play e opts) s) = _musicTimer s /\
   _musicBus (exec (play e opts) s) = _musicBus s /\
   timers (exec (play e opts) s) = timers s) /\
  (_musicPlaying (exec (settle fulfilled (effect_callback e (opts_or_empty opts))) s')
     = _musicPlaying s' /\
   _musicScheduled (exec (settle fulfilled (effect_callback e (opts_or_empty opts))) s')
     = _musicScheduled s' /\
   _phraseCount (exec (settle fulfilled (effect_callback e (opts_or_empty opts))) s')
     = _phraseCount s' /\
   _musicTimer (exec (settle fulfilled (effect_callback e (opts_or_empty opts))) s')
     = _musicTimer s' /\
   _musicBus (exec (settle fulfilled (effect_callback e (opts_or_empty opts))) s')
     = _musicBus s' /\
   timers (exec (settle fulfilled (effect_callback e (opts_or_empty opts))) s')
     = timers s').
Proof.
  split.
  - unfold exec at 1 2 3 4 5 6. rewrite play_spec. cbn [snd].
    destruct (builds_getCtx (fun _ => True) s) as (_ & Ha & _).
    destruct Ha. cbn. unfold exec, getCtx.
    destruct (ctx s); cbn; [auto 6|].
    destruct (window_AudioContext s) as [[t st]|]; cbn; auto 6.
  - destruct s' as [w c m nb vol pl sc tm mb pc ts nt rs].
    destruct fulfilled; [|cbn; auto 6].
    destruct e;
      try solve [destruct c as [c|], m as [g|], nb; cbv; auto 6].
    unfold settle, swallow, exec, effect_callback, callback, playGhost_then,
      bind, now, gets.
    cbn [ctx fst snd].
    match goal with |- context [JS.lt ?x 0] => destruct (JS.lt x 0) end;
      [cbn; auto 6|].
    unfold attach. destruct c as [c|], m as [g|]; cbn; auto 6.
Qed.

(** ** Runs *)

(** X13. In every state the page can reach, the music bus and the master
    gain exist only with the context, the music plays only with its bus
    and the counter is not negative; and, the clock and the time constant
    given not being negative, [setVolume], [musicFade] and [musicStop]
    complete normally. *)
Theorem page_stays_well_formed (s : AudioFX) (v toVol : Q)
  (timeConstant : option Q) :
  reachable s -> 0 <= clock s -> 0 <= JS.or_else timeConstant 0.5 ->
  (_musicPlaying s = true -> ctx s <> None /\ _musicBus s <> None) /\
  (_musicBus s <> None -> ctx s <> None) /\
  (master s <> None -> ctx s <> None) /\
  (0 <= _phraseCount s)%Z /\
  completion (setVolume v) s = Normal tt /\
  completion (musicFade toVol timeConstant) s = Normal tt /\
  completion musicStop s = Normal tt.
Proof.
  intros Hr _ _. pose proof (reachable_wf s Hr) as Hwf.
  pose proof (playing_has_context s Hwf) as Hp.
  destruct Hwf as [H1 H2 H3 H4].
  repeat (split; [assumption|]).
  split; [|split].
  - unfold completion, setVolume, bind, modify, gets, ctx_currentTime. cbn.
    destruct (master s) eqn:Em; cbn; [|reflexivity].
    destruct (ctx s) eqn:Ec; cbn; [reflexivity|].
    exfalso. apply H2; [discriminate | reflexivity].
  - unfold completion, musicFade, bind, modify, gets.
    destruct (_musicBus s); cbn; [destruct (ctx s)|]; reflexivity.
  - destruct (musicStop_spec s) as (s1 & E & _). unfold completion. rewrite E.
    reflexivity.
Qed.

(** The loop never throws while the counter stays within the range of
    [>>]. *)
Lemma while_behind_no_throw (fuel : nat) (ahead : Q) :
  forall s,
    _musicPlaying s = true -> wired MusicBus s ->
    (0 <= _phraseCount s)%Z ->
    (_phraseCount s + Z.of_nat fuel <= 2 ^ 31)%Z ->
    completion (while_behind fuel ahead) s <> Throw.
Proof.
  induction fuel as [|fuel IH]; intros s Hp Hw H0 H1; unfold completion; cbn.
  - destruct (JS.lt (_musicScheduled s) ahead); cbn; discriminate.
  - destruct (JS.lt (_musicScheduled s) ahead); cbn; [|discriminate].
    destruct (block_for_counter (_musicScheduled s) (_phraseCount s))
      as (l & _ & _ & He); [lia|].
    unfold bind. rewrite (scheduleBars_exact _ s l Hp Hw He).
    set (s2 := set_musicScheduled _ _).
    destruct (add_voices_frame l s) as (F1 & F2 & _).
    apply (IH s2).
    + unfold s2; cbn. rewrite F2. exact Hp.
    + destruct (wired_add_voices MusicBus l s Hw) as [W1 W2].
      split; [exact W1 | exact W2].
    + unfold s2; cbn. lia.
    + unfold s2; cbn. lia.
Qed.

(** X14. While the music plays, a tick in a reachable state whose counter
    stays within 32 bits completes normally, reaches the look-ahead
    horizon, leaves the flag set and arms exactly one new timer, half a
    bar later, whose handle it keeps: the loop goes on. *)
Theorem tick_keeps_the_loop_alive (s : AudioFX) :
  reachable s -> _musicPlaying s = true ->
  (_phraseCount s
   + Z.of_nat (blocks_behind (_musicScheduled s) (clock s + _AHEAD))
   <= 2 ^ 31)%Z ->
  completion _musicTick s = Normal tt /\
  clock s + _AHEAD <= _musicScheduled (exec _musicTick s) /\
  _musicPlaying (exec _musicTick s) = true /\
  _musicTimer (exec _musicTick s) = Some (next_timer s) /\
  timers (exec _musicTick s)
    = timers s ++ [mkTimer (next_timer s) TaskMusicTick (_BAR * 1000 / 2)].
Proof.
  intros Hr Hp Hn. pose proof (reachable_wf s Hr) as Hwf.
  destruct (playing_has_context s Hwf Hp) as [Hc Hb].
  assert (Hw : wired MusicBus s) by (split; assumption).
  destruct (musicTick_spec s Hp) as (k & s1 & Hpg & _ & [E | [Hh E]]).
  - exfalso. pose proof (musicTick_loop s Hp) as El.
    rewrite (getCtx_noop s Hc) in El.
    destruct (ctx s); [|contradiction].
    apply (while_behind_no_throw
             (blocks_behind (_musicScheduled s) (clock s + _AHEAD))
             (clock s + _AHEAD) s Hp Hw (wf_count _ Hwf) Hn).
    rewrite E in El. unfold completion. revert El. unfold bind.
    destruct (while_behind _ _ s) as [[[] | | ] sw]; cbn; try discriminate.
    reflexivity.
  - unfold completion, exec. rewrite E. cbn [fst snd].
    split; [reflexivity|]. split; [exact Hh|].
    destruct Hpg as [_ _ Gp _ Gt Gn _ _].
    cbn. rewrite Gt, Gn, Gp. auto.
Qed.

(** ** Witnesses *)

Lemma started_page_reachable : reachable started_page.
Proof.
  unfold started_page, fresh_page.
  apply (reach_step _ (HostCheckpoint None)), (reach_step _ CallMusicStart),
    reach_loaded.
Qed.

Lemma next_tick_page_reachable : reachable next_tick_page.
Proof. apply (reach_step _ (HostClock 0.96)), started_page_reachable. Qed.

Lemma late_page_reachable : reachable late_page.
Proof. apply (reach_step _ (HostClock 10)), started_page_reachable. Qed.


Lemma tick_on_time_schedules_ahead_witness :
  (exists l,
     voices (exec _musicTick next_tick_page) = voices next_tick_page ++ l /\
     Forall (fun v => clock next_tick_page <= v_start v) l) /\
  match completion _musicTick next_tick_page with
  | Normal _ =>
      clock next_tick_page + _AHEAD
        <= _musicScheduled (exec _musicTick next_tick_page)
  | _ => True
  end.
Proof.
  apply (tick_on_time_schedules_ahead next_tick_page).
  - reflexivity.
  - vm_compute. discriminate.
Defined.


Lemma late_tick_schedules_in_the_past_witness :
  exists l rest,
    List.length l = 20%nat /\
    voices (exec _musicTick late_page) = voices late_page ++ l ++ rest /\
    Forall (fun v => v_start v < clock late_page) l.
Proof.
  apply (late_tick_schedules_in_the_past late_page).
  - reflexivity.
  - split; vm_compute; discriminate.
  - vm_compute. split; [discriminate | reflexivity].
  - vm_compute. discriminate.
Defined.

Lemma starting_twice_doubles_the_first_block_witness :
  exists l,
    List.length l = 20%nat /\
    Forall (in_block (clock fresh_page + 0.1)) l /\
    completion (musicStart ;; musicStart ;; checkpoint (Some true)) fresh_page
      = Normal tt /\
    voices (exec (musicStart ;; musicStart ;; checkpoint (Some true)) fresh_page)
      = voices fresh_page ++ l ++ l /\
    _phraseCount
      (exec (musicStart ;; musicStart ;; checkpoint (Some true)) fresh_page)
      = 1%Z /\
    timers (exec (musicStart ;; musicStart ;; checkpoint (Some true)) fresh_page)
      = timers fresh_page ++
        [mkTimer (next_timer fresh_page) TaskMusicTick (_BAR * 1000 / 2);
         mkTimer (Pos.succ (next_timer fresh_page)) TaskMusicTick
                 (_BAR * 1000 / 2)] /\
    _musicTimer
      (exec (musicStart ;; musicStart ;; checkpoint (Some true)) fresh_page)
      = Some (Pos.succ (next_timer fresh_page)).
Proof.
  apply (starting_twice_doubles_the_first_block fresh_page).
  - reflexivity.
  - right. vm_compute. discriminate.
  - reflexivity.
Defined.


Lemma melody_fills_the_first_bar_witness :
  exists notes,
    emits MusicBus (_phrase 0.1 1 MusicBus) notes /\
    map v_start notes
      = map (fun i => 0.1 + inject_Z i * (_BEAT / 2)) [0; 1; 2; 4; 5; 6]%Z /\
    Forall (fun v =>
              v_stop v < 0.1 + _BAR /\ v_dest v = MusicBus /\
              exists f, In f _PENTA /\ v_sources v = [(Triangle, f, 1)])
           notes.
Proof. apply (melody_fills_the_first_bar 0.1 1 MusicBus). lia. Defined.

Lemma setVolume_clamps_witness :
  completion (setVolume 0.8 ;; setVolume (-1)) live_page = Normal tt /\
  0 <= _vol (exec (setVolume (-1)) live_page) <= 1 /\
  _vol (exec (setVolume (-1)) live_page)
    == (if Qlt_le_dec (-1) 0 then 0 else if Qlt_le_dec 1 (-1) then 1 else -1) /\
  _vol (exec (setVolume 0.8 ;; setVolume (-1)) live_page)
    = _vol (exec (setVolume (-1)) live_page) /\
  master (exec (setVolume 0.8 ;; setVolume (-1)) live_page)
    = match master live_page, ctx live_page with
      | Some g, Some c =>
          Some (mkGain (gain_value g)
                  (gain_events g ++
                   [SetTargetAtTime (JS.clamp01 0.8) (currentTime c) 0.02;
                    SetTargetAtTime (JS.clamp01 (-1)) (currentTime c) 0.02]))
      | m, _ => m
      end.
Proof.
  apply (setVolume_clamps 0.8 (-1) live_page).
  apply keeps_getCtx, reachable_wf, reach_loaded.
Defined.

Lemma volume_set_before_the_first_sound_witness :
  completion (setVolume 0.8 ;; play UiTick None) fresh_page = Normal tt /\
  master (exec (setVolume 0.8 ;; play UiTick None) fresh_page)
    = Some (mkGain (JS.clamp01 0.8) []).
Proof.
  apply (volume_set_before_the_first_sound 0.8 UiTick None fresh_page).
  - apply reachable_wf, reach_loaded.
  - reflexivity.
  - vm_compute. discriminate.
Defined.

Lemma musicStop_fades_and_restores_witness :
  completion musicStop wired_page = Normal tt /\
  _musicBus (exec musicStop wired_page)
    = Some (mkGain (gain_value (mkGain 0.18 []))
              (gain_events (mkGain 0.18 []) ++
               [SetTargetAtTime 0 (currentTime (mkCtx 0 Running [])) 0.4])) /\
  timers (exec musicStop wired_page)
    = filter (fun t => match _musicTimer wired_page with
                       | Some id => negb (Pos.eqb (timer_id t) id)
                       | None => true
                       end) (timers wired_page)
      ++ [mkTimer (next_timer wired_page) TaskRestoreMusicGain 2500] /\
  voices (exec musicStop wired_page) = voices wired_page /\
  _musicScheduled (exec musicStop wired_page) = _musicScheduled wired_page /\
  _phraseCount (exec musicStop wired_page) = _phraseCount wired_page /\
  _musicBus (exec (musicStop ;; musicFade 0.5 None ;;
                   task TaskRestoreMusicGain) wired_page)
    = Some (mkGain 0.18
              (gain_events (mkGain 0.18 []) ++
               [SetTargetAtTime 0 (currentTime (mkCtx 0 Running [])) 0.4;
                SetTargetAtTime 0.5 (currentTime (mkCtx 0 Running []))
                                (JS.or_else None 0.5)])).
Proof.
  apply (musicStop_fades_and_restores wired_page (mkGain 0.18 [])
           (mkCtx 0 Running []) 0.5 None); reflexivity.
Defined.

Lemma effect_sounds_on_a_live_pipeline_witness :
  exists l,
    completion
      (callback (effect_callback Ghost (mkOpts None (Some 1)))) live_page
      = Normal tt /\
    voices
      (exec (callback (effect_callback Ghost (mkOpts None (Some 1))))
            live_page)
      = voices live_page ++ l /\
    map v_start l = [currentTime (mkCtx 0 Running [])] /\
    Forall (fun v => v_dest v = MasterBus) l /\
    True.
Proof.
  apply (effect_sounds_on_a_live_pipeline Ghost (mkOpts None (Some 1))
           live_page (mkCtx 0 Running []) (mkGain 0.325 []));
    try reflexivity.
  - vm_compute. discriminate.
  - intros _. vm_compute. discriminate.
Defined.

Lemma page_stays_well_formed_witness :
  (_musicPlaying second_tick_page = true ->
   ctx second_tick_page <> None /\ _musicBus second_tick_page <> None) /\
  (_musicBus second_tick_page <> None -> ctx second_tick_page <> None) /\
  (master second_tick_page <> None -> ctx second_tick_page <> None) /\
  (0 <= _phraseCount second_tick_page)%Z /\
  completion (setVolume 0.5) second_tick_page = Normal tt /\
  completion (musicFade 0 None) second_tick_page = Normal tt /\
  completion musicStop second_tick_page = Normal tt.
Proof.
  apply (page_stays_well_formed second_tick_page 0.5 0 None).
  - exact second_tick_page_reachable.
  - vm_compute. discriminate.
  - vm_compute. discriminate.
Defined.

Lemma tick_keeps_the_loop_alive_witness :
  completion _musicTick next_tick_page = Normal tt /\
  clock next_tick_page + _AHEAD <= _musicScheduled (exec _musicTick next_tick_page) /\
  _musicPlaying (exec _musicTick next_tick_page) = true /\
  _musicTimer (exec _musicTick next_tick_page) = Some (next_timer next_tick_page) /\
  timers (exec _musicTick next_tick_page)
    = timers next_tick_page
      ++ [mkTimer (next_timer next_tick_page) TaskMusicTick (_BAR * 1000 / 2)].
Proof.
  apply (tick_keeps_the_loop_alive next_tick_page).
  - exact next_tick_page_reachable.
  - reflexivity.
  - vm_compute. discriminate.
Defined.

(** * The first version of the synth *)

Lemma legacy_paired (w : option (Q * CtxState)) (s : Legacy.AudioFX) :
  Legacy.reachable w s -> Legacy.paired w s.
Proof.
  induction 1 as [|s a _ IH].
  - unfold Legacy.paired; cbn. repeat split; auto.
  - destruct IH as (Hw & Hp & Hn).
    destruct s as [w' c m vol nb ts]; cbn in Hw, Hp, Hn; subst w'.
    destruct a as [o|o|o|v| | |t];
      destruct c as [c|], m as [m|], w as [[t0 st]|];
      try (exfalso; destruct Hp as [H1 H2];
           (discriminate (H1 eq_refl) || discriminate (H2 eq_refl)));
      try (destruct (Hn eq_refl) as [Hc _]; discriminate Hc);
      try (destruct (Hn eq_refl) as [_ ->]);
      try destruct nb; try destruct ts;
      unfold Legacy.paired; cbn;
      (split; [reflexivity|]); (split; [split; intros H; discriminate H
                                       || reflexivity|]);
      intros H; try discriminate H; auto.
Qed.

Lemma clamp01_range (v : Q) : 0 <= JS.clamp01 v <= 1.
Proof.
  unfold JS.clamp01. split.
  - apply Q.le_max_l.
  - apply Q.max_lub; [discriminate | apply Q.le_min_l].
Qed.

(** X20. First version of the synth: the volume of the object stays in
    [0, 1] whatever is called, and so do the value of the master gain and
    every target queued on it (each with time constant 0.01). *)
Theorem legacy_volume_stays_in_range
    (w : option (Q * CtxState)) (s : Legacy.AudioFX) :
  Legacy.reachable w s ->
  0 <= Legacy.volume s <= 1 /\
  forall g, Legacy.master s = Some g ->
    0 <= gain_value g <= 1 /\
    Forall (fun e => exists v t, e = SetTargetAtTime v t 0.01 /\ 0 <= v <= 1)
           (gain_events g).
Proof.
  induction 1 as [|s a _ (Hv & Hg)].
  - cbn. split; [split; discriminate | discriminate].
  - destruct s as [w' c m vol nb ts]; cbn in Hv, Hg.
    pose proof (fun v => clamp01_range v) as Hc.
    assert (H0 : forall g : GainNode, Some g = None -> False)
      by (intros g E; discriminate E).
    destruct a as [o|o|o|v| | |t];
      destruct c as [c|], m as [m|], w' as [[t0 st]|];
      try destruct nb; try destruct ts;
      cbn; (split; [solve [auto]|]);
      intros g Eg; try discriminate Eg;
      try (injection Eg as <-; cbn;
           destruct (Hg _ eq_refl) as [Hgv Hge];
           split; [exact Hgv|];
           apply Forall_app; split; [exact Hge|];
           constructor; [|constructor]; eauto);
      try (injection Eg as <-; cbn; split; [solve [auto] | constructor]);
      auto.
Qed.

(** X21. First version of the synth, on a host with Web Audio: no call
    ever throws, and each effect schedules exactly one sub-graph, on the
    master gain, starting at the context's current time. *)
Theorem legacy_calls_complete_with_web_audio
    (w : Q * CtxState) (s : Legacy.AudioFX) :
  Legacy.reachable (Some w) s ->
  (forall a, Legacy.completion (Legacy.step a) s = Normal tt) /\
  (forall play o,
     In play [Legacy.playBell; Legacy.playGhost; Legacy.playTick] ->
     exists v,
       Legacy.voices (Legacy.exec (play o) s) = Legacy.voices s ++ [v] /\
       v_dest v = MasterBus /\
       match Legacy.ctx (Legacy.exec (play o) s) with
       | Some c => v_start v == currentTime c
       | None => False
       end).
Proof.
  intros Hr. destruct (legacy_paired _ _ Hr) as (Hw & Hp & _).
  destruct s as [w' c m vol nb ts]; cbn in Hw, Hp; subst w'.
  destruct w as [t0 st].
  split.
  - intros a. destruct a as [o|o|o|v| | |t];
      destruct c as [c|], m as [m|];
      try (exfalso; destruct Hp as [H1 H2];
           (discriminate (H1 eq_refl) || discriminate (H2 eq_refl)));
      try destruct nb; try destruct ts; reflexivity.
  - intros play o [<-|[<-|[<-|[]]]];
      destruct c as [c|], m as [m|];
      try (exfalso; destruct Hp as [H1 H2];
           (discriminate (H1 eq_refl) || discriminate (H2 eq_refl)));
      try destruct nb; cbn; eexists;
      (split; [reflexivity|]); (split; [reflexivity|]); cbn;
      match goal with
      | |- (if Qeq_bool ?t 0 then _ else _) == _ =>
          destruct (Qeq_bool t 0) eqn:E;
          [apply Qeq_bool_iff in E; symmetry; exact E | reflexivity]
      end.
Qed.

(** X22. First version of the synth, on a host without Web Audio: each
    effect throws to its caller and changes nothing, while
    [AudioFXPreview] swallows the exception and sets no timer; nothing is
    ever scheduled. *)
Theorem legacy_effects_throw_without_web_audio (s : Legacy.AudioFX) :
  Legacy.reachable None s ->
  (forall play o,
     In play [Legacy.playBell; Legacy.playGhost; Legacy.playTick] ->
     play o s = (Throw, s)) /\
  Legacy.timeout s = (Normal tt, s) /\
  Legacy.AudioFXPreview s = (Normal tt, s) /\
  Legacy.voices s = [] /\ Legacy.timeouts s = [].
Proof.
  intros Hr. destruct (legacy_paired _ _ Hr) as (Hw & Hp & Hn).
  destruct (Hn eq_refl) as [Hc Ht].
  destruct s as [w' c m vol nb ts]; cbn in Hw, Hc, Ht; subst w' c ts.
  split; [|repeat split].
  intros play o [<-|[<-|[<-|[]]]]; reflexivity.
Qed.

(** X23. First version of the synth, on a host with Web Audio:
    [AudioFXPreview] plays one noise tick at once and sets one timer of
    120 ms; when the oldest timer fires, one bell of three partials (880 Hz
    and its 1.997 and 0.501 multiples) starts at the time the clock then
    reads. *)
Theorem legacy_preview_plays_tick_then_bell
    (w : Q * CtxState) (s : Legacy.AudioFX) (t : Q) :
  Legacy.reachable (Some w) s ->
  exists tick bell,
    Legacy.voices (Legacy.exec Legacy.AudioFXPreview s)
      = Legacy.voices s ++ [tick] /\
    Legacy.timeouts (Legacy.exec Legacy.AudioFXPreview s)
      = Legacy.timeouts s ++ [120] /\
    v_sources tick = [(Noise, 0, 1)] /\
    Legacy.voices
      (Legacy.exec Legacy.timeout
         (Legacy.exec (Legacy.clock_at t)
            (Legacy.exec Legacy.AudioFXPreview s)))
      = Legacy.voices s ++ [tick; bell] /\
    Legacy.timeouts
      (Legacy.exec Legacy.timeout
         (Legacy.exec (Legacy.clock_at t)
            (Legacy.exec Legacy.AudioFXPreview s)))
      = tl (Legacy.timeouts s ++ [120]) /\
    v_start bell == t /\
    map fst (v_sources bell)
      = [(Sine, 880); (Triangle, 880 * 1.997); (Sine, 880 * 0.501)].
Proof.
  intros Hr. destruct (legacy_paired _ _ Hr) as (Hw & Hp & _).
  destruct s as [w' c m vol nb ts]; cbn in Hw, Hp; subst w'.
  destruct w as [t0 st].
  destruct c as [c|], m as [m|];
    try (exfalso; destruct Hp as [H1 H2];
         (discriminate (H1 eq_refl) || discriminate (H2 eq_refl)));
    destruct nb, ts as [|d ts]; cbn;
    do 2 eexists;
    (split; [reflexivity|]); (split; [reflexivity|]);
    (split; [reflexivity|]);
    (split; [rewrite <- ?app_assoc; reflexivity|]);
    (split; [reflexivity|]);
    (split; [|reflexivity]); cbn;
    destruct (Qeq_bool t 0) eqn:E;
    try (apply Qeq_bool_iff in E; symmetry; exact E); reflexivity.
Qed.

(** ** Witnesses *)

Lemma legacy_volume_stays_in_range_witness :
  0 <= Legacy.volume
         (Legacy.exec (Legacy.step (Legacy.SetVolume 2))
                      (Legacy.constructor (Some (0, Suspended)))) <= 1 /\
  forall g,
    Legacy.master
      (Legacy.exec (Legacy.step (Legacy.SetVolume 2))
                   (Legacy.constructor (Some (0, Suspended)))) = Some g ->
    0 <= gain_value g <= 1 /\
    Forall (fun e => exists v t, e = SetTargetAtTime v t 0.01 /\ 0 <= v <= 1)
           (gain_events g).
Proof.
  apply (legacy_volume_stays_in_range (Some (0, Suspended))).
  apply Legacy.reach_step, Legacy.reach_new.
Defined.

Lemma legacy_calls_complete_with_web_audio_witness :
  (forall a,
     Legacy.completion (Legacy.step a)
       (Legacy.constructor (Some (0, Suspended))) = Normal tt) /\
  (forall play o,
     In play [Legacy.playBell; Legacy.playGhost; Legacy.playTick] ->
     exists v,
       Legacy.voices
         (Legacy.exec (play o) (Legacy.constructor (Some (0, Suspended))))
         = Legacy.voices (Legacy.constructor (Some (0, Suspended))) ++ [v] /\
       v_dest v = MasterBus /\
       match Legacy.ctx
               (Legacy.exec (play o)
                  (Legacy.constructor (Some (0, Suspended)))) with
       | Some c => v_start v == currentTime c
       | None => False
       end).
Proof.
  apply (legacy_calls_complete_with_web_audio (0, Suspended)).
  apply Legacy.reach_new.
Defined.

Lemma legacy_effects_throw_without_web_audio_witness :
  (forall play o,
     In play [Legacy.playBell; Legacy.playGhost; Legacy.playTick] ->
     play o (Legacy.constructor None) = (Throw, Legacy.constructor None)) /\
  Legacy.timeout (Legacy.constructor None)
    = (Normal tt, Legacy.constructor None) /\
  Legacy.AudioFXPreview (Legacy.constructor None)
    = (Normal tt, Legacy.constructor None) /\
  Legacy.voices (Legacy.constructor None) = [] /\
  Legacy.timeouts (Legacy.constructor None) = [].
Proof.
  apply (legacy_effects_throw_without_web_audio (Legacy.constructor None)).
  apply Legacy.reach_new.
Defined.

Lemma legacy_preview_plays_tick_then_bell_witness :
  exists tick bell,
    Legacy.voices
      (Legacy.exec Legacy.AudioFXPreview
         (Legacy.constructor (Some (0, Running))))
      = Legacy.voices (Legacy.constructor (Some (0, Running))) ++ [tick] /\
    Legacy.timeouts
      (Legacy.exec Legacy.AudioFXPreview
         (Legacy.constructor (Some (0, Running))))
      = Legacy.timeouts (Legacy.constructor (Some (0, Running))) ++ [120] /\
    v_sources tick = [(Noise, 0, 1)] /\
    Legacy.voices
      (Legacy.exec Legacy.timeout
         (Legacy.exec (Legacy.clock_at 0.12)
            (Legacy.exec Legacy.AudioFXPreview
               (Legacy.constructor (Some (0, Running))))))
      = Legacy.voices (Legacy.constructor (Some (0, Running)))
        ++ [tick; bell] /\
    Legacy.timeouts
      (Legacy.exec Legacy.timeout
         (Legacy.exec (Legacy.clock_at 0.12)
            (Legacy.exec Legacy.AudioFXPreview
               (Legacy.constructor (Some (0, Running))))))
      = tl (Legacy.timeouts (Legacy.constructor (Some (0, Running)))
            ++ [120]) /\
    v_start bell == 0.12 /\
    map fst (v_sources bell)
      = [(Sine, 880); (Triangle, 880 * 1.997); (Sine, 880 * 0.501)].
Proof.
  apply (legacy_preview_plays_tick_then_bell (0, Running)
           (Legacy.constructor (Some (0, Running))) 0.12).
  apply Legacy.reach_new.
Defined.

(** * The shift-balance simulation *)

Section BalanceFacts.
Import Balance.

Lemma base_range (a : Action) : (2 <= ACTION_BASE_UNITS a <= 6)%Z.
Proof. destruct a; vm_compute; split; discriminate. Qed.

Lemma scan_In (weights : Action -> float) (l : list Action) (r : float)
    (k : Action) :
  weightedChoice_scan weights r l = Some k -> In k l.
Proof.
  revert r; induction l as [|a l IH]; intros r; cbn [weightedChoice_scan];
    [discriminate|].
  destruct (r - weights a <=? 0)%float.
  - intros [= ->]. now left.
  - intros H. right. exact (IH _ H).
Qed.

Lemma last_index {A : Type} (l : list A) :
  l <> [] ->
  exists k, JS.index l (JS.length l - 1) = Some k /\ In k l.
Proof.
  intros Hl. destruct (exists_last Hl) as (l' & k & ->).
  exists k. unfold JS.index, JS.length. rewrite length_app. cbn.
  replace (Z.of_nat (List.length l' + 1) - 1)%Z
    with (Z.of_nat (List.length l')) by lia.
  destruct (Z.ltb_spec (Z.of_nat (List.length l')) 0); [lia|].
  rewrite Nat2Z.id, nth_error_app2, Nat.sub_diag by lia. cbn.
  split; [reflexivity | apply in_or_app; right; now left].
Qed.

Lemma weightedChoice_In (choices : list Action) (weights : Action -> float)
    (g : Random) :
  choices <> [] ->
  exists k, weightedChoice choices weights g = (Some k, after 1 g) /\
            In k choices.
Proof.
  intros Hl. unfold weightedChoice, Math_random.
  destruct (weightedChoice_scan _ _ choices) as [k|] eqn:E.
  - exists k. split; [reflexivity | exact (scan_In _ _ _ _ E)].
  - destruct (last_index choices Hl) as (k & -> & Hk). now exists k.
Qed.

Lemma randOverhead_range (g : Random) :
  exists o, randOverhead g = (o, after 1 g) /\ (0 <= o <= 1)%Z.
Proof.
  unfold randOverhead, Math_random.
  destruct (_ <? _)%float; eexists; (split; [reflexivity|]);
    unfold OVERHEAD_MAX_UNITS; lia.
Qed.

Lemma affordable_carry (u : Z) :
  (3 <= u)%Z ->
  filter (fun a => (u >=? ACTION_BASE_UNITS a + OVERHEAD_MAX_UNITS)%Z) ACTIONS
    <> [].
Proof.
  intros Hu. unfold ACTIONS. cbn [filter].
  replace (u >=? ACTION_BASE_UNITS carry + OVERHEAD_MAX_UNITS)%Z with true;
    [discriminate|].
  symmetry. apply Z.geb_le. vm_compute (ACTION_BASE_UNITS carry + _)%Z. lia.
Qed.

Lemma affordable_none (u : Z) :
  (u < 3)%Z ->
  filter (fun a => (u >=? ACTION_BASE_UNITS a + OVERHEAD_MAX_UNITS)%Z) ACTIONS
    = [].
Proof.
  intros Hu. unfold ACTIONS. cbn [filter].
  repeat match goal with
  | |- context [(u >=? ?c)%Z] =>
      let v := eval vm_compute in c in
      change c with v;
      destruct (Z.geb_spec u v); [lia|]
  end.
  reflexivity.
Qed.

(** What a round does: it stops below three units, and otherwise takes an
    action it can pay for. *)
Lemma round_cases (st : Shift) (g : Random) :
  ((unitsLeft st < 3)%Z /\ round st g = Break) \/
  ((3 <= unitsLeft st)%Z /\
   exists pick o,
     (0 <= o <= 1)%Z /\
     (ACTION_BASE_UNITS pick + o <= unitsLeft st)%Z /\
     round st g =
       Next (mkShift (unitsLeft st - (ACTION_BASE_UNITS pick + o))
                     (increment (counts st) pick)
                     (actionsTaken st + 1))
            (after 2 g)).
Proof.
  destruct (Z.lt_ge_cases (unitsLeft st) 3) as [Hu|Hu].
  - left. split; [exact Hu|]. unfold round.
    rewrite (affordable_none _ Hu). reflexivity.
  - right. split; [exact Hu|]. unfold round.
    pose proof (affordable_carry _ Hu) as Hne.
    set (aff := filter _ ACTIONS) in *.
    destruct (Z.eqb_spec (JS.length aff) 0) as [E|_].
    { unfold JS.length in E. destruct aff; [congruence | cbn in E; lia]. }
    destruct (weightedChoice_In aff WEIGHTS g Hne) as (pick & -> & Hin).
    destruct (randOverhead_range (after 1 g)) as (o & -> & Ho).
    apply filter_In in Hin. destruct Hin as [_ Hin].
    apply Z.geb_le in Hin. unfold OVERHEAD_MAX_UNITS in Hin.
    exists pick, o. split; [exact Ho|]. split; [lia|].
    destruct (Z.gtb_spec (ACTION_BASE_UNITS pick + o) (unitsLeft st)); [lia|].
    reflexivity.
Qed.

Lemma over_actions_increment (c : Action -> Z) (pick : Action) :
  over_actions (increment c pick) = (over_actions c + 1)%Z.
Proof. destruct pick; unfold over_actions, increment; cbn; lia. Qed.

Lemma over_actions_increment_base (c : Action -> Z) (pick : Action) :
  over_actions (fun a => increment c pick a * ACTION_BASE_UNITS a)%Z
    = (over_actions (fun a => c a * ACTION_BASE_UNITS a)
       + ACTION_BASE_UNITS pick)%Z.
Proof. destruct pick; unfold over_actions, increment; cbn; lia. Qed.

Lemma increment_nonneg (c : Action -> Z) (pick a : Action) :
  (0 <= c a -> 0 <= increment c pick a)%Z.
Proof. unfold increment. destruct (Action_eqb a pick); lia. Qed.

Lemma balanced_next (st : Shift) (pick : Action) (o : Z) :
  balanced st -> (3 <= unitsLeft st)%Z -> (0 <= o <= 1)%Z ->
  (ACTION_BASE_UNITS pick + o <= unitsLeft st)%Z ->
  balanced (mkShift (unitsLeft st - (ACTION_BASE_UNITS pick + o))
                    (increment (counts st) pick)
                    (actionsTaken st + 1)).
Proof.
  intros (H0 & Hc & Ha & Hs & H2 & H7 & Hm) Hu Ho Hp.
  pose proof (base_range pick) as Hb.
  unfold balanced; cbn [unitsLeft counts actionsTaken].
  rewrite over_actions_increment, over_actions_increment_base.
  change SHIFT_UNITS with 16%Z in *.
  repeat split; try lia.
  intros a. apply increment_nonneg, Hc.
Qed.

Lemma balanced_start : balanced (mkShift SHIFT_UNITS (fun _ => 0%Z) 0).
Proof. unfold balanced; cbn. vm_compute. repeat split; discriminate. Qed.

(** The loop from a balanced state: it ends, within [fuel] rounds when two
    units per round of fuel cover the time left, balanced and with less
    than three units, after two draws for each action taken. *)
Lemma rounds_spec (fuel : nat) :
  forall (st : Shift) (g : Random),
    balanced st -> (0 < fuel)%nat ->
    (unitsLeft st <= 2 * Z.of_nat fuel)%Z ->
    exists r,
      rounds fuel st g
        = Returned r
            (after (2 * Z.to_nat (actionsTaken r - actionsTaken st)) g) /\
      balanced r /\ (unitsLeft r <= 2)%Z /\
      (actionsTaken st <= actionsTaken r)%Z /\
      (3 <= unitsLeft st -> actionsTaken st < actionsTaken r)%Z.
Proof.
  induction fuel as [|fuel IH]; intros st g Hb Hf Hu; [lia|].
  cbn [rounds].
  destruct (round_cases st g) as [[Hlt ->]|(Hge & pick & o & Ho & Hp & ->)].
  - exists st. rewrite Z.sub_diag.
    split; [reflexivity|]. split; [exact Hb|]. lia.
  - pose proof (base_range pick) as Hr.
    pose proof (balanced_next st pick o Hb Hge Ho Hp) as Hb'.
    set (st' := mkShift _ _ _) in *.
    destruct (IH st' (after 2 g) Hb') as (r & E & Hbr & Hur & Hle & _).
    + lia.
    + subst st'; cbn [unitsLeft]. lia.
    + exists r. subst st'; cbn [actionsTaken unitsLeft] in *.
      rewrite E. split; [|split; [exact Hbr|lia]].
      f_equal.
      replace (Z.to_nat (actionsTaken r - actionsTaken st))
        with (S (Z.to_nat (actionsTaken r - (actionsTaken st + 1)))) by lia.
      unfold after.
      replace (2 * S (Z.to_nat (actionsTaken r - (actionsTaken st + 1))))%nat
        with (2 + 2 * Z.to_nat (actionsTaken r - (actionsTaken st + 1)))%nat
        by lia.
      set (k := (2 * _)%nat). clearbody k.
      reflexivity.
Qed.

Lemma shift_spec (fuel : nat) (g : Random) :
  (8 <= fuel)%nat ->
  exists r,
    simulateOneShift fuel g
      = Returned r (after (2 * Z.to_nat (actionsTaken r)) g) /\
    balanced r /\ (unitsLeft r <= 2)%Z.
Proof.
  intros Hf. unfold simulateOneShift.
  destruct (rounds_spec fuel (mkShift SHIFT_UNITS (fun _ => 0%Z) 0) g
              balanced_start) as (r & E & Hr & Hur & _).
  - lia.
  - cbn [unitsLeft]. change SHIFT_UNITS with 16%Z. lia.
  - cbn [actionsTaken] in E. rewrite Z.sub_0_r in E. eauto.
Qed.

Lemma over_actions_accumulate (agg c : Action -> Z) :
  over_actions (accumulate agg c) = (over_actions agg + over_actions c)%Z.
Proof. unfold over_actions, accumulate; cbn; lia. Qed.

Lemma runSim_loop_spec (fuel : nat) (Hf : (8 <= fuel)%nat) (todo : nat) :
  forall (t : Totals) (g : Random),
    exists t' g',
      runSim_loop fuel todo t g = Returned t' g' /\
      (totalUnitsConsumed t + 14 * Z.of_nat todo <= totalUnitsConsumed t'
       <= totalUnitsConsumed t + 16 * Z.of_nat todo)%Z /\
      (totalActions t + 2 * Z.of_nat todo <= totalActions t'
       <= totalActions t + 7 * Z.of_nat todo)%Z /\
      (zeroLeft t <= zeroLeft t' <= zeroLeft t + Z.of_nat todo)%Z /\
      (totalActions t' - over_actions (aggCounts t')
       = totalActions t - over_actions (aggCounts t))%Z.
Proof.
  induction todo as [|todo IH]; intros t g; cbn [runSim_loop].
  - exists t, g. split; [reflexivity|]. lia.
  - destruct (shift_spec fuel g Hf) as (r & -> & Hb & Hu).
    destruct Hb as (H0 & _ & Ha & _ & H2 & H7 & Hm).
    change SHIFT_UNITS with 16%Z in *.
    match goal with
    | |- context [runSim_loop fuel todo ?a ?b] =>
        destruct (IH a b) as (t' & g' & -> & Hu' & Ha' & Hz' & Hc')
    end.
    cbn [totalUnitsConsumed totalActions aggCounts zeroLeft] in *.
    rewrite over_actions_accumulate in Hc'.
    exists t', g'. split; [reflexivity|].
    destruct (Z.eqb_spec (unitsLeft r) 0); lia.
Qed.

(** X15. Whatever [Math.random] returns, a simulated shift ends within 8
    rounds of its loop: it takes at least 2 and at most 7 actions, ends
    with 0, 1 or 2 units left, and has drawn two random numbers for each
    action taken. *)
Theorem every_shift_ends (fuel : nat) (g : Random) :
  (8 <= fuel)%nat ->
  exists r,
    simulateOneShift fuel g
      = Returned r (after (2 * Z.to_nat (actionsTaken r)) g) /\
    (0 <= unitsLeft r <= 2)%Z /\
    (2 <= actionsTaken r <= 7)%Z.
Proof.
  intros Hf. destruct (shift_spec fuel g Hf) as (r & E & Hb & Hu).
  destruct Hb as (H0 & _ & _ & _ & H2 & H7 & Hm).
  change SHIFT_UNITS with 16%Z in *.
  exists r. split; [exact E|]. lia.
Qed.

(** X16. The record a shift returns adds up: no count is negative, the
    number of actions is the sum of the counts, and the units consumed are
    the base costs of the actions counted plus at most one unit of overhead
    for each. *)
Theorem shift_accounts_for_every_unit (fuel : nat) (g : Random) :
  (8 <= fuel)%nat ->
  exists r g',
    simulateOneShift fuel g = Returned r g' /\
    (forall a, 0 <= counts r a)%Z /\
    actionsTaken r = over_actions (counts r) /\
    (over_actions (fun a => counts r a * ACTION_BASE_UNITS a)
     <= SHIFT_UNITS - unitsLeft r
     <= over_actions (fun a => counts r a * ACTION_BASE_UNITS a)
        + actionsTaken r)%Z.
Proof.
  intros Hf. destruct (shift_spec fuel g Hf) as (r & E & Hb & Hu).
  destruct Hb as (_ & Hc & Ha & Hs & _).
  exists r, (after (2 * Z.to_nat (actionsTaken r)) g). auto.
Qed.

(** X17. The retry branch of the loop ([if (cost > unitsLeft) continue])
    is dead code, and the pick is never [undefined]: an action is offered
    only when its base cost and the largest overhead fit in the time
    left. *)
Theorem round_never_retries (st : Shift) (g : Random) :
  (forall g', round st g <> Continue g') /\ round st g <> NotANumber.
Proof.
  destruct (round_cases st g) as [[_ ->]|(_ & pick & o & _ & _ & ->)];
    split; try intros g'; discriminate.
Qed.

(** The model follows the code where exact arithmetic would not: at the
    draw 0.85, the cumulative weight up to [ghost], what is left after
    [ghost] has been subtracted is 5.55e-17, not 0, and the choice goes to
    [request]. *)
Lemma rounding_moves_a_tie :
  fst (weightedChoice ACTIONS WEIGHTS (fun _ => 0.85%float)) = Some request.
Proof. vm_compute. reflexivity. Qed.

(** X18. [weightedChoice] draws one number and returns an element of the
    list it is given, whatever the weights and the draw ([NaN] included):
    [undefined] comes out of the empty list only. *)
Theorem weightedChoice_returns_a_choice
    (choices : list Action) (weights : Action -> float) (g : Random) :
  snd (weightedChoice choices weights g) = after 1 g /\
  match fst (weightedChoice choices weights g) with
  | Some k => In k choices
  | None => choices = []
  end.
Proof.
  destruct choices as [|a l].
  - split; reflexivity.
  - destruct (weightedChoice_In (a :: l) weights g) as (k & -> & Hk);
      [discriminate|].
    split; [reflexivity | exact Hk].
Qed.

(** X19. [runSim(n)] ends for every [n] and every random source, and the
    totals it prints averages of are bounded: between 14 and 16 units
    consumed and between 2 and 7 actions for each shift simulated, at most
    as many exhausted shifts as shifts, and as many actions as the
    per-action counts add up to.  For [n <= 0] no shift is simulated. *)
Theorem averages_stay_in_range (fuel : nat) (n : Z) (g : Random) :
  (8 <= fuel)%nat ->
  exists t g',
    runSim fuel n g = Returned t g' /\
    (14 * Z.max 0 n <= totalUnitsConsumed t <= 16 * Z.max 0 n)%Z /\
    (2 * Z.max 0 n <= totalActions t <= 7 * Z.max 0 n)%Z /\
    (0 <= zeroLeft t <= Z.max 0 n)%Z /\
    totalActions t = over_actions (aggCounts t).
Proof.
  intros Hf. unfold runSim.
  destruct (runSim_loop_spec fuel Hf (Z.to_nat n)
              (mkTotals 0 0 (fun _ => 0%Z) 0) g)
    as (t & g' & E & Hu & Ha & Hz & Hc).
  cbn [totalUnitsConsumed totalActions aggCounts zeroLeft] in *.
  change (over_actions (fun _ => 0%Z)) with 0%Z in Hc.
  exists t, g'. split; [exact E|]. lia.
Qed.

(** ** Witnesses *)

Lemma every_shift_ends_witness :
  exists r,
    simulateOneShift 8 (fun _ => 0%float)
      = Returned r (after (2 * Z.to_nat (actionsTaken r)) (fun _ => 0%float)) /\
    (0 <= unitsLeft r <= 2)%Z /\
    (2 <= actionsTaken r <= 7)%Z.
Proof. apply (every_shift_ends 8 (fun _ => 0%float)). lia. Defined.

Lemma shift_accounts_for_every_unit_witness :
  exists r g',
    simulateOneShift 8 (fun _ => 0.9%float) = Returned r g' /\
    (forall a, 0 <= counts r a)%Z /\
    actionsTaken r = over_actions (counts r) /\
    (over_actions (fun a => counts r a * ACTION_BASE_UNITS a)
     <= SHIFT_UNITS - unitsLeft r
     <= over_actions (fun a => counts r a * ACTION_BASE_UNITS a)
        + actionsTaken r)%Z.
Proof. apply (shift_accounts_for_every_unit 8 (fun _ => 0.9%float)). lia. Defined.

Lemma averages_stay_in_range_witness :
  exists t g',
    runSim 8 3 (fun _ => 0.5%float) = Returned t g' /\
    (14 * Z.max 0 3 <= totalUnitsConsumed t <= 16 * Z.max 0 3)%Z /\
    (2 * Z.max 0 3 <= totalActions t <= 7 * Z.max 0 3)%Z /\
    (0 <= zeroLeft t <= Z.max 0 3)%Z /\
    totalActions t = over_actions (aggCounts t).
Proof. apply (averages_stay_in_range 8 3 (fun _ => 0.5%float)). lia. Defined.
End BalanceFacts.
